(** * react-native-knex: the migrator ([src/migrate/index.js]) and the
    statement execution of the client ([src/client.js]).

    The promise chains of the source are embedded as a state-and-error monad
    over an explicit world: the two persisted tables, the migrator object's
    own mutable fields, a driver-fault oracle and the trace of everything
    that was issued. *)

From Stdlib Require Import ZArith String Ascii List Bool Lia.
From stdpp Require Import base option list gmap strings sorting pretty.

Local Open Scope Z_scope.

(** ** Errors and settled results *)

(** The three error classes the migrator can see: [LockError] (declared in
    the module, [name = "MigrationLocked"]), plain [Error] (driver failures,
    validation failures, rejected migrations) and the engine's [TypeError]. *)
Inductive error : Type :=
| LockError (msg : string)
| Error (msg : string)
| TypeError (msg : string).

Definition message (e : error) : string :=
  match e with LockError m | Error m | TypeError m => m end.

(** [error instanceof LockError] *)
Definition instanceof_LockError (e : error) : bool :=
  match e with LockError _ => true | _ => false end.

Inductive result (A : Type) : Type :=
| Ok (a : A)
| Err (e : error).
Arguments Ok {A} a.
Arguments Err {A} e.

Definition is_Ok {A} (r : result A) : bool :=
  match r with Ok _ => true | Err _ => false end.

(** ** Handles, statements and the trace *)

Inductive direction : Type := Up | Down.

(** What a statement is issued on: the plain [knex] instance (a pooled
    connection, no transaction) or a transaction object. *)
Inductive handle : Type :=
| Knex
| Trx (id : nat).

Global Instance handle_eq_dec : EqDecision handle.
Proof. solve_decision. Defined.

Inductive table : Type := MigrationsTable | LockTable.

Inductive statement : Type :=
| HasTable (t : table)
| CreateTable (t : table)
| SelectLock (forUpdate : bool)
| InsertLock (is_locked : Z)
| UpdateLock (is_locked : Z)
| SelectNames
| SelectAll
| SelectLastBatch
| SelectMaxBatch
| InsertRecord (name : string) (batch migration_time : Z)
| DeleteRecord (name : string).

Inductive event : Type :=
| EvQuery (h : handle) (s : statement)
| EvBegin (id : nat)
| EvCommit (id : nat)
| EvRollback (id : nat)
| EvOp (name : string) (d : direction) (h : handle)
| EvWarn (msg : string).

Global Instance direction_eq_dec : EqDecision direction.
Proof. solve_decision. Defined.
Global Instance table_eq_dec : EqDecision table.
Proof. solve_decision. Defined.
Global Instance statement_eq_dec : EqDecision statement.
Proof. solve_decision. Defined.
Global Instance event_eq_dec : EqDecision event.
Proof. solve_decision. Defined.

(** ** Persisted data *)

Record MigrationRecord : Type := mkRecord {
  rec_id : Z;
  rec_name : string;
  rec_batch : Z;
  rec_time : Z
}.

(** [orderBy("id")] and [orderBy("id", "desc")] *)
Definition id_le (r1 r2 : MigrationRecord) : Prop := rec_id r1 <= rec_id r2.
Definition id_ge (r1 r2 : MigrationRecord) : Prop := rec_id r2 <= rec_id r1.
Global Instance id_le_dec : RelDecision id_le.
Proof. intros r1 r2; unfold id_le; apply _. Defined.
Global Instance id_ge_dec : RelDecision id_ge.
Proof. intros r1 r2; unfold id_ge; apply _. Defined.

Definition orderBy_id (rows : list MigrationRecord) : list MigrationRecord :=
  merge_sort id_le rows.
Definition orderBy_id_desc (rows : list MigrationRecord) : list MigrationRecord :=
  merge_sort id_ge rows.

(** SQL [max(batch)]: [NULL] on an empty table. *)
Fixpoint max_batch (rows : list MigrationRecord) : option Z :=
  match rows with
  | [] => None
  | r :: rest =>
      match max_batch rest with
      | None => Some (rec_batch r)
      | Some m => Some (Z.max (rec_batch r) m)
      end
  end.

(** ** lodash and string helpers *)

(** [difference(array, values)]: the elements of [array] that are not in
    [values], in the order of [array]. *)
Definition difference (array values : list string) : list string :=
  list_difference array values.

(** [includes(collection, value)] *)
Definition includes (collection : list string) (value : string) : bool :=
  bool_decide (value ∈ collection).

(** [array.join(sep)] *)
Fixpoint join (sep : string) (l : list string) : string :=
  match l with
  | [] => ""
  | [x] => x
  | x :: rest => x +:+ sep +:+ join sep rest
  end.

(** [value.split("_")[0]]: the part of [value] before its first ["_"], the
    whole of it when there is none. *)
Fixpoint split_underscore_0 (value : string) : string :=
  match value with
  | EmptyString => ""
  | String c rest =>
      if Ascii.eqb c "_"%char then "" else String c (split_underscore_0 rest)
  end.

(** [a > b] on two strings: code-unit lexicographic order. *)
Definition string_gt (a b : string) : bool :=
  match String.compare a b with Gt => true | _ => false end.

(** lodash [max(array)]: [undefined] on an empty array, else the first
    greatest element ([baseExtremum] with [baseGt]). *)
Definition lodash_max (array : list string) : option string :=
  fold_left
    (fun computed current =>
       match computed with
       | None => Some current
       | Some c => if string_gt current c then Some current else Some c
       end)
    array None.

(** The double-quote character, for messages that quote a name. *)
Definition dquote : string := String (ascii_of_nat 34) "".

(** [Array.prototype.sort()] without a comparator, on strings. *)
Definition js_sort (l : list string) : list string :=
  merge_sort String.le l.

(** A concrete [path.extname] (POSIX flavour), following Node's scan from
    the end of the path; used to instantiate the parameter below. *)
Record ext_scan : Type := mkScan {
  startDot : Z; startPart : Z; scan_end : Z;
  matchedSlash : bool; preDotState : Z; stopped : bool
}.

Definition ext_step (st : ext_scan) (ic : Z * ascii) : ext_scan :=
  let '(i, c) := ic in
  if stopped st then st
  else if Ascii.eqb c "/"%char then
    if negb (matchedSlash st)
    then mkScan (startDot st) (i + 1) (scan_end st) (matchedSlash st)
                (preDotState st) true
    else st
  else
    let st1 :=
      if scan_end st =? -1
      then mkScan (startDot st) (startPart st) (i + 1) false (preDotState st) false
      else st in
    if Ascii.eqb c "."%char then
      if startDot st1 =? -1
      then mkScan i (startPart st1) (scan_end st1) (matchedSlash st1)
                  (preDotState st1) false
      else if negb (preDotState st1 =? 1)
      then mkScan (startDot st1) (startPart st1) (scan_end st1)
                  (matchedSlash st1) 1 false
      else st1
    else if negb (startDot st1 =? -1)
    then mkScan (startDot st1) (startPart st1) (scan_end st1)
                (matchedSlash st1) (-1) false
    else st1.

Definition indexed (l : list ascii) : list (Z * ascii) :=
  zip (Z.of_nat <$> seq 0 (length l)) l.

Definition posix_extname (path : string) : string :=
  let cs := list_ascii_of_string path in
  let st := fold_left ext_step (rev (indexed cs)) (mkScan (-1) 0 (-1) true 0 false) in
  if (startDot st =? -1) || (scan_end st =? -1) || (preDotState st =? 0)
     || ((preDotState st =? 1) && (startDot st =? scan_end st - 1)
         && (startDot st =? startPart st + 1))
  then ""
  else string_of_list_ascii
         (take (Z.to_nat (scan_end st - startDot st)) (drop (Z.to_nat (startDot st)) cs)).

Module Migrator.

Section Migrator.

(** [U] is the state of the user's schema, the only thing a migration's own
    [up] and [down] touch; [extname] is [path.extname]. *)
Context {U : Type}.
Variable extname : string -> string.

(** ** Migration definitions and configuration *)

(** What calling [migration[direction](trxOrKnex, Promise)] gives back: a
    thenable that settles, a value that is no thenable, or a synchronous
    throw. *)
Inductive returned : Type :=
| Resolves
| Rejects (msg : string)
| NotThenable
| Throws (msg : string).

Definition operation : Type := handle -> U -> returned * U.

(** An entry of [migrationModules]. [up]/[down] are [None] when the property
    is no function; [config_transaction] is [get(migration,
    "config.transaction")] when that is a boolean. *)
Record Migration : Type := mkMigration {
  up : option operation;
  down : option operation;
  config_transaction : option bool
}.

Definition get_operation (m : Migration) (d : direction) : option operation :=
  match d with Up => up m | Down => down m end.

Record Config : Type := mkConfig {
  extension : string;
  loadExtensions : list string;
  tableName : string;
  directory : string;
  disableTransactions : bool;
  migrationModules : gmap string Migration
}.

(** A caller-supplied config object: every key may be absent. *)
Record ConfigArg : Type := mkConfigArg {
  arg_extension : option string;
  arg_loadExtensions : option (list string);
  arg_tableName : option string;
  arg_directory : option string;
  arg_disableTransactions : option bool;
  arg_migrationModules : option (gmap string Migration)
}.

Definition CONFIG_DEFAULT : Config :=
  {| extension := "js";
     loadExtensions :=
       [".co"; ".coffee"; ".eg"; ".iced"; ".js"; ".litcoffee"; ".ls"; ".ts"];
     tableName := "knex_migrations";
     directory := "./migrations";
     disableTransactions := true;
     migrationModules := ∅ |}.

(** [assign(target, source)] for one source object *)
Definition assign (target : Config) (source : option ConfigArg) : Config :=
  match source with
  | None => target
  | Some s =>
      {| extension := default (extension target) (arg_extension s);
         loadExtensions := default (loadExtensions target) (arg_loadExtensions s);
         tableName := default (tableName target) (arg_tableName s);
         directory := default (directory target) (arg_directory s);
         disableTransactions :=
           default (disableTransactions target) (arg_disableTransactions s);
         migrationModules :=
           default (migrationModules target) (arg_migrationModules s) |}
  end.

(** [assign({}, CONFIG_DEFAULT, this.config || {}, config)]; a [this.config]
    that is set holds every key, so it overrides each default. *)
Definition setConfig (this_config : option Config) (config : option ConfigArg)
  : Config :=
  assign (default CONFIG_DEFAULT this_config) config.

(** ** The world *)

(** The part of the world a transaction rollback restores. The two tables
    are the ones that the configuration in force names, [tableName] and
    [tableName + "_lock"]: tables of another name are not represented, so a
    statement about two calls is one about calls that name the same table. *)
Record Db : Type := mkDb {
  migrations_table : option (list MigrationRecord);
  lock_table : option (list Z);
  next_id : Z;
  user : U
}.

Record World : Type := mkWorld {
  config : Config;                    (* this.config *)
  activeFileName : option string;     (* this._activeMigration.fileName *)
  db : Db;
  now : Z;                            (* Date.now() *)
  fault_at : nat -> option string;    (* the k-th statement fails in the driver *)
  issued : nat;                       (* statements issued so far *)
  next_trx : nat;
  trace : list event
}.

Definition set_config (c : Config) (w : World) : World :=
  mkWorld c (activeFileName w) (db w) (now w) (fault_at w) (issued w)
          (next_trx w) (trace w).
Definition set_activeFileName (f : option string) (w : World) : World :=
  mkWorld (config w) f (db w) (now w) (fault_at w) (issued w)
          (next_trx w) (trace w).
Definition set_db (d : Db) (w : World) : World :=
  mkWorld (config w) (activeFileName w) d (now w) (fault_at w) (issued w)
          (next_trx w) (trace w).
Definition set_now (t : Z) (w : World) : World :=
  mkWorld (config w) (activeFileName w) (db w) t (fault_at w) (issued w)
          (next_trx w) (trace w).
Definition set_issued (n : nat) (w : World) : World :=
  mkWorld (config w) (activeFileName w) (db w) (now w) (fault_at w) n
          (next_trx w) (trace w).
Definition set_next_trx (n : nat) (w : World) : World :=
  mkWorld (config w) (activeFileName w) (db w) (now w) (fault_at w) (issued w)
          n (trace w).
Definition emit (e : event) (w : World) : World :=
  mkWorld (config w) (activeFileName w) (db w) (now w) (fault_at w) (issued w)
          (next_trx w) (trace w ++ [e]).

Definition set_migrations_table (t : option (list MigrationRecord)) (d : Db) : Db :=
  mkDb t (lock_table d) (next_id d) (user d).
Definition set_lock_table (t : option (list Z)) (d : Db) : Db :=
  mkDb (migrations_table d) t (next_id d) (user d).
Definition set_user (u : U) (d : Db) : Db :=
  mkDb (migrations_table d) (lock_table d) (next_id d) u.

(** ** Promises *)

Definition Promise (A : Type) : Type := World -> result A * World.

Definition resolve {A} (a : A) : Promise A := fun w => (Ok a, w).
Definition reject {A} (e : error) : Promise A := fun w => (Err e, w).

Definition then_ {A B} (p : Promise A) (f : A -> Promise B) : Promise B :=
  fun w =>
    match p w with
    | (Ok a, w1) => f a w1
    | (Err e, w1) => (Err e, w1)
    end.

(** [.tap(f)]: run [f], keep the value. *)
Definition tap {A B} (p : Promise A) (f : A -> Promise B) : Promise A :=
  then_ p (fun a => then_ (f a) (fun _ => resolve a)).

Definition catch_ {A} (p : Promise A) (h : error -> Promise A) : Promise A :=
  fun w =>
    match p w with
    | (Ok a, w1) => (Ok a, w1)
    | (Err e, w1) => h e w1
    end.

(** Bluebird's [.finally(h)]: [h] runs on either outcome; the outcome of [p]
    passes through unless [h] itself throws. *)
Definition finally_ {A B} (p : Promise A) (h : Promise B) : Promise A :=
  fun w =>
    let '(r, w1) := p w in
    match h w1 with
    | (Ok _, w2) => (r, w2)
    | (Err e, w2) => (Err e, w2)
    end.

Notation "x <- p ;; k" := (then_ p (fun x => k))
  (at level 100, p at next level, right associativity).
Notation "p ;;; k" := (then_ p (fun _ => k))
  (at level 100, right associativity).

Definition warn (msg : string) : Promise unit :=
  fun w => (Ok tt, emit (EvWarn msg) w).

Definition Date_now : Promise Z :=
  fun w => (Ok (now w), set_now (now w + 1) w).

(** Modelled from the spec: the execution of a statement built with the
    query builder (the builder, the runner and the drivers' SQL are not
    among the sources). A statement sent on handle [h] is recorded, counted,
    and either failed by the driver (no effect on the tables) or run
    against the two tables of the persisted layout. *)
Definition issue {A} (h : handle) (s : statement) (run : Db -> result A * Db)
  : Promise A :=
  fun w =>
    let w1 := set_issued (S (issued w)) (emit (EvQuery h s) w) in
    match fault_at w (issued w) with
    | Some msg => (Err (Error msg), w1)
    | None => let '(r, d) := run (db w1) in (r, set_db d w1)
    end.

Definition no_such_table {A} (d : Db) : result A * Db :=
  (Err (Error "no such table"), d).

(** Modelled from the spec: [schema.hasTable(table)]. *)
Definition hasTable (h : handle) (t : table) : Promise bool :=
  issue h (HasTable t) (fun d =>
    (Ok (match t with
         | MigrationsTable => bool_decide (is_Some (migrations_table d))
         | LockTable => bool_decide (is_Some (lock_table d))
         end), d)).

(** Modelled from the spec: [schema.createTable(table, ...)]; the new table
    is empty, and creating a table that exists is a driver error. *)
Definition createTable (h : handle) (t : table) : Promise unit :=
  issue h (CreateTable t) (fun d =>
    match t with
    | MigrationsTable =>
        match migrations_table d with
        | Some _ => (Err (Error "table already exists"), d)
        | None => (Ok tt, set_migrations_table (Some []) d)
        end
    | LockTable =>
        match lock_table d with
        | Some _ => (Err (Error "table already exists"), d)
        | None => (Ok tt, set_lock_table (Some []) d)
        end
    end).

(** Modelled from the spec: [select("*")] on the lock table, with or
    without [forUpdate()]; the rows are their [is_locked] values. *)
Definition select_lock (h : handle) (forUpdate : bool) : Promise (list Z) :=
  issue h (SelectLock forUpdate) (fun d =>
    match lock_table d with
    | Some rows => (Ok rows, d)
    | None => no_such_table d
    end).

(** Modelled from the spec: [into(lockTable).insert({ is_locked })]. *)
Definition insert_lock (h : handle) (is_locked : Z) : Promise unit :=
  issue h (InsertLock is_locked) (fun d =>
    match lock_table d with
    | Some rows => (Ok tt, set_lock_table (Some (rows ++ [is_locked])) d)
    | None => no_such_table d
    end).

(** Modelled from the spec: [update({ is_locked })] on the lock table; it
    has no [where], so every row is written. *)
Definition update_lock (h : handle) (is_locked : Z) : Promise unit :=
  issue h (UpdateLock is_locked) (fun d =>
    match lock_table d with
    | Some rows => (Ok tt, set_lock_table (Some ((fun _ => is_locked) <$> rows)) d)
    | None => no_such_table d
    end).

(** Modelled from the spec: [from(tableName).orderBy("id").select("name")],
    the applied names in insertion order. *)
Definition select_names (h : handle) : Promise (list string) :=
  issue h SelectNames (fun d =>
    match migrations_table d with
    | Some rows => (Ok (rec_name <$> orderBy_id rows), d)
    | None => no_such_table d
    end).

(** Modelled from the spec: [knex(tableName).select("*")]. *)
Definition select_all (h : handle) : Promise (list MigrationRecord) :=
  issue h SelectAll (fun d =>
    match migrations_table d with
    | Some rows => (Ok rows, d)
    | None => no_such_table d
    end).

(** Modelled from the spec: the rows a "last batch" query returns,
    [where batch = (select max(batch) ...)] ordered by [id] descending. *)
Definition last_batch_rows (rows : list MigrationRecord) : list MigrationRecord :=
  orderBy_id_desc
    (filter (fun r => max_batch rows = Some (rec_batch r)) rows).

(** Modelled from the spec: the query built by [_getLastBatch]. *)
Definition select_last_batch (h : handle) : Promise (list MigrationRecord) :=
  issue h SelectLastBatch (fun d =>
    match migrations_table d with
    | Some rows => (Ok (last_batch_rows rows), d)
    | None => no_such_table d
    end).

(** Modelled from the spec: [max("batch as max_batch")], [NULL] on an
    empty table. *)
Definition select_max_batch (h : handle) : Promise (option Z) :=
  issue h SelectMaxBatch (fun d =>
    match migrations_table d with
    | Some rows => (Ok (max_batch rows), d)
    | None => no_such_table d
    end).

(** Modelled from the spec: [into(tableName).insert({ name, batch,
    migration_time })]; the row gets the next auto-increment [id]. *)
Definition insert_record (h : handle) (name : string) (batch time : Z)
  : Promise unit :=
  issue h (InsertRecord name batch time) (fun d =>
    match migrations_table d with
    | Some rows =>
        (Ok tt,
         mkDb (Some (rows ++ [mkRecord (next_id d) name batch time]))
              (lock_table d) (next_id d + 1) (user d))
    | None => no_such_table d
    end).

(** Modelled from the spec: [from(tableName).where({ name }).del()]. *)
Definition delete_record (h : handle) (name : string) : Promise unit :=
  issue h (DeleteRecord name) (fun d =>
    match migrations_table d with
    | Some rows =>
        (Ok tt, set_migrations_table (Some (filter (fun r => rec_name r ≠ name) rows)) d)
    | None => no_such_table d
    end).

(** Modelled from the spec: [knex.transaction(container)] (the [Transaction]
    class, [./transaction], is not among the sources). Following
    [withTransaction(fn)] of the spec for the case without an outer
    transaction: begin a transaction, invoke [fn(trx)], commit on success,
    roll back on a thrown error or rejected result. *)
Definition transaction {A} (fn : handle -> Promise A) : Promise A :=
  fun w =>
    let id := next_trx w in
    let w0 := emit (EvBegin id) (set_next_trx (S id) w) in
    match fn (Trx id) w0 with
    | (Ok a, w1) => (Ok a, emit (EvCommit id) w1)
    | (Err e, w1) => (Err e, emit (EvRollback id) (set_db (db w0) w1))
    end.

(** ** The migrator *)

Definition get_config : Promise Config := fun w => (Ok (config w), w).

(** [this.config = this.setConfig(config)] *)
Definition use_config (arg : option ConfigArg) : Promise unit :=
  fun w => (Ok tt, set_config (setConfig (Some (config w)) arg) w).

Definition _getLockTableName (c : Config) : string := tableName c +:+ "_lock".

(** [Object.keys(obj)]; the order of the keys does not survive the sort. *)
Definition Object_keys (obj : gmap string Migration) : list string :=
  (map_to_list obj).*1.

Definition listAll_of (c : Config) : list string :=
  js_sort
    (filter (fun value => includes (loadExtensions c) (extname value) = true)
            (Object_keys (migrationModules c))).

Definition _listAll (config : option ConfigArg) : Promise (list string) :=
  use_config config ;;;
  c <- get_config ;;
  resolve (listAll_of c).

Definition _createMigrationTable (trx : handle) : Promise unit :=
  createTable trx MigrationsTable.

Definition _createMigrationLockTable (trx : handle) : Promise unit :=
  createTable trx LockTable.

Definition _ensureTable (trx : option handle) : Promise unit :=
  let trx := default Knex trx in
  exists_ <- hasTable trx MigrationsTable ;;
  (if negb exists_ then _createMigrationTable trx else resolve tt) ;;;
  exists_ <- hasTable trx LockTable ;;
  (if negb exists_ then _createMigrationLockTable trx else resolve tt) ;;;
  data <- select_lock trx false ;;
  if bool_decide (data = []) then insert_lock trx 0 else resolve tt.

(** [data[0].is_locked] *)
Definition _isLocked (trx : handle) : Promise Z :=
  data <- select_lock trx true ;;
  match data with
  | is_locked :: _ => resolve is_locked
  | [] => reject (TypeError "Cannot read property 'is_locked' of undefined")
  end.

Definition _lockMigrations (trx : handle) : Promise unit :=
  update_lock trx 1.

(** [if (isLocked)] on a number *)
Definition truthy (n : Z) : bool := negb (n =? 0).

Definition _getLock (trx : option handle) : Promise unit :=
  let transact (fn : handle -> Promise unit) :=
    match trx with Some t => fn t | None => transaction fn end in
  catch_
    (transact (fun trx =>
       isLocked <- _isLocked trx ;;
       (if truthy isLocked
        then reject (Error "Migration table is already locked")
        else resolve tt) ;;;
       _lockMigrations trx))
    (fun err => reject (LockError (message err))).

Definition _freeLock (trx : option handle) : Promise unit :=
  update_lock (default Knex trx) 0.

Definition _validateMigrationStructure (name : string) : Promise string :=
  c <- get_config ;;
  match migrationModules c !! name with
  | None => reject (TypeError "Cannot read property 'up' of undefined")
  | Some migration =>
      if bool_decide (up migration = None) || bool_decide (down migration = None)
      then reject (Error ("Invalid migration: " +:+ name +:+
                          " must have both an up and down function"))
      else resolve name
  end.

(** [map(migrations, bind(this._validateMigrationStructure, this))] *)
Fixpoint validate_all (migrations : list string) : Promise (list string) :=
  match migrations with
  | [] => resolve []
  | name :: rest =>
      n <- _validateMigrationStructure name ;;
      ns <- validate_all rest ;;
      resolve (n :: ns)
  end.

Definition _listCompleted (trx : option handle) : Promise (list string) :=
  _ensureTable trx ;;;
  select_names (default Knex trx).

Definition _migrationData : Promise (list string * list string) :=
  all <- _listAll None ;;
  completed <- _listCompleted None ;;
  resolve (all, completed).

Definition _getLastBatch : Promise (list MigrationRecord) :=
  select_last_batch Knex.

(** [obj[0].max_batch || 0] *)
Definition _latestBatchNumber (trx : option handle) : Promise Z :=
  obj <- select_max_batch (default Knex trx) ;;
  resolve (match obj with
           | Some max_batch => if max_batch =? 0 then 0 else max_batch
           | None => 0
           end).

Definition _useTransaction (migration : option Migration)
    (allTransactionsDisabled : option bool) : bool :=
  match migration ≫= config_transaction with
  | Some singleTransactionValue => singleTransactionValue
  | None => negb (default false allTransactionsDisabled)
  end.

(** [migration[direction](h, Promise)] *)
Definition invoke (migration : option Migration) (d : direction)
    (name : string) (h : handle) : Promise returned :=
  match migration ≫= (fun m => get_operation m d) with
  | None => reject (TypeError "migration[direction] is not a function")
  | Some op =>
      fun w =>
        let '(value, u) := op h (user (db w)) in
        let w1 := set_db (set_user u (db w)) (emit (EvOp name d h) w) in
        match value with
        | Throws msg => (Err (Error msg), w1)
        | _ => (Ok value, w1)
        end
  end.

Definition warnPromise (value : returned) (name : string)
    (fn : option (Promise unit)) : Promise returned :=
  match value with
  | NotThenable =>
      warn ("migration " +:+ name +:+ " did not return a promise") ;;;
      default (resolve tt) fn ;;;
      resolve value
  | _ => resolve value
  end.

(** Waiting for what a [then] callback returned. *)
Definition await (value : returned) : Promise unit :=
  match value with
  | Rejects msg => reject (Error msg)
  | _ => resolve tt
  end.

(** The callback [() => { trx.commit(); }] ends the transaction by hand when
    the container returned no promise; [transaction] commits on that path. *)
Definition _transaction (migration : option Migration) (d : direction)
    (name : string) : Promise unit :=
  transaction (fun trx =>
    value <- invoke migration d name trx ;;
    value <- warnPromise value name (Some (resolve tt)) ;;
    await value).

(** One turn of the [each] loop of [_waterfallBatch]: the two [then]
    callbacks chained for migration [name]. *)
Definition waterfall_step (c : Config) (batchNo : Z) (d : direction)
    (trx : option handle) (name : string) : Promise unit :=
  let trxOrKnex := default Knex trx in
  let migration := migrationModules c !! name in
  (if bool_decide (trx = None)
      && _useTransaction migration (Some (disableTransactions c))
   then _transaction migration d name
   else
     value <- invoke migration d name trxOrKnex ;;
     value <- warnPromise value name None ;;
     await value) ;;;
  match d with
  | Up =>
      migration_time <- Date_now ;;
      insert_record trxOrKnex name batchNo migration_time
  | Down => delete_record trxOrKnex name
  end.

Fixpoint waterfall_chain (c : Config) (batchNo : Z) (d : direction)
    (trx : option handle) (migrations log : list string)
  : Promise (list string) :=
  match migrations with
  | [] => resolve log
  | name :: rest =>
      waterfall_step c batchNo d trx name ;;;
      waterfall_chain c batchNo d trx rest (log ++ [name])
  end.

(** The [each] callback stores every name in [_activeMigration.fileName]
    while the chain is being built, before any migration runs. *)
Definition mark_active (migrations : list string) : Promise unit :=
  fun w =>
    (Ok tt,
     match last migrations with
     | Some name => set_activeFileName (Some name) w
     | None => w
     end).

Definition _waterfallBatch (batchNo : Z) (migrations : list string)
    (d : direction) (trx : option handle) : Promise (Z * list string) :=
  c <- get_config ;;
  mark_active migrations ;;;
  log <- waterfall_chain c batchNo d trx migrations [] ;;
  resolve (batchNo, log).

(** [_runBatch] up to and including [.tap(() => this._freeLock(trx))] *)
Definition runBatch_chain (migrations : list string) (d : direction)
    (trx : option handle) : Promise (Z * list string) :=
  _getLock trx ;;;
  completed <- (match trx with
                | Some _ => _listCompleted trx
                | None => resolve []
                end) ;;
  let migrations := difference migrations completed in
  validate_all migrations ;;;
  batchNo <- _latestBatchNumber trx ;;
  let batchNo := match d with Up => batchNo + 1 | Down => batchNo end in
  tap (_waterfallBatch batchNo migrations d trx) (fun _ => _freeLock trx).

(** The [.catch] handler of [_runBatch] *)
Definition runBatch_cleanup (trx : option handle) (error : error)
  : Promise (Z * list string) :=
  c <- get_config ;;
  let cleanupReady :=
    if instanceof_LockError error then
      warn ("Can't take lock to run migrations: " +:+ message error) ;;;
      warn ("If you are sure migrations are not running you can release the " +:+
            "lock manually by deleting all the rows from migrations lock " +:+
            "table: " +:+ _getLockTableName c)
    else
      (fun w =>
         match activeFileName w with
         | Some fileName =>
             if bool_decide (fileName = "") then resolve tt w
             else warn ("migration file " +:+ dquote +:+ fileName +:+ dquote
                        +:+ " failed") w
         | None => resolve tt w
         end) ;;;
      warn ("migration failed with error: " +:+ message error) ;;;
      _freeLock trx in
  (* [.finally(function () { throw error; })]; the handler always throws,
     so the continuation below is there for the type only *)
  then_ (finally_ cleanupReady (reject (A:=unit) error))
        (fun _ => reject error).

Definition _runBatch (migrations : list string) (d : direction)
    (trx : option handle) : Promise (Z * list string) :=
  catch_ (runBatch_chain migrations d trx) (runBatch_cleanup trx).

Definition validateMigrationList (migrations : list string * list string)
  : Promise unit :=
  let all := migrations.1 in
  let completed := migrations.2 in
  let diff := difference completed all in
  if bool_decide (diff = []) then resolve tt
  else reject (Error ("The migration directory is corrupt, the following " +:+
                      "files are missing: " +:+ join ", " diff)).

Definition latest (config : option ConfigArg) : Promise (Z * list string) :=
  use_config config ;;;
  data <- tap _migrationData validateMigrationList ;;
  let '(all, completed) := data in
  let migrations := difference all completed in
  c <- get_config ;;
  let transactionForAll :=
    negb (disableTransactions c)
    && bool_decide
         (filter (fun name =>
                    _useTransaction (migrationModules c !! name) None = false)
                 migrations = []) in
  if transactionForAll
  then transaction (fun trx => _runBatch migrations Up (Some trx))
  else _runBatch migrations Up None.

Definition rollback (config : option ConfigArg) : Promise (Z * list string) :=
  use_config config ;;;
  tap _migrationData validateMigrationList ;;;
  migrations <- _getLastBatch ;;
  _runBatch (rec_name <$> migrations) Down None.

(** [_listAll()] runs while the array given to [Promise.all] is built; the
    [select("*")] builder only executes once [Promise.all] awaits it. *)
Definition status (config : option ConfigArg) : Promise Z :=
  use_config config ;;;
  code <- _listAll None ;;
  db_rows <- select_all Knex ;;
  resolve (Z.of_nat (length db_rows) - Z.of_nat (length code)).

Definition currentVersion (config : option ConfigArg) : Promise string :=
  use_config config ;;;
  completed <- _listCompleted None ;;
  let val := lodash_max (split_underscore_0 <$> completed) in
  resolve (default "none" val).

Definition forceFreeMigrationsLock (config : option ConfigArg) : Promise unit :=
  use_config config ;;;
  exist <- hasTable Knex LockTable ;;
  if exist then _freeLock None else resolve tt.

(** [make(name, config)]. The three steps it chains, [_ensureFolder],
    [_generateStubTemplate] and [_writeNewMigration], are commented out in
    this module, so once the name is there the call [this._ensureFolder]
    throws; [!name] holds for an absent and for an empty name. *)
Definition make (name : option string) (config : option ConfigArg)
  : Promise string :=
  use_config config ;;;
  if bool_decide (default "" name = "")
  then reject (Error "A name must be specified for the generated migration")
  else reject (TypeError "this._ensureFolder is not a function").

(** ** Date stamps *)

(** What the getters of a [Date] return, in local time; [getMonth] counts
    from 0. *)
Record LocalTime : Type := mkLocalTime {
  getFullYear : Z;
  getMonth : Z;
  getDate : Z;
  getHours : Z;
  getMinutes : Z;
  getSeconds : Z
}.

(** [n.toString()] on an integer (below the range where the engine turns
    to the exponent notation). *)
Definition toString (n : Z) : string := pretty n.

(** [segment[1] ? segment : "0" + segment] *)
Definition padDate (segment : Z) : string :=
  let segment := toString segment in
  match segment with
  | String _ (String _ _) => segment
  | _ => "0" +:+ segment
  end.

Definition yyyymmddhhmmss (d : LocalTime) : string :=
  toString (getFullYear d) +:+
  padDate (getMonth d + 1) +:+
  padDate (getDate d) +:+
  padDate (getHours d) +:+
  padDate (getMinutes d) +:+
  padDate (getSeconds d).

(** A time of the calendar whose year has four digits. *)
Definition calendar (d : LocalTime) : Prop :=
  1000 <= getFullYear d <= 9999
  /\ 0 <= getMonth d <= 11
  /\ 1 <= getDate d <= 31
  /\ 0 <= getHours d <= 23
  /\ 0 <= getMinutes d <= 59
  /\ 0 <= getSeconds d <= 59.

(** The first comparison that is no equality decides. *)
Definition lex (c rest : comparison) : comparison :=
  match c with Eq => rest | _ => c end.

(** Which of two times comes first: the years compared, then the months,
    and so on down to the seconds. *)
Definition time_compare (d1 d2 : LocalTime) : comparison :=
  lex (getFullYear d1 ?= getFullYear d2)
    (lex (getMonth d1 ?= getMonth d2)
       (lex (getDate d1 ?= getDate d2)
          (lex (getHours d1 ?= getHours d2)
             (lex (getMinutes d1 ?= getMinutes d2)
                (getSeconds d1 ?= getSeconds d2))))).

End Migrator.

Arguments World : clear implicits.
Arguments Config : clear implicits.
Arguments Migration : clear implicits.
Arguments Db : clear implicits.
Arguments Promise : clear implicits.

End Migrator.

(** * The client: statement execution ([Client.query]) *)

Module Client.

Section Client.

(** [V]: the values bound to a statement; [R]: what the driver answers. *)
Context {V R : Type}.

(** Errors are objects: the driver rejects with a reference, and the message
    of the referenced object is what [query] rewrites. *)
Definition ref : Type := nat.

Record Connection : Type := mkConnection {
  __knexUid : string;
  __knexTxId : option string
}.

Record QueryObj : Type := mkQuery {
  sql : option string;
  bindings : option (list V)
}.

Inductive emitted : Type :=
| Query (uid : string) (txid : option string) (obj : QueryObj)
| QueryError (err : ref) (uid : string) (txid : option string) (obj : QueryObj).

Record State : Type := mkState {
  heap : gmap ref string;        (* the [message] of every error object *)
  events : list emitted          (* what [this.emit] has sent, oldest first *)
}.

(** The methods [query] calls on [this]; a dialect overrides some of them.
    [_escapeBinding] comes from [makeEscape] ([./query/string]). *)
Record Dialect : Type := mkDialect {
  positionBindings : option string -> option string;
  prepBindings : option (list V) -> option (list V);
  _escapeBinding : V -> string;
  _query : Connection -> QueryObj -> gmap ref string -> (R + ref) * gmap ref string
}.

(** [sql.replace(/\\?\?/g, ...)]: an escaped mark gives a plain [?], a
    mark takes the next binding, or stays when none is left. *)
Fixpoint replace_marks (escape : V -> string) (cs : list ascii)
    (bindings : list V) : list ascii :=
  match cs with
  | [] => []
  | c :: tl =>
      if Ascii.eqb c "?"%char then
        match bindings with
        | [] => c :: replace_marks escape tl bindings
        | value :: rest =>
            list_ascii_of_string (escape value) ++ replace_marks escape tl rest
        end
      else
        match tl with
        | c2 :: tl2 =>
            if Ascii.eqb c "\"%char && Ascii.eqb c2 "?"%char
            then "?"%char :: replace_marks escape tl2 bindings
            else c :: replace_marks escape tl bindings
        | [] => [c]
        end
  end.

Definition _formatQuery (d : Dialect) (sql : option string)
    (bindings : option (list V)) : option string :=
  let bindings := default [] bindings in
  (fun s => string_of_list_ascii
              (replace_marks (_escapeBinding d) (list_ascii_of_string s) bindings))
    <$> sql.

(** String concatenation with a value that may be [undefined]. *)
Definition js_string (s : option string) : string := default "undefined" s.

(** The statement as [query] sends it: [{ sql: obj }] for a string, then
    [positionBindings] and [prepBindings] applied. *)
Definition prepare (d : Dialect) (obj : string + QueryObj) : QueryObj :=
  let obj := match obj with
             | inl s => mkQuery (Some s) None
             | inr o => o
             end in
  mkQuery (positionBindings d (sql obj)) (prepBindings d (bindings obj)).

Definition query (d : Dialect) (connection : Connection) (obj : string + QueryObj)
  : State -> (R + ref) * State :=
  fun st =>
    let obj := prepare d obj in
    let uid := __knexUid connection in
    let txid := __knexTxId connection in
    let st1 := mkState (heap st) (events st ++ [Query uid txid obj]) in
    match _query d connection obj (heap st1) with
    | (inl response, h) => (inl response, mkState h (events st1))
    | (inr err, h) =>
        let msg := js_string (_formatQuery d (sql obj) (bindings obj)) +:+ " - "
                   +:+ js_string (h !! err) in
        (inr err,
         mkState (<[err := msg]> h) (events st1 ++ [QueryError err uid txid obj]))
    end.

(** ** Quoting values and identifiers *)

(** [s.replace(/c/g, by)] for a pattern that is the one character [c]. *)
Fixpoint replace_char (c : ascii) (by_ : string) (s : string) : string :=
  match s with
  | EmptyString => ""
  | String x rest =>
      if Ascii.eqb x c then by_ +:+ replace_char c by_ rest
      else String x (replace_char c by_ rest)
  end.

(** The [escapeString] that [Client] gives to [makeEscape]: the string
    between single quotes, every single quote in it doubled; the template
    prints an absent string as [undefined]. *)
Definition escapeString (str : option string) : string :=
  "'" +:+ js_string (replace_char "'" "''" <$> str) +:+ "'".

Definition dquote_char : ascii := ascii_of_nat 34.

(** [wrapIdentifierImpl] of the base client: ["*"] as it is, anything else
    between double quotes, every double quote in it doubled. *)
Definition wrapIdentifierImpl (value : option string) : string :=
  if bool_decide (value = Some "*") then "*"
  else dquote +:+ js_string (replace_char dquote_char (dquote +:+ dquote) <$> value)
       +:+ dquote.

(** Reading a quoted token back, its opening quote passed: a doubled [q]
    stands for one [q], a single [q] ends the token. The result is the
    content of the token and what follows it. *)
Fixpoint read_quoted (q : ascii) (s : string) : option (string * string) :=
  match s with
  | EmptyString => None
  | String c rest =>
      if Ascii.eqb c q then
        match rest with
        | String c2 rest2 =>
            if Ascii.eqb c2 q
            then (fun ab : string * string => (String q ab.1, ab.2)) <$> read_quoted q rest2
            else Some ("", rest)
        | EmptyString => Some ("", "")
        end
      else (fun ab : string * string => (String c ab.1, ab.2)) <$> read_quoted q rest
  end.

(** A token that opens with [o] and closes with [q]. *)
Definition read_token (o q : ascii) (s : string) : option (string * string) :=
  match s with
  | String c rest => if Ascii.eqb c o then read_quoted q rest else None
  | EmptyString => None
  end.

(** ** The shape of a statement with marks *)

(** A statement cut into text without marks, marks [?] and escaped marks
    [\?]. *)
Inductive piece : Type :=
| Text (s : string)
| Mark
| EscapedMark.

Definition piece_sql (p : piece) : string :=
  match p with
  | Text s => s
  | Mark => "?"
  | EscapedMark => "\?"
  end.

Definition sql_of (ps : list piece) : string :=
  foldr (fun p acc => piece_sql p +:+ acc) "" ps.

(** Text in which there is neither a mark nor a backslash. *)
Definition plain (s : string) : Prop :=
  Forall (fun c => c <> "?"%char /\ c <> "\"%char) (list_ascii_of_string s).

Definition plain_pieces (ps : list piece) : Prop :=
  Forall (fun p => match p with Text s => plain s | _ => True end) ps.

(** The statement with its bindings put in place: each mark takes the next
    binding while there is one. *)
Fixpoint rendered (escape : V -> string) (ps : list piece) (bindings : list V)
  : string :=
  match ps with
  | [] => ""
  | Text s :: rest => s +:+ rendered escape rest bindings
  | EscapedMark :: rest => "?" +:+ rendered escape rest bindings
  | Mark :: rest =>
      match bindings with
      | [] => "?" +:+ rendered escape rest []
      | value :: others => escape value +:+ rendered escape rest others
      end
  end.

End Client.

End Client.

(** * The MSSQL client ([src/dialects/mssql/index.js]) *)

Module MSSQL.

Section MSSQL.

(** [V]: the bindings that are no numbers; [Resp]: what the driver answers. *)
Context {V Resp : Type}.

(** [wrapIdentifierImpl]: the pattern [/\[/g] is replaced by ["["], an
    opening bracket by itself. *)
Definition wrapIdentifierImpl (value : option string) : string :=
  if bool_decide (value = Some "*") then "*"
  else "[" +:+ Client.js_string (Client.replace_char "[" "[" <$> value) +:+ "]".

(** [sql.replace(/\?/g, ...)]: every mark becomes [@p] and the count of the
    marks before it; [questionCount] starts at -1 and is incremented before
    it is used. *)
Fixpoint position (cs : list ascii) (questionCount : Z) : list ascii :=
  match cs with
  | [] => []
  | c :: tl =>
      if Ascii.eqb c "?"%char then
        let questionCount := questionCount + 1 in
        list_ascii_of_string ("@p" +:+ pretty questionCount) ++ position tl questionCount
      else c :: position tl questionCount
  end.

Definition positionBindings (sql : option string) : option string :=
  (fun s => string_of_list_ascii (position (list_ascii_of_string s) (-1))) <$> sql.

(** A binding: a number, which is an integer or not ([binding % 1 !== 0]
    holds of fractions, of [NaN] and of the infinities), or anything else. *)
Inductive number : Type :=
| Integer (n : Z)
| NonInteger.

Inductive binding : Type :=
| Number (n : number)
| Other (v : V).

Inductive sql_type : Type :=
| Decimal (precision scale : Z)
| BigInt
| Int.

(** A parameter of a request, as [req.input(name, type, value)] or
    [req.input(name, value)] registers it. *)
Record input : Type := mkInput {
  input_name : string;
  input_type : option sql_type;
  input_value : binding
}.

Definition SQL_INT4_MIN : Z := -2147483648.
Definition SQL_INT4_MAX : Z := 2147483647.
Definition SQL_BIGINT_SAFE_MIN : Z := -9007199254740991.
Definition SQL_BIGINT_SAFE_MAX : Z := 9007199254740991.

(** [Number.isSafeInteger] on an integer. *)
Definition safe_integer (n : Z) : Prop := - (2 ^ 53 - 1) <= n <= 2 ^ 53 - 1.

(** How the engine prints the number in the message of the error. *)
Variable Number_toString : Z -> string.

(** [_setReqInput(req, i, binding)]; [req] is the list of the parameters
    registered so far. *)
Definition _setReqInput (req : list input) (i : Z) (b : binding)
  : result (list input) :=
  let name := "p" +:+ pretty i in
  match b with
  | Number NonInteger => Ok (req ++ [mkInput name (Some (Decimal 38 10)) b])
  | Number (Integer n) =>
      if (n <? SQL_INT4_MIN) || (n >? SQL_INT4_MAX) then
        if (n <? SQL_BIGINT_SAFE_MIN) || (n >? SQL_BIGINT_SAFE_MAX) then
          Err (Error ("Bigint must be safe integer or must be passed as string, saw "
                      +:+ Number_toString n))
        else Ok (req ++ [mkInput name (Some BigInt) b])
      else Ok (req ++ [mkInput name (Some Int) b])
  | Other _ => Ok (req ++ [mkInput name None b])
  end.

(** [for (let i = 0; i < obj.bindings.length; i++)
      client._setReqInput(req, i, obj.bindings[i])], from index [i] on. *)
Fixpoint bind_from (req : list input) (i : Z) (bindings : list binding)
  : result (list input) :=
  match bindings with
  | [] => Ok req
  | b :: rest =>
      match _setReqInput req i b with
      | Ok req' => bind_from req' (i + 1) rest
      | Err e => Err e
      end
  end.

(** [req.query(sql, callback)] on a request with these parameters: the
    driver answers with a record set or rejects with an error object. *)
Variable request_query :
  string -> list input -> gmap Client.ref string
  -> (Resp + Client.ref) * gmap Client.ref string.

(** [_query(connection, obj)]: without a statement the promise resolves at
    once, with nothing; an error thrown while the parameters are set is a
    new error object the promise is rejected with. *)
Definition _query (connection : Client.Connection)
    (obj : Client.QueryObj (V:=binding)) (heap : gmap Client.ref string)
  : (option Resp + Client.ref) * gmap Client.ref string :=
  match Client.sql obj with
  | None => (inl None, heap)
  | Some sql =>
      if bool_decide (sql = "") then (inl None, heap)
      else
        match bind_from [] 0 (default [] (Client.bindings obj)) with
        | Err e =>
            let err := fresh (dom heap) in
            (inr err, <[err := message e]> heap)
        | Ok req =>
            match request_query sql req heap with
            | (inl recordset, heap') => (inl (Some recordset), heap')
            | (inr err, heap') => (inr err, heap')
            end
        end
  end.

(** The client as [Client.query] sees it: [positionBindings] and [_query]
    are those of this dialect, [prepBindings] that of the base client. *)
Definition dialect (escape : binding -> string)
  : Client.Dialect (V:=binding) (R:=option Resp) :=
  Client.mkDialect positionBindings (fun bindings => bindings) escape _query.

(** [columnizeWithPrefix(prefix, target)] of the formatter; [wrap] is
    [Formatter.wrap], and the state of the loop is [str] and [i]. *)
Fixpoint columnize_loop (wrap : string -> string) (prefix : string)
    (columns : list string) (i : Z) (str : string) : string :=
  match columns with
  | [] => str
  | column :: rest =>
      let str := if 0 <? i then str +:+ ", " else str in
      columnize_loop wrap prefix rest (i + 1) (str +:+ prefix +:+ wrap column)
  end.

Definition columnizeWithPrefix (wrap : string -> string) (prefix : string)
    (target : string + list string) : string :=
  let columns := match target with inl s => [s] | inr l => l end in
  columnize_loop wrap prefix columns 0 "".

(** The text between the marks, with [names] put where the marks were. *)
Fixpoint weave (segments names : list string) : string :=
  match segments with
  | [] => ""
  | [s] => s
  | s :: rest =>
      match names with
      | [] => s +:+ weave rest []
      | n :: others => s +:+ n +:+ weave rest others
      end
  end.

End MSSQL.

End MSSQL.

(** * The SQLite3 client *)

Module SQLite3.

Section SQLite3.

(** [Row]: a row of a result; [Cell]: what [pluck] takes from a row;
    [Resp]: what the driver gives to the callback; [Runner]: the runner
    that [processResponse] is given; [Out]: what an [output] function
    returns. *)
Context {Row Cell Resp Runner Out : Type}.

Definition backquote : ascii := ascii_of_nat 96.

(** [wrapIdentifierImpl]: between backquotes, every backquote doubled. *)
Definition wrapIdentifierImpl (value : option string) : string :=
  if bool_decide (value = Some "*") then "*"
  else String backquote
         (Client.js_string
            (Client.replace_char backquote (String backquote (String backquote ""))
               <$> value)
          +:+ String backquote "").

(** The method of the connection that [_query] calls for a statement. *)
Definition callMethod (method : option string) : string :=
  match method with
  | Some m =>
      if bool_decide (m ∈ ["insert"; "update"; "counter"; "del"]) then "run"
      else "all"
  | None => "all"
  end.

(** [this] in the callback of the driver. *)
Record Ctx : Type := mkCtx { lastID : Z; changes : Z }.

(** The statement object once [_query] has resolved. [output] is the
    function [obj.output], when there is one: it is called with the runner
    as [this] and the response as its argument. *)
Record ResponseObj : Type := mkResponseObj {
  method : option string;
  response : Resp;
  context : Ctx;
  pluck : Row -> Cell;
  output : option (Runner -> Resp -> Out)
}.

(** What [processResponse] returns. *)
Inductive processed : Type :=
| Output (value : Out)
| Rows (rows : list Row)
| Plucked (cells : list Cell)
| First (row : option Row)
| LastID (ids : list Z)
| Changes (n : Z)
| Raw (response : Resp).

(** [processResponse(obj, runner)]; [skim] is [helpers.skim]. *)
Definition processResponse (skim : Resp -> list Row) (obj : ResponseObj)
    (runner : Runner) : processed :=
  match output obj with
  | Some output => Output (output runner (response obj))
  | None =>
      let m := default "" (method obj) in
      if bool_decide (m ∈ ["select"; "pluck"; "first"]) then
        let response := skim (response obj) in
        if bool_decide (m = "pluck") then Plucked (pluck obj <$> response)
        else if bool_decide (m = "first") then First (head response)
        else Rows response
      else if bool_decide (m = "insert") then LastID [lastID (context obj)]
      else if bool_decide (m ∈ ["del"; "update"; "counter"]) then
        Changes (changes (context obj))
      else Raw (response obj)
  end.

End SQLite3.

End SQLite3.

(** * The query compiler of the Oracledb client *)

Module Oracledb.

Section Oracledb.

(** [V]: the values bound so far; [Buf]: the content of a buffer. *)
Context {V Buf : Type}.

(** An entry of an out-binding: the name of a column, or a [BlobHelper]. *)
Inductive ret : Type :=
| Column (name : string)
| Blob (columnName : string) (value : Buf).

(** The argument [outBinding]: nothing, one entry, or an array of them. *)
Inductive out_binding : Type :=
| Undefined
| Single (r : ret)
| Array (l : list ret).

(** What [formatter.bindings] holds. *)
Inductive binding : Type :=
| Value (v : V)
| ReturningHelper (columnName : string)
| BlobHelper (columnName : string) (value : Buf).

(** The result [res]: [outBinding], [returningSql] and [returning] are set
    on some paths only; [returningSql] is the statement that the function
    stored there returns. *)
Record compiled : Type := mkCompiled {
  sql : string;
  outBinding : option (list out_binding);
  returningSql : option string;
  returning : option (list string)
}.

(** [s.slice(0, -1)] *)
Fixpoint slice_last (s : string) : string :=
  match s with
  | EmptyString => ""
  | String _ EmptyString => ""
  | String c rest => String c (slice_last rest)
  end.

(** How the engine prints a [BlobHelper] in a concatenation. *)
Variable BlobHelper_toString : string -> Buf -> string.

(** [ret.columnName || ret], as the concatenation prints it: a string has
    no [columnName], and an empty [columnName] is falsy. *)
Definition columnName_of (r : ret) : string :=
  match r with
  | Column name => name
  | Blob columnName value =>
      if bool_decide (columnName = "") then BlobHelper_toString columnName value
      else columnName
  end.

(** One turn of [_.each(returningValues, ...)]: the state is the two
    clauses and the bindings of the formatter. *)
Definition each_ret (st : string * string * list binding) (r : ret)
  : string * string * list binding :=
  let '(returningClause, intoClause, bindings) := st in
  let columnName := columnName_of r in
  let returningClause := returningClause +:+ dquote +:+ columnName +:+ dquote +:+ "," in
  let intoClause := intoClause +:+ "?," in
  match r with
  | Blob name value => (returningClause, intoClause, bindings ++ [BlobHelper name value])
  | Column _ => (returningClause, intoClause, bindings ++ [ReturningHelper columnName])
  end.

(** [!outBinding] *)
Definition falsy (o : out_binding) : bool :=
  match o with
  | Undefined => true
  | Single (Column name) => bool_decide (name = "")
  | _ => false
  end.

(** [_addReturningToSqlAndConvert(sql, outBinding, tableName, returning)];
    [self_tableName] is [self.tableName], [bindings] is
    [self.formatter.bindings], returned as the function leaves it. *)
Definition _addReturningToSqlAndConvert (self_tableName : string)
    (sql_ : string) (o : out_binding) (tableName : string)
    (returning_ : list string) (bindings : list binding)
  : compiled * list binding :=
  if falsy o then (mkCompiled sql_ None None None, bindings)
  else
    let returningValues := match o with
                           | Array l => l
                           | Single r => [r]
                           | Undefined => []
                           end in
    let '(returningClause, intoClause, bindings) :=
      foldl each_ret ("", "", bindings) returningValues in
    let returningClause := slice_last returningClause in
    let intoClause := slice_last intoClause in
    let res_sql :=
      if negb (bool_decide (returningClause = "")) && negb (bool_decide (intoClause = ""))
      then sql_ +:+ " returning " +:+ returningClause +:+ " into " +:+ intoClause
      else sql_ in
    let res_returningSql :=
      if bool_decide (head returning_ = Some "*")
      then Some ("select * from " +:+ self_tableName +:+ " where ROWID = :1")
      else None in
    (mkCompiled res_sql (Some [o]) res_returningSql (Some returning_), bindings).

(** The helper that stands for an entry in the bindings. *)
Definition helper_of (r : ret) : binding :=
  match r with
  | Column name => ReturningHelper name
  | Blob name value => BlobHelper name value
  end.

End Oracledb.

End Oracledb.
Arguments orderBy_id : simpl never.
Arguments orderBy_id_desc : simpl never.
Arguments js_sort : simpl never.
Arguments Migrator.listAll_of : simpl never.

(** * Sample worlds

    Concrete migrations, configurations and worlds on which the functions
    above are run; the user's schema is a counter of the operations that
    took effect. *)

Module Sample.

Import Migrator.

Definition op_ok : operation (U:=nat) := fun _ u => (Resolves, S u).
Definition op_boom : operation (U:=nat) := fun _ u => (Rejects "boom", u).

(** A migration with both operations; [t] is its [config.transaction]. *)
Definition migration (t : option bool) : Migration nat :=
  mkMigration (Some op_ok) (Some op_ok) t.

Definition failing_migration : Migration nat :=
  mkMigration (Some op_boom) (Some op_ok) None.

(** The configuration the constructor builds when the client's config sets
    [migrationModules] and nothing else. *)
Definition modules_only (mm : gmap string (Migration nat)) : option ConfigArg :=
  Some (mkConfigArg None None None None None (Some mm)).

Definition config_with (mm : gmap string (Migration nat)) : Config nat :=
  setConfig None (modules_only mm).

Definition no_fault : nat -> option string := fun _ => None.

(** The driver fails the [k]-th statement, counting from 0. *)
Definition fault_on (k : nat) (msg : string) : nat -> option string :=
  fun i => if Nat.eqb i k then Some msg else None.

Definition world (c : Config nat) (records : option (list MigrationRecord))
    (lock : option (list Z)) (faults : nat -> option string) : World nat :=
  mkWorld c None (mkDb records lock 1 0%nat) 1000 faults 0 0 [].

Definition two_modules : gmap string (Migration nat) :=
  <["a.js" := migration None]> (<["b.js" := migration (Some true)]> ∅).

Definition two_migrations : Config nat := config_with two_modules.

Definition one_migration : Config nat :=
  config_with (<["a.js" := migration None]> ∅).


Definition a_applied : list MigrationRecord := [mkRecord 1 "a.js" 1 900].
Definition b_applied : list MigrationRecord := [mkRecord 1 "b.js" 1 900].

(** A fresh database: no table yet. *)
Definition fresh : World nat := world two_migrations None None no_fault.

(** The lock is held by someone else. *)
Definition locked : World nat := world one_migration (Some []) (Some [1]) no_fault.

(** The lock is free, and the driver fails the second statement. *)
Definition free_then_fault : World nat :=
  world one_migration (Some []) (Some [0]) (fault_on 1 "connection lost").

(** ["a.js"] is applied already; the lock is free. *)
Definition a_done : World nat := world one_migration (Some a_applied) (Some [0]) no_fault.

(** A record of ["b.js"], which is not defined; the lock row is there. *)
Definition orphan : World nat := world one_migration (Some b_applied) (Some [0]) no_fault.

(** The same, after the rows of the lock table were deleted by hand. *)
Definition orphan_no_lock_row : World nat :=
  world one_migration (Some b_applied) (Some []) no_fault.

(** One defined migration, none applied. *)
Definition pending_one : World nat := world one_migration (Some []) (Some [0]) no_fault.


(** ["a.js"] is applied, ["b.js"] is pending. *)
Definition a_done_two : World nat :=
  world two_migrations (Some a_applied) (Some [0]) no_fault.

(** Both migrations pending, the tables in place. *)
Definition pending_two : World nat :=
  world two_migrations (Some []) (Some [0]) no_fault.

Definition version_applied : World nat :=
  world one_migration (Some [mkRecord 1 "20240101_init" 1 900]) (Some [0]) no_fault.

(** A dialect whose driver rejects every statement with the error object
    at reference 0, message ["boom"]. *)
Definition failing_dialect : Client.Dialect (V:=string) (R:=unit) :=
  Client.mkDialect (fun sql => sql) (fun bindings => bindings)
    (fun value => "'" +:+ value +:+ "'")
    (fun _ _ h => (inr 0%nat, <[0%nat := "boom"]> h)).

Definition connection : Client.Connection :=
  Client.mkConnection "__knexUid1" None.

Definition select_by_id : Client.QueryObj (V:=string) :=
  Client.mkQuery (Some "select * from t where id = ?") (Some ["7"]).

Definition empty_state : Client.State (V:=string) := Client.mkState ∅ [].

(** A migration with no [down]. *)
Definition half_migration : Migration nat :=
  mkMigration (Some op_ok) None None.

Definition one_half : Config nat :=
  config_with (<["h.js" := half_migration]> ∅).

Definition pending_half : World nat := world one_half (Some []) (Some [0]) no_fault.

(** An operation that changes the schema and returns no promise. *)
Definition op_sync : operation (U:=nat) := fun _ u => (NotThenable, S u).

Definition sync_migration : Migration nat :=
  mkMigration (Some op_sync) (Some op_sync) None.

Definition one_sync : Config nat :=
  config_with (<["s.js" := sync_migration]> ∅).

Definition pending_sync : World nat := world one_sync (Some []) (Some [0]) no_fault.

(** ["a.js"] runs, ["f.js"] fails. *)
Definition ok_and_failing : Config nat :=
  config_with (<["a.js" := migration None]> (<["f.js" := failing_migration]> ∅)).

Definition pending_ok_failing : World nat :=
  world ok_and_failing (Some []) (Some [0]) no_fault.

(** A call that turns the transactions on. *)
Definition transactions_on : option (ConfigArg (U:=nat)) :=
  Some (mkConfigArg None None None None (Some false) None).

(** An MSSQL client whose driver would answer every request. *)
Definition mssql_dialect
  : Client.Dialect (V:=MSSQL.binding (V:=string)) (R:=option unit) :=
  MSSQL.dialect pretty (fun _ _ h => (inl tt, h)) (fun _ => "value").

(** The second binding is [2^53], the first integer that is not safe. *)
Definition unsafe_insert : Client.QueryObj (V:=MSSQL.binding (V:=string)) :=
  Client.mkQuery (Some "insert into t values (?, ?)")
    (Some [MSSQL.Number (MSSQL.Integer 1);
           MSSQL.Number (MSSQL.Integer 9007199254740992)]).

Definition mssql_state : Client.State (V:=MSSQL.binding (V:=string)) :=
  Client.mkState ∅ [].

(** The last second of 2023 and the first of 2024. *)
Definition old_year : LocalTime := mkLocalTime 2023 11 31 23 59 59.
Definition new_year : LocalTime := mkLocalTime 2024 0 1 0 0 0.

(** A statement of SQLite3 sent with [run], with no [output] function. *)
Definition sqlite3_insert (response : nat)
  : SQLite3.ResponseObj (Row:=nat) (Cell:=nat) (Resp:=nat) (Runner:=unit) (Out:=nat) :=
  SQLite3.mkResponseObj (Some "insert") response (SQLite3.mkCtx 7 1)
    (fun row => row) None.

End Sample.

Import Migrator.

(** * Facts on the migrator *)

Section MigratorFacts.

Context {U : Type}.
Variable extname : string -> string.

Implicit Types (w : World U) (trx : option handle) (h : handle).

(** ** Vocabulary of the statements *)

Definition no_faults (w : World U) : Prop := forall k, fault_at w k = None.

(** The events issued between two worlds of one run. *)
Definition new_events (w w' : World U) : list event :=
  drop (length (trace w)) (trace w').

(** [wp p w Q]: the outcome of running [p] from [w] satisfies [Q]. *)
Definition wp {A} (p : Promise U A) (w : World U)
    (Q : result A -> World U -> Prop) : Prop :=
  Q (p w).1 (p w).2.

Global Arguments wp : simpl never.

(** [extends P w w']: the configuration and the fault oracle are those of
    [w], and the trace grew by events that all satisfy [P]. *)
Definition extends (P : event -> Prop) (w w' : World U) : Prop :=
  config w' = config w /\ fault_at w' = fault_at w
  /\ exists evs, trace w' = trace w ++ evs /\ Forall P evs.

(** What [_ensureTable] and the read of the names may issue: look-ups and
    the lazy creation of what is missing. *)
Definition lazy_read (e : event) : Prop :=
  match e with
  | EvQuery _ (HasTable _) | EvQuery _ (CreateTable _)
  | EvQuery _ (SelectLock false) | EvQuery _ (InsertLock 0)
  | EvQuery _ SelectNames => True
  | _ => False
  end.

(** The lock table once [_ensureTable] has run. *)
Definition ensured_lock (t : option (list Z)) : list Z :=
  match t with
  | Some (l :: ls) => l :: ls
  | _ => [0]
  end.

Definition applied_rows (w : World U) : list MigrationRecord :=
  default [] (migrations_table (db w)).

Definition applied_names (w : World U) : list string :=
  rec_name <$> orderBy_id (applied_rows w).

(** The shape of what is proved for a function that only reads or repairs:
    the frame, plain [Error]s on failure, [S] on success, and success when
    the driver never fails. *)
Definition reads {A} (w : World U) (S : A -> World U -> Prop)
    (r : result A) (w' : World U) : Prop :=
  extends lazy_read w w'
  /\ match r with
     | Ok a => S a w'
     | Err e => exists msg, e = Error msg
     end
  /\ (no_faults w -> is_Ok r = true).

(** The world in which an entry point starts once it has stored its
    configuration. *)
Definition configured (arg : option ConfigArg) (w : World U) : World U :=
  set_config (setConfig (Some (config w)) arg) w.

Definition corrupt_message (diff : list string) : string :=
  "The migration directory is corrupt, the following " +:+
  "files are missing: " +:+ join ", " diff.

Definition lock_read_event (e : event) : Prop :=
  match e with
  | EvQuery _ (SelectLock true) | EvBegin _ | EvRollback _ => True
  | _ => False
  end.

Definition lock_event (e : event) : Prop :=
  match e with
  | EvQuery _ (SelectLock true) | EvQuery _ (UpdateLock 1)
  | EvBegin _ | EvCommit _ | EvRollback _ => True
  | _ => False
  end.

(** What the locking read of [_getLock] returns for [is_locked], when the
    driver runs it and the row is there. *)
Definition locking_read (w : World U) : option Z :=
  match fault_at w (issued w) with
  | Some _ => None
  | None => lock_table (db w) ≫= head
  end.

Definition locked_rows (rest : list Z) : list Z := 1 :: ((fun _ => 1) <$> rest).

Definition lock_body (h : handle) : Promise U unit :=
  then_ (_isLocked h) (fun isLocked =>
    then_ (if truthy isLocked
           then reject (Error "Migration table is already locked")
           else resolve tt)
          (fun _ => _lockMigrations h)).

Definition lock_outcome (wrap : error -> error) (w : World U)
    (r : result unit) (w' : World U) : Prop :=
  match r with
  | Ok _ =>
      exists rest, lock_table (db w) = Some (0 :: rest)
        /\ db w' = set_lock_table (Some (locked_rows rest)) (db w)
  | Err e => (exists e0, e = wrap e0) /\ db w' = db w
  end
  /\ (forall v, locking_read w = Some v -> v <> 0 ->
        r = Err (wrap (Error "Migration table is already locked"))
        /\ extends lock_read_event w w')
  /\ (locking_read w = Some 0 -> fault_at w (S (issued w)) = None -> r = Ok tt).

Definition wrap_lock (err : error) : error := LockError (message err).

(** The events of the operation of migration [name] run on [h]. *)
Definition op_event (name : string) (d : direction) (h : handle) (e : event) : Prop :=
  match e with
  | EvOp n d' h' => n = name /\ d' = d /\ h' = h
  | EvWarn _ => True
  | _ => False
  end.

Definition run_operation (m : option (Migration U)) (d : direction) (name : string)
    (h : handle) (fn : option (Promise U unit)) : Promise U unit :=
  then_ (invoke m d name h) (fun value =>
    then_ (warnPromise value name fn) await).

(** The events of a migration run in a transaction of its own. *)
Definition dedicated_event (name : string) (d : direction) (e : event) : Prop :=
  match e with
  | EvOp n d' h' => n = name /\ d' = d /\ exists id, h' = Trx id
  | EvWarn _ | EvBegin _ | EvCommit _ | EvRollback _ => True
  | _ => False
  end.

(** What a whole batch may issue: operations of the target migrations in
    direction [d], each on the handle the policy gives it; record writes and
    the release of the lock on [trx || knex]. *)
Definition op_handle_ok (c : Config U) (trx : option handle) (n : string)
    (h : handle) : Prop :=
  if bool_decide (trx = None)
     && _useTransaction (migrationModules c !! n) (Some (disableTransactions c))
  then exists id, h = Trx id
  else h = default Knex trx.

Definition batch_event (c : Config U) (d : direction) (trx : option handle)
    (target : list string) (e : event) : Prop :=
  match e with
  | EvOp n d' h => n ∈ target /\ d' = d /\ op_handle_ok c trx n h
  | EvQuery h (InsertRecord n _ _) => h = default Knex trx /\ n ∈ target /\ d = Up
  | EvQuery h (DeleteRecord n) => h = default Knex trx /\ n ∈ target /\ d = Down
  | EvQuery h (UpdateLock v) => v = 0 -> h = default Knex trx
  | _ => True
  end.

(** The statement that records migration [name] of batch [b]. *)
Definition record_write (d : direction) (name : string) (b : Z) (s : statement)
  : Prop :=
  match d, s with
  | Up, InsertRecord n b' _ => n = name /\ b' = b
  | Down, DeleteRecord n => n = name
  | _, _ => False
  end.

(** What one turn of the loop may issue for migration [name]. *)
Definition step_event (c : Config U) (d : direction) (trx : option handle)
    (name : string) (b : Z) (e : event) : Prop :=
  match e with
  | EvOp n d' h => n = name /\ d' = d /\ op_handle_ok c trx n h
  | EvQuery h s => h = default Knex trx /\ record_write d name b s
  | _ => True
  end.

(** The applied rows after one migration has been recorded. *)
Definition applied_after (d : direction) (b : Z) (name : string)
    (rows rows' : list MigrationRecord) : Prop :=
  match d with
  | Up => exists rec, rec_name rec = name /\ rec_batch rec = b /\ rows' = rows ++ [rec]
  | Down => rows' = filter (fun r => rec_name r ≠ name) rows
  end.

Fixpoint applied_chain (d : direction) (b : Z) (ms : list string)
    (t t' : option (list MigrationRecord)) : Prop :=
  match ms with
  | [] => t' = t
  | n :: rest =>
      exists rows rows1,
        t = Some rows /\ applied_after d b n rows rows1
        /\ applied_chain d b rest (Some rows1) t'
  end.

Definition batch_or_zero (rows : list MigrationRecord) : Z :=
  match max_batch rows with
  | Some m => if m =? 0 then 0 else m
  | None => 0
  end.

Definition released (rows : list Z) : list Z := (fun _ => 0) <$> rows.

(** The migrations a batch goes on to run: the names it was given, less the
    applied names read again when there is an outer transaction. *)
Definition target_of (trx : option handle) (ms : list string) (w : World U)
  : list string :=
  match trx with
  | Some _ => difference ms (applied_names w)
  | None => ms
  end.

Definition batch_no (d : direction) (rows : list MigrationRecord) : Z :=
  match d with
  | Up => batch_or_zero rows + 1
  | Down => batch_or_zero rows
  end.

Definition batch_done (ms : list string) (d : direction) (trx : option handle)
    (w : World U) (res : Z * list string) (w' : World U) : Prop :=
  let target := target_of trx ms w in
  let b := batch_no d (applied_rows w) in
  res = (b, target)
  /\ (forall n, n ∈ target -> exists h, EvOp n d h ∈ new_events w w')
  /\ applied_chain d b target (Some (applied_rows w)) (migrations_table (db w'))
  /\ last (trace w') = Some (EvQuery (default Knex trx) (UpdateLock 0))
  /\ exists rows, lock_table (db w') = Some (released rows).

(** What the [.catch] handler of [_runBatch] may issue. *)
Definition cleanup_event (trx : option handle) (e : event) : Prop :=
  match e with
  | EvWarn _ => True
  | EvQuery h (UpdateLock 0) => h = default Knex trx
  | _ => False
  end.

Definition warn_only (e : event) : Prop :=
  match e with EvWarn _ => True | _ => False end.

(** A failed acquisition and the warnings that follow it. *)
Definition acquire_event (e : event) : Prop :=
  match e with EvWarn _ => True | _ => lock_event e end.

Definition runBatch_post (ms : list string) (d : direction) (trx : option handle)
    (w : World U) (r : result (Z * list string)) (w' : World U) : Prop :=
  extends (batch_event (config w) d trx (target_of trx ms w)) w w'
  /\ match r with
     | Ok res => batch_done ms d trx w res w'
     | Err e =>
         (exists w1, runBatch_chain ms d trx w = (Err e, w1))
         /\ if instanceof_LockError e
            then extends acquire_event w w' /\ db w' = db w
            else last (trace w') = Some (EvQuery (default Knex trx) (UpdateLock 0))
     end.

Definition latest_done (arg : option ConfigArg) (w : World U)
    (res : Z * list string) (w' : World U) : Prop :=
  let pending :=
    difference (listAll_of extname (setConfig (Some (config w)) arg))
               (applied_names w) in
  let b := batch_no Up (applied_rows w) in
  res = (b, pending)
  /\ applied_chain Up b pending (Some (applied_rows w)) (migrations_table (db w')).

Definition rollback_done (w : World U) (res : Z * list string) (w' : World U)
  : Prop :=
  let names := rec_name <$> last_batch_rows (applied_rows w) in
  let b := batch_no Down (applied_rows w) in
  res = (b, names)
  /\ applied_chain Down b names (Some (applied_rows w)) (migrations_table (db w')).

(** ** Vocabulary of the further properties *)

(** A projection of the world that no statement, event, transaction or
    clock tick changes. *)
Definition inert {X} (f : World U -> X) : Prop :=
  (forall e w, f (emit e w) = f w)
  /\ (forall d w, f (set_db d w) = f w)
  /\ (forall n w, f (set_next_trx n w) = f w)
  /\ (forall n w, f (set_issued n w) = f w)
  /\ (forall t w, f (set_now t w) = f w).

(** [keeps f p]: running [p] leaves [f] of the world as it was. *)
Definition keeps {X A} (f : World U -> X) (p : Promise U A) : Prop :=
  forall w, f (p w).2 = f w.

(** A table after the lazy repairs of [_ensureTable]: as it was, or, when it
    was missing or had no row, created with one of the [fresh] contents. *)
Definition created_or_same {T} (fresh : list (list T)) (t t' : option (list T))
  : Prop :=
  t' = t \/ (default [] t = [] /\ exists l, l ∈ fresh /\ t' = Some l).

(** What the lazy repairs of [_ensureTable] amount to: the user's schema and
    the id counter are those of before; a records table that was missing
    may be there, empty; a lock table that was missing or empty may be
    there, empty or with the single row 0. *)
Definition repaired (d d' : Db U) : Prop :=
  user d' = user d
  /\ next_id d' = next_id d
  /\ created_or_same [[]] (migrations_table d) (migrations_table d')
  /\ created_or_same [[]; [0]] (lock_table d) (lock_table d').

(** [moves R p]: the tables after a run of [p] are related by [R] to those
    before it. *)
Definition moves (R : relation (Db U)) {A} (p : Promise U A) : Prop :=
  forall w, R (db w) (db (p w).2).

(** [mends p]: whatever [p] does to the tables is a lazy repair. *)
Definition mends {A} (p : Promise U A) : Prop := moves repaired p.

(** The lock table is as it was. *)
Definition same_lock (d d' : Db U) : Prop := lock_table d' = lock_table d.

(** The records table is as it was. *)
Definition same_records (d d' : Db U) : Prop :=
  migrations_table d' = migrations_table d.

(** The three look-ups of an [_ensureTable] that finds everything there. *)
Definition ensure_reads (h : handle) : list event :=
  [EvQuery h (HasTable MigrationsTable); EvQuery h (HasTable LockTable);
   EvQuery h (SelectLock false)].

(** The migration has both operations: it passes
    [_validateMigrationStructure]. *)
Definition well_formed (m : Migration U) : Prop :=
  is_Some (up m) /\ is_Some (down m).

(** The operation of [m] in direction [d], called on any handle in any state
    of the schema, neither throws nor rejects. *)
Definition settles (m : Migration U) (d : direction) : Prop :=
  exists op, get_operation m d = Some op
    /\ forall h u, (op h u).1 = Resolves \/ (op h u).1 = NotThenable.

Definition invalid_message (name : string) : string :=
  "Invalid migration: " +:+ name +:+ " must have both an up and down function".

Definition no_operation (e : event) : Prop :=
  match e with EvOp _ _ _ => False | _ => True end.


Definition not_a_promise_warning (name : string) : event :=
  EvWarn ("migration " +:+ name +:+ " did not return a promise").

(** Events on the one transaction [id] of a batch: operations, record
    writes and the release of the lock are issued on it. *)
Definition on_transaction (id : nat) (e : event) : Prop :=
  match e with
  | EvOp _ _ h => h = Trx id
  | EvQuery h (InsertRecord _ _ _) | EvQuery h (DeleteRecord _)
  | EvQuery h (UpdateLock 0) => h = Trx id
  | _ => True
  end.

(** What the loop of [_waterfallBatch] may issue for the names [ms]: what
    the turn of one of them may issue. *)
Definition loop_event (c : Config U) (d : direction) (trx : option handle)
    (ms : list string) (b : Z) (e : event) : Prop :=
  exists n, n ∈ ms /\ step_event c d trx n b e.

(** [_runBatch] from the validation on, once the lock is taken and the
    names that are left to run are known. *)
Definition runBatch_rest (migrations : list string) (d : direction)
    (trx : option handle) : Promise U (Z * list string) :=
  then_ (validate_all migrations) (fun _ =>
    then_ (_latestBatchNumber trx) (fun batchNo =>
      let batchNo := match d with Up => batchNo + 1 | Down => batchNo end in
      tap (_waterfallBatch batchNo migrations d trx) (fun _ => _freeLock trx))).

(** An event that is no read of the applied names. *)
Definition no_names_read (e : event) : Prop :=
  match e with EvQuery _ SelectNames => False | _ => True end.

Lemma new_events_app w w' evs :
  trace w' = trace w ++ evs -> new_events w w' = evs.
Proof. unfold new_events. intros ->. by rewrite drop_app_length. Qed.

(** *** Strings *)

Lemma string_gt_false_le a b : string_gt a b = false <-> String.le a b.
Proof using Type.
  clear extname.
  unfold string_gt, String.le, String.leb.
  destruct (String.compare a b); simpl; naive_solver.
Qed.

Lemma string_gt_true_le a b : string_gt a b = true -> String.le b a.
Proof.
  intros Hgt. destruct (total String.le b a) as [|Hle]; [done|].
  apply string_gt_false_le in Hle. congruence.
Qed.

Lemma lodash_max_fold (l : list string) (c : string) :
  exists m,
    fold_left
      (fun computed current =>
         match computed with
         | None => Some current
         | Some c => if string_gt current c then Some current else Some c
         end) l (Some c) = Some m
    /\ (m = c \/ m ∈ l) /\ String.le c m /\ forall t, t ∈ l -> String.le t m.
Proof.
  revert c. induction l as [|x l IH]; intros c; simpl.
  - exists c. split_and!; [done|by left|done|]. intros t Ht. inversion Ht.
  - destruct (string_gt x c) eqn:Hgt.
    + destruct (IH x) as (m & Hm & Hin & Hle & Hall). exists m.
      split_and!; [done| |by etrans; [apply string_gt_true_le|]|].
      * right. destruct Hin as [->|Hin]; [left|by right].
      * intros t [->|Ht]%elem_of_cons; auto.
    + destruct (IH c) as (m & Hm & Hin & Hle & Hall). exists m.
      split_and!; [done| |done|].
      * destruct Hin as [->|Hin]; [by left|right; by right].
      * intros t [->|Ht]%elem_of_cons; auto.
        etrans; [by apply string_gt_false_le|done].
Qed.

Lemma lodash_max_spec (l : list string) :
  match lodash_max l with
  | None => l = []
  | Some m => m ∈ l /\ forall t, t ∈ l -> string_gt t m = false
  end.
Proof.
  destruct l as [|x l]; [done|].
  unfold lodash_max; simpl.
  destruct (lodash_max_fold l x) as (m & -> & Hin & Hle & Hall).
  split.
  - destruct Hin as [->|Hin]; [left|by right].
  - intros t [->|Ht]%elem_of_cons; apply string_gt_false_le; auto.
Qed.

(** *** Reasoning about promises *)

Lemma wp_elim {A} (p : Promise U A) w Q r w' :
  wp p w Q -> p w = (r, w') -> Q r w'.
Proof. unfold wp. intros HQ Heq. by rewrite Heq in HQ. Qed.

Lemma wp_mono {A} (p : Promise U A) w (Q Q' : result A -> World U -> Prop) :
  wp p w Q -> (forall r w', Q r w' -> Q' r w') -> wp p w Q'.
Proof. unfold wp. auto. Qed.

Lemma wp_resolve {A} (a : A) w (Q : result A -> World U -> Prop) :
  Q (Ok a) w -> wp (resolve a) w Q.
Proof. done. Qed.

Lemma wp_reject {A} e w (Q : result A -> World U -> Prop) :
  Q (Err e) w -> wp (reject e) w Q.
Proof. done. Qed.

Lemma wp_then {A B} (p : Promise U A) (f : A -> Promise U B) w Q :
  wp p w (fun r w1 =>
            match r with
            | Ok a => wp (f a) w1 Q
            | Err e => Q (Err e) w1
            end) ->
  wp (then_ p f) w Q.
Proof. unfold wp, then_. by destruct (p w) as [[a|e] w1]. Qed.

Lemma wp_catch {A} (p : Promise U A) (h : error -> Promise U A) w Q :
  wp p w (fun r w1 =>
            match r with
            | Ok a => Q (Ok a) w1
            | Err e => wp (h e) w1 Q
            end) ->
  wp (catch_ p h) w Q.
Proof. unfold wp, catch_. by destruct (p w) as [[a|e] w1]. Qed.

Lemma wp_tap {A B} (p : Promise U A) (f : A -> Promise U B) w Q :
  wp p w (fun r w1 =>
            match r with
            | Ok a => wp (f a) w1 (fun r' w2 =>
                        match r' with
                        | Ok _ => Q (Ok a) w2
                        | Err e => Q (Err e) w2
                        end)
            | Err e => Q (Err e) w1
            end) ->
  wp (tap p f) w Q.
Proof.
  unfold wp, tap, then_, resolve. destruct (p w) as [[a|e] w1]; simpl; [|done].
  by destruct (f a w1) as [[b|e] w2].
Qed.

Lemma wp_transaction {A} (fn : handle -> Promise U A) w Q :
  (forall w0, w0 = emit (EvBegin (next_trx w)) (set_next_trx (S (next_trx w)) w) ->
     wp (fn (Trx (next_trx w))) w0 (fun r w1 =>
       match r with
       | Ok a => Q (Ok a) (emit (EvCommit (next_trx w)) w1)
       | Err e => Q (Err e) (emit (EvRollback (next_trx w)) (set_db (db w0) w1))
       end)) ->
  wp (transaction fn) w Q.
Proof.
  intros H. specialize (H _ eq_refl). unfold wp, transaction in *.
  by destruct (fn _ _) as [[a|e] w1].
Qed.

(** *** What a run leaves alone *)

Lemma extends_refl P w : extends P w w.
Proof. split_and!; [done..|]. exists []. by rewrite app_nil_r. Qed.

Lemma extends_trans P w1 w2 w3 :
  extends P w1 w2 -> extends P w2 w3 -> extends P w1 w3.
Proof.
  intros (Hc1 & Hf1 & evs1 & Ht1 & HP1) (Hc2 & Hf2 & evs2 & Ht2 & HP2).
  split_and!; [congruence..|].
  exists (evs1 ++ evs2). split; [|by apply Forall_app].
  by rewrite Ht2, Ht1, app_assoc.
Qed.

Lemma extends_mono (P P' : event -> Prop) w w' :
  (forall e, P e -> P' e) -> extends P w w' -> extends P' w w'.
Proof.
  intros HPP (Hc & Hf & evs & Ht & HP). split_and!; [done..|].
  exists evs. split; [done|]. by eapply Forall_impl.
Qed.

Lemma extends_emit (P : event -> Prop) e w : P e -> extends P w (emit e w).
Proof. intros He. split_and!; [done..|]. exists [e]. split; [done|]. by constructor. Qed.

Lemma extends_new_events P w w' :
  extends P w w' -> Forall P (new_events w w').
Proof. intros (_ & _ & evs & Ht & HP). by rewrite (new_events_app _ _ _ Ht). Qed.

(** A statement: one event, and either a driver fault that leaves the
    tables alone or the run of the statement. *)
Lemma issue_spec {A} h s (run : Db U -> result A * Db U) w (P : event -> Prop) :
  P (EvQuery h s) ->
  wp (issue h s run) w (fun r w' =>
    extends P w w'
    /\ last (trace w') = Some (EvQuery h s)
    /\ issued w' = S (issued w)
    /\ match fault_at w (issued w) with
       | Some msg => r = Err (Error msg) /\ db w' = db w
       | None => run (db w) = (r, db w')
       end).
Proof.
  intros HP. unfold wp, issue.
  destruct (fault_at w (issued w)) as [msg|]; simpl.
  - split_and!; [|by rewrite last_snoc|done..].
    split_and!; [done..|]. exists [EvQuery h s]. split; [done|]. by constructor.
  - change (db (set_issued (S (issued w)) (emit (EvQuery h s) w))) with (db w).
    destruct (run (db w)) as [r d] eqn:Hrun; simpl.
    split_and!; [|by rewrite last_snoc|done..].
    split_and!; [done..|]. exists [EvQuery h s]. split; [done|]. by constructor.
Qed.

(** *** Reading the applied names *)

(** One statement of a reading function, issued from [w1] in a run that
    started in [w]. *)
Lemma reads_issue {A B} h s (run : Db U -> result A * Db U)
    (f : A -> Promise U B) w w1 (S : B -> World U -> Prop) :
  lazy_read (EvQuery h s) ->
  extends lazy_read w w1 ->
  (exists a d, run (db w1) = (Ok a, d) /\
     forall w2, extends lazy_read w w2 -> db w2 = d ->
       wp (f a) w2 (reads w S)) ->
  wp (then_ (issue h s run) f) w1 (reads w S).
Proof.
  intros HP Hext (a & d & Hrun & Hk).
  apply wp_then. eapply wp_mono; [by apply (issue_spec _ _ _ _ lazy_read)|].
  intros r w2 (Hext2 & _ & _ & Hr). simpl.
  assert (extends lazy_read w w2) as Hext' by (by eapply extends_trans).
  destruct (fault_at w1 (issued w1)) as [msg|] eqn:Hf.
  - destruct Hr as [-> _]. split_and!; [done|by eexists|].
    intros Hnf. destruct Hext as (_ & Hfa & _).
    rewrite Hfa, Hnf in Hf. discriminate.
  - rewrite Hrun in Hr. injection Hr as <- Hd. by apply Hk.
Qed.

Lemma reads_resolve {A} (a : A) w w1 (S : A -> World U -> Prop) :
  extends lazy_read w w1 -> S a w1 -> wp (resolve a) w1 (reads w S).
Proof. intros Hext HS. apply wp_resolve. by split_and!. Qed.

Lemma reads_last {A} h s (run : Db U -> result A * Db U) w w1
    (S : A -> World U -> Prop) :
  lazy_read (EvQuery h s) ->
  extends lazy_read w w1 ->
  (exists a d, run (db w1) = (Ok a, d) /\
     forall w2, extends lazy_read w w2 -> db w2 = d -> S a w2) ->
  wp (issue h s run) w1 (reads w S).
Proof.
  intros HP Hext (a & d & Hrun & Hk).
  eapply wp_mono; [by apply (issue_spec _ _ _ _ lazy_read)|].
  intros r w2 (Hext2 & _ & _ & Hr). simpl.
  assert (extends lazy_read w w2) as Hext' by (by eapply extends_trans).
  destruct (fault_at w1 (issued w1)) as [msg|] eqn:Hf.
  - destruct Hr as [-> _]. split_and!; [done|by eexists|].
    intros Hnf. destruct Hext as (_ & Hfa & _).
    rewrite Hfa, Hnf in Hf. discriminate.
  - rewrite Hrun in Hr. injection Hr as <- Hd. split_and!; [done|by apply Hk|done].
Qed.

Lemma ensureTable_spec trx w :
  wp (_ensureTable trx) w (reads w (fun _ w' =>
    db w' = mkDb (Some (applied_rows w)) (Some (ensured_lock (lock_table (db w))))
                 (next_id (db w)) (user (db w)))).
Proof.
  unfold _ensureTable, applied_rows.
  destruct (db w) as [mt lt nid u] eqn:Hdb.
  apply reads_issue; [done|apply extends_refl|].
  rewrite Hdb. do 2 eexists. split; [done|]. intros w1 He1 Hd1; simpl.
  apply wp_then.
  assert (wp (if negb (bool_decide (is_Some mt))
              then _createMigrationTable (default Knex trx) else resolve tt) w1
            (reads w (fun _ w' => db w' = mkDb (Some (default [] mt)) lt nid u)))
    as Hmt.
  { destruct mt as [rows|]; simpl; [by apply reads_resolve|].
    apply reads_last; [done..|]. rewrite Hd1. by do 2 eexists. }
  eapply wp_mono; [exact Hmt|]. clear Hmt w1 He1 Hd1.
  intros [[]|e] w1 (He1 & Hr & Hok); [|by split_and!]. simpl in Hr.
  apply reads_issue; [done|done|].
  rewrite Hr. do 2 eexists. split; [done|]. intros w2 He2 Hd2; simpl.
  apply wp_then.
  assert (wp (if negb (bool_decide (is_Some lt))
              then _createMigrationLockTable (default Knex trx) else resolve tt) w2
            (reads w (fun _ w' =>
               db w' = mkDb (Some (default [] mt)) (Some (default [] lt)) nid u)))
    as Hlt.
  { destruct lt as [rows|]; simpl; [by apply reads_resolve|].
    apply reads_last; [done..|]. rewrite Hd2. by do 2 eexists. }
  eapply wp_mono; [exact Hlt|]. clear Hlt w2 He2 Hd2 w1 He1 Hr Hok.
  intros [[]|e] w1 (He1 & Hr & Hok); [|by split_and!]. simpl in Hr.
  apply reads_issue; [done|done|].
  rewrite Hr. do 2 eexists. split; [done|]. intros w2 He2 Hd2; simpl.
  destruct lt as [[|l ls]|]; simpl;
    [apply reads_last; [done..|]; rewrite Hd2; by do 2 eexists
    |by apply reads_resolve
    |apply reads_last; [done..|]; rewrite Hd2; by do 2 eexists].
Qed.

Lemma listCompleted_spec trx w :
  wp (_listCompleted trx) w (reads w (fun completed w' =>
    completed = applied_names w
    /\ db w' = mkDb (Some (applied_rows w)) (Some (ensured_lock (lock_table (db w))))
                    (next_id (db w)) (user (db w)))).
Proof.
  unfold _listCompleted. apply wp_then.
  eapply wp_mono; [apply ensureTable_spec|].
  intros [[]|e] w1 (He1 & Hr & Hok); [|by split_and!]. simpl in Hr.
  apply reads_last; [done..|]. rewrite Hr. by do 2 eexists.
Qed.

(** *** Small facts on lists and strings *)

Lemma append_assoc (a b c : string) : (a +:+ b) +:+ c = a +:+ b +:+ c.
Proof.
  induction a as [|x a IH]; [done|].
  change (String x ((a +:+ b) +:+ c) = String x (a +:+ b +:+ c)). by rewrite IH.
Qed.

Lemma append_empty_r (a : string) : a +:+ "" = a.
Proof.
  induction a as [|x a IH]; [done|].
  change (String x (a +:+ "") = String x a). by rewrite IH.
Qed.

Lemma join_contains sep (l : list string) n :
  n ∈ l -> exists pre post, join sep l = pre +:+ n +:+ post.
Proof.
  induction l as [|x l IH]; [by intros ?%elem_of_nil|].
  intros [->|Hin]%elem_of_cons.
  - destruct l as [|y l]; simpl.
    + exists "", "". symmetry. apply append_empty_r.
    + by exists "", (sep +:+ join sep (y :: l)).
  - destruct (IH Hin) as (pre & post & Heq). destruct l as [|y l]; [by apply elem_of_nil in Hin|].
    exists (x +:+ sep +:+ pre), post.
    change (join sep (x :: y :: l)) with (x +:+ sep +:+ join sep (y :: l)).
    by rewrite Heq, !append_assoc.
Qed.

Lemma orderBy_id_elem r rows : r ∈ orderBy_id rows <-> r ∈ rows.
Proof. unfold orderBy_id. by rewrite merge_sort_Permutation. Qed.

Lemma applied_names_elem n w :
  n ∈ applied_names w <-> exists r, r ∈ applied_rows w /\ rec_name r = n.
Proof.
  unfold applied_names. rewrite list_elem_of_fmap. split.
  - intros (r & -> & Hr). rewrite orderBy_id_elem in Hr. eauto.
  - intros (r & Hr & <-). exists r. split; [done|]. by apply orderBy_id_elem.
Qed.

(** *** Running the public entry points *)

Lemma then_Ok {A B} (p : Promise U A) (f : A -> Promise U B) w a w1 :
  p w = (Ok a, w1) -> then_ p f w = f a w1.
Proof. unfold then_. by intros ->. Qed.

Lemma then_Err {A B} (p : Promise U A) (f : A -> Promise U B) w e w1 :
  p w = (Err e, w1) -> then_ p f w = (Err e, w1).
Proof. unfold then_. by intros ->. Qed.

Lemma set_config_same w : set_config (config w) w = w.
Proof. by destruct w. Qed.

Lemma listAll_run w :
  _listAll extname None w = (Ok (listAll_of extname (config w)), w).
Proof.
  unfold _listAll, then_, use_config, get_config, resolve.
  change (setConfig (Some (config w)) None) with (config w).
  by rewrite set_config_same.
Qed.

Lemma migrationData_run w completed w1 :
  _listCompleted None w = (Ok completed, w1) ->
  config w1 = config w ->
  _migrationData extname w = (Ok (listAll_of extname (config w), completed), w1).
Proof.
  intros Hlc Hc. unfold _migrationData.
  rewrite (then_Ok _ _ _ _ _ (listAll_run w)).
  by rewrite (then_Ok _ _ _ _ _ Hlc).
Qed.

Lemma listCompleted_configured arg w :
  no_faults w ->
  exists w',
    _listCompleted None (configured arg w) = (Ok (applied_names w), w')
    /\ config w' = setConfig (Some (config w)) arg
    /\ db w' = mkDb (Some (applied_rows w)) (Some (ensured_lock (lock_table (db w))))
                    (next_id (db w)) (user (db w))
    /\ Forall lazy_read (new_events w w').
Proof.
  intros Hnf.
  pose proof (listCompleted_spec None (configured arg w)) as Hspec.
  unfold wp, reads in Hspec.
  destruct (_listCompleted None (configured arg w)) as [r w'].
  destruct Hspec as (Hext & Hr & Hok). simpl in *.
  destruct r as [cs|e]; [|by specialize (Hok Hnf)].
  destruct Hr as [-> Hdb]. exists w'. split_and!; [done| |done|].
  - by destruct Hext as (-> & _).
  - by apply extends_new_events in Hext.
Qed.

Lemma validation_aborts arg w :
  no_faults w ->
  let all := listAll_of extname (setConfig (Some (config w)) arg) in
  let diff := difference (applied_names w) all in
  (exists r, r ∈ applied_rows w /\ rec_name r ∉ all) ->
  exists w',
    latest extname arg w = (Err (Error (corrupt_message diff)), w')
    /\ rollback extname arg w = (Err (Error (corrupt_message diff)), w')
    /\ db w' = mkDb (Some (applied_rows w)) (Some (ensured_lock (lock_table (db w))))
                    (next_id (db w)) (user (db w))
    /\ Forall lazy_read (new_events w w')
    /\ forall r, r ∈ applied_rows w -> rec_name r ∉ all ->
         exists pre post, corrupt_message diff = pre +:+ rec_name r +:+ post.
Proof.
  intros Hnf all diff (r0 & Hr0 & Hmiss).
  destruct (listCompleted_configured arg w Hnf) as (w' & Hlc & Hc & Hdb & Hev).
  assert (forall r, r ∈ applied_rows w -> rec_name r ∉ all -> rec_name r ∈ diff)
    as Hdiff.
  { intros r Hr Hn. apply list_elem_of_difference. split; [|done].
    apply applied_names_elem. eauto. }
  assert (diff <> []) as Hne.
  { intros Hnil. specialize (Hdiff _ Hr0 Hmiss). rewrite Hnil in Hdiff.
    by apply elem_of_nil in Hdiff. }
  assert (tap (_migrationData extname) validateMigrationList (configured arg w)
          = (Err (Error (corrupt_message diff)), w')) as Htap.
  { unfold tap. erewrite then_Ok; [|by apply migrationData_run].
    unfold validateMigrationList; simpl. fold all diff.
    rewrite bool_decide_eq_false_2 by done. reflexivity. }
  exists w'. split_and!; [| |done|done|].
  - unfold latest. rewrite (then_Ok _ _ w tt (configured arg w)) by done.
    by rewrite (then_Err _ _ _ _ _ Htap).
  - unfold rollback. rewrite (then_Ok _ _ w tt (configured arg w)) by done.
    by rewrite (then_Err _ _ _ _ _ Htap).
  - intros r Hr Hn. unfold corrupt_message.
    destruct (join_contains ", " diff (rec_name r) (Hdiff _ Hr Hn)) as (pre & post & ->).
    eexists _, post. by rewrite <- !append_assoc.
Qed.

(** *** [status] *)

Lemma status_run (arg : option ConfigArg) w rows :
  migrations_table (db w) = Some rows ->
  fault_at w (issued w) = None ->
  exists w',
    status extname arg w
    = (Ok (Z.of_nat (length rows)
           - Z.of_nat (length (listAll_of extname (setConfig (Some (config w)) arg)))),
       w')
    /\ db w' = db w.
Proof.
  intros Hmt Hf. unfold status.
  rewrite (then_Ok _ _ w tt (configured arg w)) by done.
  rewrite (then_Ok _ _ _ _ _ (listAll_run _)).
  unfold then_, select_all, issue, resolve; simpl.
  rewrite Hf, Hmt. eexists; split; [reflexivity|]. simpl. by destruct (db w).
Qed.

Lemma currentVersion_run (arg : option ConfigArg) w :
  no_faults w ->
  exists v w',
    currentVersion arg w = (Ok v, w')
    /\ (applied_rows w = [] -> v = "none")
    /\ (applied_rows w <> [] ->
        (exists r, r ∈ applied_rows w /\ v = split_underscore_0 (rec_name r))
        /\ forall r, r ∈ applied_rows w ->
             string_gt (split_underscore_0 (rec_name r)) v = false).
Proof.
  intros Hnf.
  destruct (listCompleted_configured arg w Hnf) as (w' & Hlc & _).
  unfold currentVersion.
  rewrite (then_Ok _ _ w tt (configured arg w)) by done.
  rewrite (then_Ok _ _ _ _ _ Hlc). unfold resolve.
  eexists _, w'. split; [reflexivity|].
  pose proof (lodash_max_spec (split_underscore_0 <$> applied_names w)) as Hmax.
  destruct (lodash_max _) as [m|]; simpl.
  - destruct Hmax as [Hin Hub]. split.
    + intros Hnil. unfold applied_names in Hin. rewrite Hnil in Hin.
      by apply elem_of_nil in Hin.
    + intros _. split.
      * apply list_elem_of_fmap in Hin as (n & -> & Hn).
        apply applied_names_elem in Hn as (r & Hr & <-). eauto.
      * intros r Hr. apply Hub. apply list_elem_of_fmap. eexists; split; [done|].
        apply applied_names_elem. eauto.
  - split; [done|]. intros Hne. exfalso.
    apply fmap_nil_inv in Hmax. unfold applied_names in Hmax.
    apply fmap_nil_inv in Hmax.
    destruct (applied_rows w) as [|r rows]; [done|].
    assert (r ∈ orderBy_id (r :: rows)) as Hr by (apply orderBy_id_elem; left).
    rewrite Hmax in Hr. by apply elem_of_nil in Hr.
Qed.

(** *** Taking the lock *)

Lemma lock_read_event_lock e : lock_read_event e -> lock_event e.
Proof. by destruct e as [? [| |[]| | | | | | | |]| | | | |]. Qed.

Lemma lock_outcome_failed (wrap : error -> error) w w' e :
  db w' = db w ->
  (forall v, locking_read w = Some v -> v <> 0 ->
     e = Error "Migration table is already locked" /\ extends lock_read_event w w') ->
  (locking_read w = Some 0 -> fault_at w (S (issued w)) <> None) ->
  lock_outcome wrap w (Err (wrap e)) w'.
Proof.
  intros Hdb Hlocked Hfree. split; [by eauto|]. split.
  - intros v Hv Hne. destruct (Hlocked v Hv Hne) as [-> ?]. done.
  - intros H0 Hf. by destruct (Hfree H0).
Qed.

Lemma lock_body_spec h w :
  wp (lock_body h) w (fun r w' =>
    extends lock_event w w' /\ lock_outcome id w r w').
Proof.
  unfold lock_body, _isLocked, select_lock.
  apply wp_then. apply wp_then.
  eapply wp_mono; [by apply (issue_spec _ _ _ _ lock_read_event)|].
  intros r w1 (He1 & _ & Hi1 & Hr).
  assert (extends lock_event w w1) as He1'
    by (eapply extends_mono; [apply lock_read_event_lock|done]).
  destruct (fault_at w (issued w)) as [msg|] eqn:Hf.
  { destruct Hr as [-> Hdb]. split; [done|].
    apply (lock_outcome_failed id); unfold locking_read; rewrite ?Hf; done. }
  destruct (lock_table (db w)) as [rows|] eqn:Hlt; simpl in Hr.
  2:{ injection Hr as <- Hdb. split; [done|].
      apply (lock_outcome_failed id); unfold locking_read; rewrite ?Hf, ?Hlt; done. }
  injection Hr as <- Hdb. destruct rows as [|v rest].
  { apply wp_reject. split; [done|].
    apply (lock_outcome_failed id); unfold locking_read; rewrite ?Hf, ?Hlt; done. }
  apply wp_resolve, wp_then. unfold truthy.
  destruct (Z.eqb_spec v 0) as [->|Hv]; simpl.
  - apply wp_resolve. unfold _lockMigrations, update_lock.
    eapply wp_mono; [by apply (issue_spec _ _ _ _ lock_event)|].
    intros r w2 (He2 & _ & _ & Hr2).
    assert (extends lock_event w w2) by (by eapply extends_trans).
    destruct He1 as (_ & Hfa & _). rewrite Hfa, Hi1 in Hr2.
    split; [done|].
    destruct (fault_at w (S (issued w))) as [msg|] eqn:Hf2.
    + destruct Hr2 as [-> Hdb2].
      apply (lock_outcome_failed id); unfold locking_read; rewrite ?Hf, ?Hlt;
        [congruence| |by rewrite Hf2].
      by intros v [= <-].
    + rewrite <- Hdb, Hlt in Hr2. injection Hr2 as <- Hdb2.
      split; [|split; [|done]].
      * exists rest. split; [done|]. by rewrite <- Hdb2, Hdb.
      * unfold locking_read. rewrite Hf, Hlt. by intros v [= <-].
  - apply wp_reject. split; [done|].
    apply (lock_outcome_failed id); unfold locking_read; rewrite ?Hf, ?Hlt;
      [done| |by intros [= ->]].
    by intros v' [= <-] _.
Qed.

Lemma getLock_spec trx w :
  wp (_getLock trx) w (fun r w' =>
    extends lock_event w w' /\ lock_outcome wrap_lock w r w').
Proof.
  unfold _getLock. apply wp_catch. destruct trx as [t|].
  - eapply wp_mono; [apply (lock_body_spec t)|].
    intros [[]|e] w1 (He & Hout & Hlocked & Hfree).
    { split; [done|]. split; [done|]. split; [|done].
      intros v Hv Hne. by destruct (Hlocked v Hv Hne). }
    apply wp_reject. split; [done|].
    destruct Hout as [_ Hdb].
    apply (lock_outcome_failed wrap_lock); [done| |].
    + intros v Hv Hne. destruct (Hlocked v Hv Hne) as [[= ->] ?]. done.
    + intros H0 Hf. by specialize (Hfree H0 Hf).
  - apply wp_transaction. intros w0 ->.
    set (w0 := emit _ _).
    assert (extends lock_read_event w w0) as He0 by (split_and!; [done..|];
      exists [EvBegin (next_trx w)]; split; [done|by constructor]).
    eapply wp_mono; [apply (lock_body_spec (Trx (next_trx w)))|].
    intros [[]|e] w1 (He & Hout & Hlocked & Hfree).
    + split.
      * eapply extends_trans;
          [eapply extends_mono; [apply lock_read_event_lock|exact He0]|].
        eapply extends_trans; [exact He|]. by apply extends_emit.
      * split; [|split].
        -- destruct Hout as (rest & Hlt & Hdb). exists rest. by split.
        -- intros v Hv Hne. by destruct (Hlocked v Hv Hne).
        -- done.
    + apply wp_reject.
      assert (extends lock_event w0 (emit (EvRollback (next_trx w)) (set_db (db w0) w1)))
        as He1.
      { eapply extends_trans; [|by apply (extends_emit lock_event)].
        destruct He as (Hc & Hf & evs & Ht & HP). split_and!; eauto. }
      split.
      * eapply extends_trans; [|exact He1].
        eapply extends_mono; [apply lock_read_event_lock|exact He0].
      * apply (lock_outcome_failed wrap_lock); [done| |].
        -- intros v Hv Hne. destruct (Hlocked v Hv Hne) as [[= ->] Hre]. split; [done|].
           eapply extends_trans; [exact He0|].
           eapply extends_trans; [|by apply (extends_emit lock_read_event)].
           destruct Hre as (Hc & Hf & evs & Ht & HP). split_and!; eauto.
        -- intros H0 Hf. by specialize (Hfree H0 Hf).
Qed.

(** *** Running one migration *)

Lemma new_events_l P P' w w1 w2 e :
  extends P w w1 -> extends P' w1 w2 ->
  e ∈ new_events w w1 -> e ∈ new_events w w2.
Proof.
  intros (_ & _ & evs1 & Ht1 & _) (_ & _ & evs2 & Ht2 & _).
  rewrite (new_events_app _ _ _ Ht1).
  rewrite (new_events_app w w2 (evs1 ++ evs2)) by (by rewrite Ht2, Ht1, app_assoc).
  intros ?. apply elem_of_app. by left.
Qed.

Lemma new_events_r P P' w w1 w2 e :
  extends P w w1 -> extends P' w1 w2 ->
  e ∈ new_events w1 w2 -> e ∈ new_events w w2.
Proof.
  intros (_ & _ & evs1 & Ht1 & _) (_ & _ & evs2 & Ht2 & _).
  rewrite (new_events_app _ _ _ Ht2).
  rewrite (new_events_app w w2 (evs1 ++ evs2)) by (by rewrite Ht2, Ht1, app_assoc).
  intros ?. apply elem_of_app. by right.
Qed.

Lemma extends_frame P w w' :
  config w' = config w -> fault_at w' = fault_at w -> trace w' = trace w ->
  extends P w w'.
Proof. intros Hc Hf Ht. split_and!; [done..|]. exists []. by rewrite app_nil_r. Qed.

Lemma run_operation_spec m d name h fn w :
  default (resolve tt) fn = resolve tt ->
  wp (run_operation m d name h fn) w (fun r w' =>
    extends (op_event name d h) w w'
    /\ (exists u, db w' = set_user u (db w))
    /\ match r with
       | Ok _ => EvOp name d h ∈ new_events w w'
       | Err e => instanceof_LockError e = false
       end).
Proof.
  intros Hfn. unfold wp, run_operation, then_, invoke.
  destruct (m ≫= _) as [op|]; simpl.
  { destruct (op h (user (db w))) as [value u] eqn:Hop.
    assert (extends (op_event name d h) w
              (set_db (set_user u (db w)) (emit (EvOp name d h) w))) as He.
    { split_and!; [done..|]. exists [EvOp name d h]. split; [done|]. by constructor. }
    assert (EvOp name d h ∈ new_events w
              (set_db (set_user u (db w)) (emit (EvOp name d h) w))) as Hin.
    { rewrite (new_events_app _ _ [EvOp name d h]) by done. by left. }
    destruct value; simpl.
    - split_and!; [done|by eexists|done].
    - split_and!; [done|by eexists|done].
    - unfold warnPromise, then_, warn. rewrite Hfn. simpl.
      split_and!; [|by eexists|].
      + eapply extends_trans; [exact He|]. by apply (extends_emit (op_event name d h)).
      + eapply new_events_l; [exact He| |exact Hin].
        by apply (extends_emit (op_event name d h)).
    - split_and!; [done|by eexists|done]. }
  split_and!; [apply extends_refl| |done].
  exists (user (db w)). by destruct (db w).
Qed.

Lemma op_event_dedicated name d id e :
  op_event name d (Trx id) e -> dedicated_event name d e.
Proof. destruct e; simpl; try done. intros (-> & -> & ->). eauto. Qed.

Lemma transaction_spec m d name w :
  wp (_transaction m d name) w (fun r w' =>
    extends (dedicated_event name d) w w'
    /\ (exists u, db w' = set_user u (db w))
    /\ match r with
       | Ok _ => exists h, EvOp name d h ∈ new_events w w'
       | Err e => instanceof_LockError e = false
       end).
Proof.
  unfold _transaction. apply wp_transaction. intros w0 ->. set (w0 := emit _ _).
  assert (extends (dedicated_event name d) w w0) as He0.
  { split_and!; [done..|]. exists [EvBegin (next_trx w)]. split; [done|]. by constructor. }
  eapply wp_mono;
    [apply (run_operation_spec m d name (Trx (next_trx w)) (Some (resolve tt))); done|].
  intros r w1 (He1 & (u & Hdb) & Hr).
  apply (extends_mono _ (dedicated_event name d)) in He1 as He1';
    [|apply op_event_dedicated].
  destruct r as [[]|e].
  - assert (extends (dedicated_event name d) w1 (emit (EvCommit (next_trx w)) w1)) as Hc
      by (by apply extends_emit).
    split_and!.
    + eapply extends_trans; [exact He0|]. by eapply extends_trans.
    + by exists u.
    + exists (Trx (next_trx w)).
      eapply new_events_r; [exact He0|by eapply extends_trans|].
      eapply new_events_l; [exact He1|exact Hc|done].
  - split_and!; [| |done].
    + eapply extends_trans; [exact He0|].
      eapply extends_trans; [|by apply (extends_emit (dedicated_event name d))].
      destruct He1' as (Hc & Hf & evs & Ht & HP). split_and!; eauto.
    + exists (user (db w)). simpl. by destruct (db w).
Qed.

Lemma step_event_batch c d trx target name b e :
  name ∈ target -> step_event c d trx name b e -> batch_event c d trx target e.
Proof.
  intros Hin. destruct e as [h s| | | |n d' h|]; simpl; try done.
  - intros [-> Hs]. destruct d, s; simpl in *; try done.
    + by destruct Hs as [-> _].
    + by destruct Hs.
  - by intros (-> & -> & ?).
Qed.

Lemma waterfall_step_spec c b d trx name w :
  wp (waterfall_step c b d trx name) w (fun r w' =>
    extends (step_event c d trx name b) w w'
    /\ match r with
       | Ok _ =>
           (exists h, EvOp name d h ∈ new_events w w')
           /\ (exists s, last (trace w') = Some (EvQuery (default Knex trx) s))
           /\ exists rows rows',
                migrations_table (db w) = Some rows
                /\ migrations_table (db w') = Some rows'
                /\ applied_after d b name rows rows'
       | Err e => instanceof_LockError e = false
       end).
Proof.
  unfold waterfall_step. apply wp_then.
  assert (wp (if bool_decide (trx = None)
                 && _useTransaction (migrationModules c !! name)
                      (Some (disableTransactions c))
              then _transaction (migrationModules c !! name) d name
              else run_operation (migrationModules c !! name) d name
                     (default Knex trx) None) w
            (fun r w' =>
               extends (step_event c d trx name b) w w'
               /\ (exists u, db w' = set_user u (db w))
               /\ match r with
                  | Ok _ => exists h, EvOp name d h ∈ new_events w w'
                  | Err e => instanceof_LockError e = false
                  end)) as Hop.
  { destruct (bool_decide (trx = None) && _) eqn:Hpol.
    - eapply wp_mono; [apply transaction_spec|].
      intros r w1 (He & Hdb & Hr). split_and!; [|done..].
      eapply extends_mono; [|exact He].
      intros [h []| | | |n d' h|]; simpl; try done.
      intros (-> & -> & Hh). split_and!; [done..|].
      unfold op_handle_ok. by rewrite Hpol.
    - eapply wp_mono; [by apply run_operation_spec|].
      intros r w1 (He & Hdb & Hr). split_and!; [|done|].
      + eapply extends_mono; [|exact He].
        intros [h []| | | |n d' h|]; simpl; try done.
        intros (-> & -> & ->). split_and!; [done..|].
        unfold op_handle_ok. by rewrite Hpol.
      + destruct r; [by eexists|done]. }
  eapply wp_mono; [exact Hop|]. clear Hop.
  intros [[]|e] w1 (He1 & (u & Hdb1) & Hr); [|done].
  destruct Hr as [h Hin].
  destruct d.
  - apply wp_then. unfold wp at 1, Date_now; simpl.
    set (w2 := set_now _ w1).
    assert (extends (step_event c Up trx name b) w w2) as He2.
    { eapply extends_trans; [exact He1|]. by apply extends_frame. }
    unfold insert_record.
    eapply wp_mono; [by apply (issue_spec _ _ _ _ (step_event c Up trx name b))|].
    intros r w3 (He3 & Hlast & _ & Hr3).
    split; [by eapply extends_trans|].
    destruct (fault_at w2 (issued w2)); [by destruct Hr3 as [-> _]|].
    change (db w2) with (db w1) in Hr3. rewrite Hdb1 in Hr3; simpl in Hr3.
    destruct (migrations_table (db w)) as [rows|] eqn:Hmt;
      [|by injection Hr3 as <- _].
    injection Hr3 as <- Hdb3. split; [|split; [by eexists|]].
    + exists h. eapply new_events_l; [exact He2|exact He3|].
      eapply new_events_l; [exact He1| |exact Hin]. by apply (extends_frame lazy_read).
    + eexists rows, _. split; [done|]. rewrite <- Hdb3; simpl. split; [done|].
      refine (ex_intro _ _ (conj _ (conj _ eq_refl))); done.
  - unfold delete_record.
    eapply wp_mono; [by apply (issue_spec _ _ _ _ (step_event c Down trx name b))|].
    intros r w3 (He3 & Hlast & _ & Hr3).
    split; [by eapply extends_trans|].
    destruct (fault_at w1 (issued w1)); [by destruct Hr3 as [-> _]|].
    rewrite Hdb1 in Hr3; simpl in Hr3.
    destruct (migrations_table (db w)) as [rows|] eqn:Hmt;
      [|by injection Hr3 as <- _].
    injection Hr3 as <- Hdb3. split; [|split; [by eexists|]].
    + exists h. eapply new_events_l; [exact He1|exact He3|done].
    + eexists rows, _. split; [done|]. rewrite <- Hdb3; simpl. by split.
Qed.

(** *** Running the chain of a batch *)

Lemma waterfall_chain_spec c b d trx target ms log w :
  ms ⊆ target ->
  wp (waterfall_chain c b d trx ms log) w (fun r w' =>
    extends (batch_event c d trx target) w w'
    /\ match r with
       | Ok log' =>
           log' = log ++ ms
           /\ (forall n, n ∈ ms -> exists h, EvOp n d h ∈ new_events w w')
           /\ applied_chain d b ms (migrations_table (db w)) (migrations_table (db w'))
       | Err e => instanceof_LockError e = false
       end).
Proof.
  revert log w. induction ms as [|n rest IH]; intros log w Hsub; simpl.
  - apply wp_resolve. split; [apply extends_refl|].
    split_and!; [by rewrite app_nil_r| |done]. by intros n ?%elem_of_nil.
  - apply wp_then. eapply wp_mono; [apply waterfall_step_spec|].
    intros r w1 (He1 & Hr).
    assert (extends (batch_event c d trx target) w w1) as He1'.
    { eapply extends_mono; [|exact He1]. intros e. apply step_event_batch.
      apply Hsub. by left. }
    destruct r as [[]|e]; [|done].
    destruct Hr as ((h & Hin) & _ & rows & rows' & Hmt & Hmt' & Haft).
    eapply wp_mono; [apply IH|].
    { intros x Hx. apply Hsub. by right. }
    intros r w2 (He2 & Hr2). split; [by eapply extends_trans|].
    destruct r as [log'|e]; [|done].
    destruct Hr2 as (-> & Hops & Hch). split_and!.
    + by rewrite <- app_assoc.
    + intros x [->|Hx]%elem_of_cons.
      * exists h. by eapply new_events_l.
      * destruct (Hops x Hx) as [h' Hin']. exists h'. by eapply new_events_r.
    + exists rows, rows'. split_and!; [done..|]. by rewrite <- Hmt'.
Qed.

Lemma wp_get_config w (Q : result (Config U) -> World U -> Prop) :
  Q (Ok (config w)) w -> wp get_config w Q.
Proof. done. Qed.

Lemma waterfallBatch_spec b ms d trx target w :
  ms ⊆ target ->
  wp (_waterfallBatch b ms d trx) w (fun r w' =>
    extends (batch_event (config w) d trx target) w w'
    /\ match r with
       | Ok res =>
           res = (b, ms)
           /\ (forall n, n ∈ ms -> exists h, EvOp n d h ∈ new_events w w')
           /\ applied_chain d b ms (migrations_table (db w)) (migrations_table (db w'))
       | Err e => instanceof_LockError e = false
       end).
Proof.
  intros Hsub. unfold _waterfallBatch.
  apply wp_then, wp_get_config, wp_then. unfold wp at 1, mark_active; simpl.
  set (w0 := match last ms with Some name => _ | None => w end).
  assert (extends (batch_event (config w) d trx target) w w0) as He0.
  { subst w0. destruct (last ms); [by apply extends_frame|apply extends_refl]. }
  assert (db w0 = db w) as Hdb0 by (subst w0; by destruct (last ms)).
  apply wp_then. eapply wp_mono; [by apply (waterfall_chain_spec _ _ _ _ target)|].
  intros r w1 (He1 & Hr). destruct r as [log|e]; [|split; [by eapply extends_trans|done]].
  apply wp_resolve. split; [by eapply extends_trans|].
  destruct Hr as (-> & Hops & Hch). split_and!; [done| |by rewrite <- Hdb0].
  intros n Hn. destruct (Hops n Hn) as [h Hin]. exists h. by eapply new_events_r.
Qed.

Lemma validate_all_spec ms w :
  wp (validate_all ms) w (fun r w' =>
    w' = w /\ match r with
              | Ok _ => True
              | Err e => instanceof_LockError e = false
              end).
Proof.
  induction ms as [|n rest IH]; simpl; [by apply wp_resolve|].
  apply wp_then. unfold _validateMigrationStructure.
  apply wp_then, wp_get_config.
  destruct (migrationModules (config w) !! n) as [m|]; [|by apply wp_reject].
  destruct (bool_decide (up m = None) || bool_decide (down m = None));
    [by apply wp_reject|].
  apply wp_resolve, wp_then. eapply wp_mono; [apply IH|].
  intros [ns|e] w' [-> Hr]; [by apply wp_resolve|done].
Qed.

Lemma latestBatchNumber_spec trx w (P : event -> Prop) :
  P (EvQuery (default Knex trx) SelectMaxBatch) ->
  wp (_latestBatchNumber trx) w (fun r w' =>
    extends P w w' /\ db w' = db w
    /\ match r with
       | Ok b => exists rows, migrations_table (db w) = Some rows /\ b = batch_or_zero rows
       | Err e => instanceof_LockError e = false
       end).
Proof.
  intros HP. unfold _latestBatchNumber, select_max_batch. apply wp_then.
  eapply wp_mono; [by apply (issue_spec _ _ _ _ P)|].
  intros r w1 (He & _ & _ & Hr).
  destruct (fault_at w (issued w)); [by destruct Hr as [-> ?]|].
  destruct (migrations_table (db w)) as [rows|] eqn:Hmt;
    [|by injection Hr as <- <-].
  injection Hr as <- Hdb. apply wp_resolve. split_and!; [done..|by exists rows].
Qed.

Lemma freeLock_spec trx w (P : event -> Prop) :
  P (EvQuery (default Knex trx) (UpdateLock 0)) ->
  wp (_freeLock trx) w (fun r w' =>
    extends P w w'
    /\ last (trace w') = Some (EvQuery (default Knex trx) (UpdateLock 0))
    /\ migrations_table (db w') = migrations_table (db w)
    /\ match r with
       | Ok _ => exists rows, lock_table (db w) = Some rows
                   /\ lock_table (db w') = Some (released rows)
       | Err e => instanceof_LockError e = false /\ db w' = db w
       end).
Proof.
  intros HP. unfold _freeLock, update_lock.
  eapply wp_mono; [by apply (issue_spec _ _ _ _ P)|].
  intros r w1 (He & Hlast & _ & Hr).
  destruct (fault_at w (issued w)); [destruct Hr as [-> Hdb]; by rewrite Hdb|].
  destruct (lock_table (db w)) as [rows|] eqn:Hlt.
  - injection Hr as <- Hdb. rewrite <- Hdb. split_and!; [done..|]. by exists rows.
  - injection Hr as <- Hdb. by rewrite <- Hdb.
Qed.

(** *** [_runBatch] *)

Lemma lazy_read_batch c d trx target e :
  lazy_read e -> batch_event c d trx target e.
Proof. by destruct e as [h [| |[]|[]| | | | | | |]| | | | |]. Qed.

Lemma lock_event_batch c d trx target e :
  lock_event e -> batch_event c d trx target e.
Proof. by destruct e as [h [| |[]| |[|[]|]| | | | | |]| | | | |]. Qed.

Lemma difference_nil (l : list string) : difference l [] = l.
Proof.
  unfold difference. induction l as [|x l IH]; simpl; [done|].
  by rewrite IH.
Qed.

Lemma runBatch_chain_spec ms d trx w :
  wp (runBatch_chain ms d trx) w (fun r w' =>
    extends (batch_event (config w) d trx (target_of trx ms w)) w w'
    /\ match r with
       | Ok res => batch_done ms d trx w res w'
       | Err e =>
           if instanceof_LockError e
           then extends lock_event w w' /\ db w' = db w
           else True
       end).
Proof.
  set (B := batch_event (config w) d trx (target_of trx ms w)).
  unfold runBatch_chain. apply wp_then.
  eapply wp_mono; [apply getLock_spec|].
  intros r w1 (He1 & Hout & _).
  assert (extends B w w1) as He1'
    by (eapply extends_mono; [apply lock_event_batch|exact He1]).
  destruct r as [[]|e].
  2:{ destruct Hout as [[e0 ->] Hdb]. by split. }
  destruct Hout as (rest & Hlt & Hdb1).
  assert (migrations_table (db w1) = migrations_table (db w)) as Hmt1
    by (by rewrite Hdb1).
  apply wp_then.
  assert (wp (match trx with
              | Some _ => _listCompleted trx
              | None => resolve []
              end) w1
            (fun r w2 =>
               extends B w w2
               /\ match r with
                  | Ok completed =>
                      difference ms completed = target_of trx ms w
                      /\ (migrations_table (db w2) = migrations_table (db w)
                          \/ migrations_table (db w2) = Some (applied_rows w))
                  | Err e => instanceof_LockError e = false
                  end)) as Hread.
  { destruct trx as [t|].
    - eapply wp_mono; [apply listCompleted_spec|].
      intros r w2 (He2 & Hr & _). split.
      + eapply extends_trans; [exact He1'|].
        eapply extends_mono; [apply lazy_read_batch|exact He2].
      + destruct r as [cs|e]; [|by destruct Hr as [msg ->]].
        destruct Hr as [-> Hdb2]. unfold applied_names, applied_rows in *.
        rewrite Hmt1 in *. split; [done|]. right. by rewrite Hdb2.
    - apply wp_resolve. split; [done|]. split; [apply difference_nil|by left]. }
  eapply wp_mono; [exact Hread|]. clear Hread.
  intros r w2 (He2 & Hr). destruct r as [completed|e];
    [|split; [done|by rewrite Hr]].
  destruct Hr as [Hdiff Hmt2]. rewrite Hdiff. clear Hdiff. apply wp_then.
  eapply wp_mono; [apply validate_all_spec|].
  intros r w2' [-> Hr']. destruct r as [ns|e]; [|split; [done|by rewrite Hr']].
  clear Hr'.
  apply wp_then.
  eapply wp_mono; [apply (latestBatchNumber_spec trx w2 B); done|].
  intros r w3 (He3 & Hdb3 & Hr).
  assert (extends B w w3) as He3' by (by eapply extends_trans).
  destruct r as [b0|e]; [|split; [done|by rewrite Hr]].
  destruct Hr as (rows & Hrows & ->).
  assert (applied_rows w = rows) as Hrows'.
  { unfold applied_rows. destruct Hmt2 as [Hmt2|Hmt2]; rewrite Hmt2 in Hrows.
    - by rewrite Hrows.
    - by injection Hrows. }
  apply wp_tap.
  eapply wp_mono;
    [apply (waterfallBatch_spec _ _ _ _ (target_of trx ms w)); done|].
  assert (config w3 = config w) as Hc3 by (by destruct He3' as (-> & _)).
  rewrite Hc3. fold B.
  intros r w4 (He4 & Hr).
  assert (extends B w w4) as He4' by (by eapply extends_trans).
  destruct r as [res|e]; [|split; [done|by rewrite Hr]].
  destruct Hr as (-> & Hops & Hch).
  eapply wp_mono; [apply (freeLock_spec trx w4 B); done|].
  intros r w5 (He5 & Hlast & Hmt5 & Hr).
  assert (extends B w w5) as He5' by (by eapply extends_trans).
  destruct r as [[]|e]; [|split; [done|by destruct Hr as [-> _]]].
  split; [done|]. destruct Hr as (lrows & _ & Hlt5).
  unfold batch_done. rewrite Hrows'. split_and!; [done| | |done|by eexists].
  - intros n Hn. destruct (Hops n Hn) as [h Hin]. exists h.
    eapply new_events_l; [exact He4'|exact He5|].
    eapply new_events_r; [exact He3'|exact He4|done].
  - rewrite Hmt5. by rewrite Hdb3, Hrows in Hch.
Qed.

Lemma wp_warn msg w (Q : result unit -> World U -> Prop) :
  Q (Ok tt) (emit (EvWarn msg) w) -> wp (warn msg) w Q.
Proof. done. Qed.

Lemma wp_finally_reject {A B} (p : Promise U A) e w
    (Q : result B -> World U -> Prop) :
  wp p w (fun _ w1 => Q (Err e) w1) ->
  wp (then_ (finally_ p (reject (A:=unit) e)) (fun _ => reject e)) w Q.
Proof. unfold wp, then_, finally_, reject. by destruct (p w) as [[a|e'] w1]. Qed.

Lemma wp_catch_eq {A} (p : Promise U A) (h : error -> Promise U A) w Q :
  (forall r w1, p w = (r, w1) ->
     match r with
     | Ok a => Q (Ok a) w1
     | Err e => wp (h e) w1 Q
     end) ->
  wp (catch_ p h) w Q.
Proof.
  intros H. unfold wp, catch_ in *. destruct (p w) as [r w1] eqn:Hp.
  specialize (H r w1 eq_refl). by destruct r.
Qed.

Lemma cleanup_spec trx e w :
  wp (runBatch_cleanup trx e) w (fun r w' =>
    r = Err e
    /\ extends (cleanup_event trx) w w'
    /\ if instanceof_LockError e
       then extends warn_only w w' /\ db w' = db w
       else last (trace w') = Some (EvQuery (default Knex trx) (UpdateLock 0))).
Proof.
  unfold runBatch_cleanup. apply wp_then, wp_get_config.
  apply wp_finally_reject. destruct (instanceof_LockError e).
  - apply wp_then, wp_warn, wp_warn.
    split; [done|]. split; [|split; [|done]].
    + eapply extends_trans; by apply (extends_emit (cleanup_event trx)).
    + eapply extends_trans; by apply (extends_emit warn_only).
  - apply wp_then.
    assert (wp (fun w0 : World U =>
                  match activeFileName w0 with
                  | Some fileName =>
                      if bool_decide (fileName = "") then resolve tt w0
                      else warn ("migration file " +:+ dquote +:+ fileName
                                 +:+ dquote +:+ " failed") w0
                  | None => resolve tt w0
                  end) w
              (fun r w1 => r = Ok tt /\ extends (cleanup_event trx) w w1)) as Hw.
    { unfold wp. destruct (activeFileName w) as [f|];
        [destruct (bool_decide (f = ""))|]; simpl;
        (split; [done|]); try apply extends_refl.
      by apply (extends_emit (cleanup_event trx)). }
    eapply wp_mono; [exact Hw|]. intros r w1 [-> He1].
    apply wp_then, wp_warn.
    eapply wp_mono; [apply (freeLock_spec trx _ (cleanup_event trx)); done|].
    intros r w2 (He2 & Hlast & _). split; [done|]. split; [|done].
    eapply extends_trans; [exact He1|].
    eapply extends_trans; [|exact He2]. by apply (extends_emit (cleanup_event trx)).
Qed.

Lemma cleanup_event_batch c d trx target e :
  cleanup_event trx e -> batch_event c d trx target e.
Proof. destruct e as [h [| | | |[|[]|]| | | | | |]| | | | |]; simpl; try done. Qed.

Lemma warn_only_acquire e : warn_only e -> acquire_event e.
Proof. by destruct e. Qed.

Lemma lock_event_acquire e : lock_event e -> acquire_event e.
Proof. by destruct e. Qed.

Lemma runBatch_spec ms d trx w :
  wp (_runBatch ms d trx) w (runBatch_post ms d trx w).
Proof.
  unfold _runBatch. apply wp_catch_eq. intros r w1 Hrun.
  pose proof (wp_elim _ _ _ _ _ (runBatch_chain_spec ms d trx w) Hrun) as [He1 Hr].
  destruct r as [res|e]; [by split|].
  eapply wp_mono; [apply cleanup_spec|].
  intros r w2 (-> & He2 & Hc). split.
  - eapply extends_trans; [exact He1|].
    eapply extends_mono; [apply cleanup_event_batch|exact He2].
  - split; [by eexists|]. destruct (instanceof_LockError e); [|done].
    destruct Hr as [Hl Hdb1]. destruct Hc as [Hw Hdb2]. split; [|congruence].
    eapply extends_trans.
    + eapply extends_mono; [apply lock_event_acquire|exact Hl].
    + eapply extends_mono; [apply warn_only_acquire|exact Hw].
Qed.

(** *** [latest] and [rollback] *)

Lemma wp_listAll w (Q : result (list string) -> World U -> Prop) :
  Q (Ok (listAll_of extname (config w))) w -> wp (_listAll extname None) w Q.
Proof. unfold wp. by rewrite listAll_run. Qed.

Lemma wp_use_config arg w (Q : result unit -> World U -> Prop) :
  Q (Ok tt) (configured arg w) -> wp (use_config arg) w Q.
Proof. done. Qed.

(** What [_migrationData().tap(validateMigrationList)] leaves behind. *)
Lemma validated_data_spec w :
  wp (tap (_migrationData extname) validateMigrationList) w (fun r w' =>
    extends lazy_read w w'
    /\ match r with
       | Ok data =>
           data = (listAll_of extname (config w), applied_names w)
           /\ db w' = mkDb (Some (applied_rows w))
                           (Some (ensured_lock (lock_table (db w))))
                           (next_id (db w)) (user (db w))
       | Err e => instanceof_LockError e = false
       end).
Proof.
  apply wp_tap. unfold _migrationData. apply wp_then, wp_listAll, wp_then.
  eapply wp_mono; [apply listCompleted_spec|].
  intros r w1 (He & Hr & Hok). destruct r as [cs|e];
    [|by destruct Hr as [msg ->]].
  destruct Hr as [-> Hdb]. apply wp_resolve.
  unfold validateMigrationList; simpl.
  by destruct (bool_decide _); [apply wp_resolve|apply wp_reject].
Qed.

Lemma difference_idemp (l k : list string) :
  difference (difference l k) k = difference l k.
Proof.
  unfold difference. induction l as [|x l IH]; simpl; [done|].
  destruct (decide_rel elem_of x k) as [Hin|Hin] eqn:Hd; [done|].
  simpl. by rewrite Hd, IH.
Qed.

Lemma latest_spec arg w :
  wp (latest extname arg) w (fun r w' =>
    let c := setConfig (Some (config w)) arg in
    let pending := difference (listAll_of extname c) (applied_names w) in
    (disableTransactions c = true ->
     extends (batch_event c Up None pending) (configured arg w) w')
    /\ match r with
       | Ok res => latest_done arg w res w'
       | Err _ => True
       end).
Proof.
  unfold latest. apply wp_then, wp_use_config, wp_then.
  set (w0 := configured arg w). set (c := setConfig (Some (config w)) arg).
  set (pending := difference (listAll_of extname c) (applied_names w)).
  eapply wp_mono; [apply validated_data_spec|].
  intros r w1 (He1 & Hr). destruct r as [data|e]; [|split; [|done]].
  2:{ intros _. eapply extends_mono; [apply lazy_read_batch|exact He1]. }
  destruct Hr as [-> Hdb1]. simpl.
  change (config w0) with c. change (applied_names w0) with (applied_names w).
  change (applied_rows w0) with (applied_rows w) in Hdb1.
  fold pending.
  assert (config w1 = c) as Hc1 by (by destruct He1 as (-> & _)).
  assert (applied_rows w1 = applied_rows w) as Hrows1
    by (unfold applied_rows at 1; by rewrite Hdb1).
  assert (applied_names w1 = applied_names w) as Hnames1
    by (unfold applied_names; by rewrite Hrows1).
  apply wp_then, wp_get_config. rewrite Hc1.
  destruct (negb (disableTransactions c) && _) eqn:Hall.
  - apply wp_transaction. intros w2 ->. set (w2 := emit _ _).
    eapply wp_mono; [apply runBatch_spec|].
    intros r w3 (He3 & Hr).
    assert (forall w4, (disableTransactions c = true ->
              extends (batch_event c Up None pending) w0 w4)) as Hno.
    { intros w4 Hd. rewrite Hd in Hall. done. }
    destruct r as [res|e]; [|split; [apply Hno|done]]. split; [apply Hno|].
    destruct Hr as (-> & _ & Hch & _).
    unfold target_of in *.
    change (applied_names w2) with (applied_names w1) in *.
    change (applied_rows w2) with (applied_rows w1) in *.
    rewrite Hrows1, Hnames1 in *.
    rewrite difference_idemp in *. by split.
  - eapply wp_mono; [apply runBatch_spec|].
    intros r w3 (He3 & Hr). split.
    + intros _. eapply extends_trans.
      * eapply extends_mono; [apply lazy_read_batch|exact He1].
      * by rewrite Hc1 in He3.
    + destruct r as [res|e]; [|done].
      destruct Hr as (-> & _ & Hch & _). unfold target_of in *.
      rewrite Hrows1 in *. by split.
Qed.

Lemma rollback_spec arg w :
  wp (rollback extname arg) w (fun r w' =>
    match r with
    | Ok res => rollback_done w res w'
    | Err _ => True
    end).
Proof.
  unfold rollback. apply wp_then, wp_use_config, wp_then.
  set (w0 := configured arg w).
  eapply wp_mono; [apply validated_data_spec|].
  intros r w1 (He1 & Hr). destruct r as [data|e]; [|done].
  destruct Hr as [-> Hdb1].
  change (applied_rows w0) with (applied_rows w) in Hdb1.
  apply wp_then. unfold _getLastBatch, select_last_batch.
  eapply wp_mono; [by apply (issue_spec _ _ _ _ (fun _ => True))|].
  intros r w2 (He2 & _ & _ & Hr).
  destruct (fault_at w1 (issued w1)); [by destruct Hr as [-> _]|].
  rewrite Hdb1 in Hr; simpl in Hr. injection Hr as <- Hdb2.
  assert (applied_rows w2 = applied_rows w) as Hrows2
    by (unfold applied_rows at 1; by rewrite <- Hdb2).
  eapply wp_mono; [apply runBatch_spec|].
  intros r w3 (He3 & Hr). destruct r as [res|e]; [|done].
  destruct Hr as (-> & _ & Hch & _). unfold target_of in *.
  rewrite Hrows2 in *. by split.
Qed.

(** *** The applied rows after a batch *)

Lemma applied_chain_up b ms rows t' :
  applied_chain Up b ms (Some rows) t' ->
  exists recs,
    t' = Some (rows ++ recs)
    /\ rec_name <$> recs = ms
    /\ Forall (fun r => rec_batch r = b) recs.
Proof.
  revert rows. induction ms as [|n rest IH]; intros rows; simpl.
  - intros ->. exists []. by rewrite app_nil_r.
  - intros (rows0 & rows1 & [= <-] & (rec & Hn & Hb & ->) & Hch).
    destruct (IH _ Hch) as (recs & -> & Hnames & Hall).
    exists (rec :: recs). split_and!.
    + by rewrite <- app_assoc.
    + by rewrite fmap_cons, Hn, Hnames.
    + by constructor.
Qed.

Lemma applied_chain_down b ms rows t' :
  applied_chain Down b ms (Some rows) t' ->
  t' = Some (filter (fun r => rec_name r ∉ ms) rows).
Proof using Type.
  clear extname.
  revert rows. induction ms as [|n rest IH]; intros rows; simpl.
  - intros ->. f_equal. induction rows as [|r rows IHr]; [done|].
    rewrite filter_cons_True by apply not_elem_of_nil. by rewrite <- IHr.
  - intros (rows0 & rows1 & [= <-] & -> & Hch).
    rewrite (IH _ Hch). f_equal. rewrite list_filter_filter.
    apply list_filter_iff. intros r. rewrite not_elem_of_cons. tauto.
Qed.

Lemma max_batch_le rows m r :
  max_batch rows = Some m -> r ∈ rows -> rec_batch r <= m.
Proof.
  revert m. induction rows as [|x rows IH]; intros m; [by intros _ ?%elem_of_nil|].
  simpl. destruct (max_batch rows) as [m'|] eqn:Hm.
  - intros [= <-] [->|Hin]%elem_of_cons; [lia|].
    specialize (IH m' eq_refl Hin). lia.
  - intros [= <-] [->|Hin]%elem_of_cons; [lia|].
    destruct rows as [|y rows]; [by apply elem_of_nil in Hin|].
    simpl in Hm. by destruct (max_batch rows).
Qed.

Lemma batch_or_zero_le rows r : r ∈ rows -> rec_batch r <= batch_or_zero rows.
Proof.
  intros Hin. unfold batch_or_zero.
  destruct (max_batch rows) as [m|] eqn:Hm.
  - pose proof (max_batch_le _ _ _ Hm Hin). destruct (Z.eqb_spec m 0); lia.
  - destruct rows as [|y rows]; [by apply elem_of_nil in Hin|].
    simpl in Hm. by destruct (max_batch rows).
Qed.

Lemma max_batch_new rows recs b :
  (forall r, r ∈ rows -> rec_batch r < b) ->
  recs <> [] -> Forall (fun r => rec_batch r = b) recs ->
  max_batch (rows ++ recs) = Some b.
Proof.
  intros Hold Hne Hnew. induction rows as [|x rows IH]; simpl.
  - clear Hold. induction Hnew as [|r recs Hr Hnew IH]; [done|]. simpl.
    destruct recs as [|r' recs]; [by rewrite Hr|].
    rewrite IH by done. f_equal. lia.
  - rewrite IH by (intros r Hr; apply Hold; by right).
    f_equal. pose proof (Hold x ltac:(by left)). lia.
Qed.

Lemma last_batch_new rows recs b :
  (forall r, r ∈ rows -> rec_batch r < b) ->
  recs <> [] -> Forall (fun r => rec_batch r = b) recs ->
  last_batch_rows (rows ++ recs) ≡ₚ recs.
Proof.
  intros Hold Hne Hnew. unfold last_batch_rows, orderBy_id_desc.
  rewrite merge_sort_Permutation, (max_batch_new _ _ b) by done.
  rewrite filter_app.
  replace (filter _ rows) with (@nil MigrationRecord).
  - simpl. clear Hne. induction Hnew as [|r recs Hr Hnew IH]; [done|].
    rewrite filter_cons_True by (by rewrite Hr). by rewrite IH.
  - symmetry. clear Hne Hnew. induction rows as [|x rows IH]; [done|].
    rewrite filter_cons_False.
    + apply IH. intros r Hr. apply Hold. by right.
    + intros [= Hb]. pose proof (Hold x ltac:(by left)). lia.
Qed.

Lemma filter_out_new (rows recs : list MigrationRecord) (names : list string) :
  (forall r, r ∈ rows -> rec_name r ∉ names) ->
  (forall r, r ∈ recs -> rec_name r ∈ names) ->
  filter (fun r => rec_name r ∉ names) (rows ++ recs) = rows.
Proof.
  intros Hold Hnew. rewrite filter_app.
  replace (filter _ recs) with (@nil MigrationRecord).
  - rewrite app_nil_r. induction rows as [|x rows IH]; [done|].
    rewrite filter_cons_True by (apply Hold; by left).
    rewrite IH; [done|]. intros r Hr. apply Hold. by right.
  - symmetry. induction recs as [|x recs IH]; [done|].
    rewrite filter_cons_False by (intros Hn; apply Hn, Hnew; by left).
    apply IH. intros r Hr. apply Hnew. by right.
Qed.

Lemma last_new_event (tr evs : list event) e e0 :
  e0 ∈ evs -> last (tr ++ evs) = Some e -> e ∈ evs.
Proof.
  intros Hin. rewrite last_app. destruct (last evs) as [y|] eqn:Hl.
  - intros [= <-]. by apply last_Some_elem_of.
  - apply last_None in Hl. subst. by apply elem_of_nil in Hin.
Qed.

Lemma default_disableTransactions (client_cfg arg : option ConfigArg) :
  client_cfg ≫= arg_disableTransactions = None ->
  arg ≫= arg_disableTransactions = None ->
  disableTransactions (setConfig (Some (setConfig (U:=U) None client_cfg)) arg) = true.
Proof.
  intros H1 H2. destruct client_cfg as [cc|], arg as [a|]; simpl in *;
    rewrite ?H1, ?H2; done.
Qed.

(** ** The claims on the migrator *)

(** C1, as amended. Acquiring the lock ([_getLock], with or without an outer
    transaction) fails with a [LockError] whenever the locking read returns a
    non-zero [is_locked], and then nothing but that read was issued; every
    other failure of the acquisition is reported as a [LockError] too. On any
    failure the tables are as before; on success the row read 0 and every
    row of the lock table holds 1 afterwards; a row that reads 0 is taken
    when the driver runs the update. *)
Theorem getLock_acquire trx w r w' :
  _getLock trx w = (r, w') ->
  match r with
  | Ok _ =>
      exists rest, lock_table (db w) = Some (0 :: rest)
        /\ lock_table (db w') = Some (locked_rows rest)
  | Err e => (exists msg, e = LockError msg) /\ db w' = db w
  end
  /\ (forall v, locking_read w = Some v -> v <> 0 ->
        r = Err (LockError "Migration table is already locked")
        /\ forall h s, EvQuery h s ∈ new_events w w' -> s = SelectLock true)
  /\ (locking_read w = Some 0 -> fault_at w (S (issued w)) = None -> r = Ok tt).
Proof.
  intros Hrun.
  destruct (wp_elim _ _ _ _ _ (getLock_spec trx w) Hrun)
    as (He & Hout & Hlocked & Hfree).
  split_and!; [|clear Hout|done].
  - destruct r as [[]|e].
    + destruct Hout as (rest & Hlt & Hdb). exists rest. by rewrite Hdb.
    + destruct Hout as [[e0 ->] Hdb]. split; [by eexists|done].
  - intros v Hv Hne. destruct (Hlocked v Hv Hne) as [-> Hre]. split; [done|].
    intros h s Hin. apply extends_new_events in Hre.
    rewrite Forall_forall in Hre. specialize (Hre _ Hin).
    by destruct s as [| |[]| | | | | | | |].
Qed.


(** C4, as amended. [latest] is called with [arg1] and then [rollback]
    with [arg2], the second call naming the same table as the first and
    leaving the migration definitions (the modules and the extensions that
    are loaded) as they were. When [latest] succeeds having run at least one
    migration and [rollback] then succeeds, the applied records are exactly
    those from before [latest]: [rollback] reverts the names of the rows of
    the greatest batch, by descending id, and these are the migrations
    [latest] has just run. *)
Theorem latest_rollback_roundtrip arg1 arg2 w b log w1 res2 w2 :
  tableName (config (configured arg2 (configured arg1 w)))
  = tableName (config (configured arg1 w)) ->
  migrationModules (config (configured arg2 (configured arg1 w)))
  = migrationModules (config (configured arg1 w)) ->
  loadExtensions (config (configured arg2 (configured arg1 w)))
  = loadExtensions (config (configured arg1 w)) ->
  latest extname arg1 w = (Ok (b, log), w1) ->
  log <> [] ->
  rollback extname arg2 w1 = (Ok res2, w2) ->
  applied_rows w2 = applied_rows w
  /\ res2.2 = rec_name <$> last_batch_rows (applied_rows w1)
  /\ res2.2 ≡ₚ log.
Proof.
  intros _ _ _ Hlatest Hne Hrollback.
  destruct (wp_elim _ _ _ _ _ (latest_spec arg1 w) Hlatest) as [_ [Hres Hch]].
  injection Hres as -> ->.
  apply applied_chain_up in Hch as (recs & Hmt1 & Hnames & Hbatch).
  assert (applied_rows w1 = applied_rows w ++ recs) as Hrows1
    by (unfold applied_rows at 1; by rewrite Hmt1).
  destruct (wp_elim _ _ _ _ _ (rollback_spec arg2 w1) Hrollback) as [-> Hch2].
  apply applied_chain_down in Hch2. simpl.
  assert (recs <> []) as Hrecs by (intros ->; by rewrite <- Hnames in Hne).
  assert (last_batch_rows (applied_rows w ++ recs) ≡ₚ recs) as Hlast.
  { apply (last_batch_new _ _ (batch_no Up (applied_rows w))); [|done..].
    intros r Hr. pose proof (batch_or_zero_le _ _ Hr). unfold batch_no. lia. }
  split_and!; [|done|by rewrite Hrows1, Hlast, Hnames].
  unfold applied_rows at 1. rewrite Hch2, Hrows1. simpl.
  apply filter_out_new.
  - intros r Hr Hin. rewrite Hlast, Hnames in Hin.
    apply list_elem_of_difference in Hin as [_ Hin]. apply Hin.
    apply applied_names_elem. eauto.
  - intros r Hr. rewrite Hlast. by apply list_elem_of_fmap_2.
Qed.

(** C6, as amended. When an applied record names a migration that is not
    defined and the driver does not fail, [latest] and [rollback] fail with
    the corrupt-directory error, whose message carries every such name. By
    then only look-ups and the lazy repair of [_ensureTable] were issued: no
    migration ran, the records are untouched, and so is the lock table
    unless it was missing or empty, in which case it now holds the single
    row 0. *)
Theorem corrupt_directory_aborts arg w :
  no_faults w ->
  (exists r, r ∈ applied_rows w
     /\ rec_name r ∉ listAll_of extname (setConfig (Some (config w)) arg)) ->
  let all := listAll_of extname (setConfig (Some (config w)) arg) in
  let diff := difference (applied_names w) all in
  exists w',
    latest extname arg w = (Err (Error (corrupt_message diff)), w')
    /\ rollback extname arg w = (Err (Error (corrupt_message diff)), w')
    /\ (forall r, r ∈ applied_rows w -> rec_name r ∉ all ->
          exists pre post, corrupt_message diff = pre +:+ rec_name r +:+ post)
    /\ Forall lazy_read (new_events w w')
    /\ migrations_table (db w') = migrations_table (db w)
    /\ user (db w') = user (db w)
    /\ lock_table (db w') = Some (ensured_lock (lock_table (db w)))
    /\ (forall l ls, lock_table (db w) = Some (l :: ls) -> db w' = db w).
Proof.
  intros Hnf Hmiss all diff.
  destruct (validation_aborts arg w Hnf Hmiss)
    as (w' & Hlatest & Hrollback & Hdb & Hev & Hmsg).
  exists w'. split_and!; [done..| | | |].
  - rewrite Hdb; simpl. destruct Hmiss as (r & Hr & _). unfold applied_rows in *.
    destruct (migrations_table (db w)); [done|by apply elem_of_nil in Hr].
  - by rewrite Hdb.
  - by rewrite Hdb.
  - intros l ls Hlt. rewrite Hdb, Hlt; simpl.
    destruct Hmiss as (r & Hr & _). unfold applied_rows in *.
    destruct (db w) as [[rows|] lt nid u]; simpl in *;
      [by subst|by apply elem_of_nil in Hr].
Qed.

(** C7, as amended. [status] returns the number of applied records less
    the number of defined migrations (so a negative count while migrations
    are pending), and 0 exactly when the two numbers are equal. *)
Theorem status_counts arg w rows :
  migrations_table (db w) = Some rows ->
  fault_at w (issued w) = None ->
  let all := listAll_of extname (setConfig (Some (config w)) arg) in
  exists n w',
    status extname arg w = (Ok n, w')
    /\ n = Z.of_nat (length rows) - Z.of_nat (length all)
    /\ (n = 0 <-> length rows = length all).
Proof.
  intros Hmt Hf all. destruct (status_run arg w rows Hmt Hf) as (w' & Hrun & _).
  eexists _, w'. split; [exact Hrun|]. split; [done|]. fold all. lia.
Qed.

(** C9. When the driver does not fail, [currentVersion] returns ["none"] if
    no record is applied, and otherwise the greatest, in the order of
    strings, of the parts before the first ["_"] of the applied names. *)
Theorem currentVersion_max arg w :
  no_faults w ->
  exists v w',
    currentVersion arg w = (Ok v, w')
    /\ (applied_rows w = [] -> v = "none")
    /\ (applied_rows w <> [] ->
        (exists r, r ∈ applied_rows w /\ v = split_underscore_0 (rec_name r))
        /\ forall r, r ∈ applied_rows w ->
             string_gt (split_underscore_0 (rec_name r)) v = false).
Proof. apply currentVersion_run. Qed.

(** C10. With a configuration in which neither the client nor the call
    sets [disableTransactions], the flag is [true]; then [latest] runs every
    migration that has no boolean [config.transaction] of its own on the
    plain [knex] handle, and writes the records and releases the lock on
    that handle too: nothing runs inside a transaction shared by the batch. *)
Theorem latest_default_no_transaction (client_cfg arg : option ConfigArg) w r w' :
  config w = setConfig None client_cfg ->
  client_cfg ≫= arg_disableTransactions = None ->
  arg ≫= arg_disableTransactions = None ->
  latest extname arg w = (r, w') ->
  disableTransactions (@CONFIG_DEFAULT U) = true
  /\ disableTransactions (config w') = true
  /\ (forall n d h, EvOp n d h ∈ new_events w w' ->
        migrationModules (config w') !! n ≫= config_transaction = None ->
        h = Knex)
  /\ (forall h s, EvQuery h s ∈ new_events w w' ->
        match s with
        | InsertRecord _ _ _ | DeleteRecord _ | UpdateLock 0 => h = Knex
        | _ => True
        end).
Proof.
  intros Hcfg Hcc Harg Hrun.
  pose proof (default_disableTransactions client_cfg arg Hcc Harg) as Hd.
  rewrite <- Hcfg in Hd.
  destruct (wp_elim _ _ _ _ _ (latest_spec arg w) Hrun) as [He _].
  specialize (He Hd).
  assert (config w' = setConfig (Some (config w)) arg) as Hc'
    by (by destruct He as (-> & _)).
  apply extends_new_events in He.
  change (new_events (configured arg w) w') with (new_events w w') in He.
  rewrite Forall_forall in He. rewrite Hc'.
  split_and!; [done..| |].
  - intros n d h Hin Hno. destruct (He _ Hin) as (_ & _ & Hh).
    unfold op_handle_ok, _useTransaction in Hh. rewrite Hno, Hd in Hh. done.
  - intros h s Hin. specialize (He _ Hin).
    destruct s as [| | | |[|[]|]| | | | | |]; simpl in *; try done.
    + by apply He.
    + by destruct He.
    + by destruct He.
Qed.

(** ** Further properties of the migrator *)

(** *** What a chain keeps *)

Lemma keeps_resolve {X A} (f : World U -> X) (a : A) : keeps f (resolve a).
Proof. by intros w. Qed.

Lemma keeps_reject {X A} (f : World U -> X) e : keeps f (reject (A:=A) e).
Proof. by intros w. Qed.

Lemma keeps_then {X A B} (f : World U -> X) (p : Promise U A)
    (g : A -> Promise U B) :
  keeps f p -> (forall a, keeps f (g a)) -> keeps f (then_ p g).
Proof.
  intros Hp Hg w. unfold then_. specialize (Hp w).
  destruct (p w) as [[a|e] w1]; simpl in *; [|done]. by rewrite Hg.
Qed.

Lemma keeps_tap {X A B} (f : World U -> X) (p : Promise U A)
    (g : A -> Promise U B) :
  keeps f p -> (forall a, keeps f (g a)) -> keeps f (tap p g).
Proof.
  intros Hp Hg. unfold tap. apply keeps_then; [done|]. intros a.
  apply keeps_then; [done|]. intros _. apply keeps_resolve.
Qed.

Lemma keeps_catch {X A} (f : World U -> X) (p : Promise U A)
    (h : error -> Promise U A) :
  keeps f p -> (forall e, keeps f (h e)) -> keeps f (catch_ p h).
Proof.
  intros Hp Hh w. unfold catch_. specialize (Hp w).
  destruct (p w) as [[a|e] w1]; simpl in *; [done|]. by rewrite Hh.
Qed.

Lemma keeps_finally {X A B} (f : World U -> X) (p : Promise U A)
    (h : Promise U B) :
  keeps f p -> keeps f h -> keeps f (finally_ p h).
Proof.
  intros Hp Hh w. unfold finally_. specialize (Hp w).
  destruct (p w) as [r w1]; simpl in *. specialize (Hh w1).
  destruct (h w1) as [[b|e] w2]; simpl in *; congruence.
Qed.

Lemma keeps_transaction {X A} (f : World U -> X) (fn : handle -> Promise U A) :
  inert f -> (forall h, keeps f (fn h)) -> keeps f (transaction fn).
Proof.
  intros (He & Hd & Hn & _) Hfn w. unfold transaction.
  specialize (Hfn (Trx (next_trx w))
                (emit (EvBegin (next_trx w)) (set_next_trx (S (next_trx w)) w))).
  destruct (fn _ _) as [[a|e] w1]; simpl in *.
  - by rewrite He, Hfn, He, Hn.
  - by rewrite He, Hd, Hfn, He, Hn.
Qed.

Lemma keeps_issue {X A} (f : World U -> X) h s (run : Db U -> result A * Db U) :
  inert f -> keeps f (issue h s run).
Proof.
  intros (He & Hd & _ & Hi & _) w. unfold issue.
  destruct (fault_at w (issued w)); simpl; [by rewrite Hi, He|].
  destruct (run _) as [r d]; simpl. by rewrite Hd, Hi, He.
Qed.

Lemma keeps_warn {X} (f : World U -> X) msg : inert f -> keeps f (warn msg).
Proof. intros (He & _) w. apply He. Qed.

Lemma inert_config : inert (config (U:=U)).
Proof. by split_and!. Qed.


Lemma keeps_ensureTable {X} (f : World U -> X) trx :
  inert f -> keeps f (_ensureTable trx).
Proof.
  intros Hf. unfold _ensureTable, hasTable, _createMigrationTable,
    _createMigrationLockTable, createTable, select_lock, insert_lock.
  repeat first
    [ apply keeps_then; [|intros ?]
    | by apply keeps_issue
    | apply keeps_resolve
    | match goal with |- keeps _ (if ?b then _ else _) => destruct b end ].
Qed.

Lemma keeps_listCompleted {X} (f : World U -> X) trx :
  inert f -> keeps f (_listCompleted trx).
Proof.
  intros Hf. unfold _listCompleted. apply keeps_then; [by apply keeps_ensureTable|].
  intros _. by apply keeps_issue.
Qed.

Lemma keeps_getLock {X} (f : World U -> X) trx : inert f -> keeps f (_getLock trx).
Proof.
  intros Hf. unfold _getLock. apply keeps_catch; [|intros e; apply keeps_reject].
  assert (forall h, keeps f (lock_body h)) as Hbody.
  { intros h. unfold lock_body, _isLocked, _lockMigrations, select_lock, update_lock.
    apply keeps_then.
    - apply keeps_then; [by apply keeps_issue|].
      intros [|v rest]; [apply keeps_reject|apply keeps_resolve].
    - intros v. apply keeps_then; [|intros _; by apply keeps_issue].
      destruct (truthy v); [apply keeps_reject|apply keeps_resolve]. }
  destruct trx as [t|]; [apply Hbody|by apply keeps_transaction].
Qed.

Lemma keeps_freeLock {X} (f : World U -> X) trx : inert f -> keeps f (_freeLock trx).
Proof. intros Hf. by apply keeps_issue. Qed.

Lemma keeps_validate_all {X} (f : World U -> X) ms : keeps f (validate_all ms).
Proof.
  intros w. by destruct (wp_elim _ _ _ _ _ (validate_all_spec ms w)
                           (surjective_pairing _)) as [-> _].
Qed.

Lemma keeps_latestBatchNumber {X} (f : World U -> X) trx :
  inert f -> keeps f (_latestBatchNumber trx).
Proof.
  intros Hf. unfold _latestBatchNumber. apply keeps_then; [by apply keeps_issue|].
  intros obj. apply keeps_resolve.
Qed.

Lemma keeps_run_operation {X} (f : World U -> X) m d name h fn :
  inert f -> keeps f (default (resolve tt) fn) ->
  keeps f (run_operation m d name h fn).
Proof.
  intros Hf Hfn. unfold run_operation. apply keeps_then.
  - intros w. unfold invoke. destruct (m ≫= _) as [op|]; [|done].
    destruct (op h (user (db w))) as [value u]. destruct Hf as (He & Hd & _).
    destruct value; simpl; by rewrite Hd, He.
  - intros value. apply keeps_then.
    + unfold warnPromise. destruct value; try apply keeps_resolve.
      apply keeps_then; [by apply keeps_warn|]. intros _.
      apply keeps_then; [done|]. intros _. apply keeps_resolve.
    + intros v. destruct v; simpl; first [apply keeps_resolve|apply keeps_reject].
Qed.

Lemma keeps_waterfall_step {X} (f : World U -> X) c b d trx name :
  inert f -> keeps f (waterfall_step c b d trx name).
Proof.
  intros Hf. unfold waterfall_step. apply keeps_then.
  - destruct (bool_decide (trx = None) && _).
    + unfold _transaction. apply keeps_transaction; [done|]. intros h.
      apply (keeps_run_operation f _ d name h (Some (resolve tt))); [done|].
      apply keeps_resolve.
    + apply (keeps_run_operation f _ d name _ None); [done|]. apply keeps_resolve.
  - intros _. destruct d.
    + apply keeps_then; [|intros t; by apply keeps_issue].
      intros w. destruct Hf as (_ & _ & _ & _ & Hn). apply Hn.
    + by apply keeps_issue.
Qed.

Lemma keeps_waterfall_chain {X} (f : World U -> X) c b d trx ms log :
  inert f -> keeps f (waterfall_chain c b d trx ms log).
Proof.
  intros Hf. revert log. induction ms as [|n rest IH]; intros log; simpl.
  - apply keeps_resolve.
  - apply keeps_then; [by apply keeps_waterfall_step|]. intros _. apply IH.
Qed.

(** *** The list of the defined migrations *)

Lemma js_sort_elem n (l : list string) : n ∈ js_sort l <-> n ∈ l.
Proof. unfold js_sort. by rewrite merge_sort_Permutation. Qed.

Lemma listAll_elem (c : Config U) n :
  n ∈ listAll_of extname c
  <-> is_Some (migrationModules c !! n) /\ extname n ∈ loadExtensions c.
Proof.
  unfold listAll_of, Object_keys, includes.
  rewrite js_sort_elem, list_elem_of_filter, bool_decide_eq_true.
  rewrite list_elem_of_fmap. split.
  - intros [Hext ([k m] & -> & Hkm)]. split; [|done].
    apply elem_of_map_to_list in Hkm. by exists m.
  - intros [[m Hm] Hext]. split; [done|]. exists (n, m). split; [done|].
    by apply elem_of_map_to_list.
Qed.

(** X1. [_listAll] stores the configuration and returns the keys of
    [migrationModules] whose extension is one of [loadExtensions]: each of
    them once, in ascending order of strings. It issues nothing. *)
Theorem listAll_sorted_loadable arg w :
  let c := setConfig (Some (config w)) arg in
  exists l,
    _listAll extname arg w = (Ok l, configured arg w)
    /\ StronglySorted String.le l
    /\ NoDup l
    /\ forall n, n ∈ l
         <-> is_Some (migrationModules c !! n) /\ extname n ∈ loadExtensions c.
Proof.
  intros c. exists (listAll_of extname c). split_and!.
  - done.
  - unfold listAll_of, js_sort. apply StronglySorted_merge_sort; apply _.
  - unfold listAll_of, js_sort. rewrite merge_sort_Permutation.
    apply NoDup_filter. unfold Object_keys. apply NoDup_fst_map_to_list.
  - apply listAll_elem.
Qed.

(** *** The lazy repairs of [_ensureTable] *)

Lemma issue_run {A} h s (run : Db U -> result A * Db U) w r d :
  fault_at w (issued w) = None -> run (db w) = (r, d) ->
  issue h s run w
  = (r, set_db d (set_issued (S (issued w)) (emit (EvQuery h s) w))).
Proof.
  intros Hf Hrun. unfold issue. rewrite Hf.
  change (db (set_issued (S (issued w)) (emit (EvQuery h s) w))) with (db w).
  by rewrite Hrun.
Qed.

Lemma created_or_same_refl {T} fresh (t : option (list T)) :
  created_or_same fresh t t.
Proof. by left. Qed.

Lemma created_or_same_trans {T} fresh (t1 t2 t3 : option (list T)) :
  created_or_same fresh t1 t2 -> created_or_same fresh t2 t3 ->
  created_or_same fresh t1 t3.
Proof.
  intros [->|[H1 (l & Hl & ->)]] [->|[H2 (l' & Hl' & ->)]];
    [by left|right; eauto..].
Qed.

Lemma repaired_refl d : repaired d d.
Proof. split_and!; [done..|apply created_or_same_refl|apply created_or_same_refl]. Qed.

Lemma repaired_trans d1 d2 d3 : repaired d1 d2 -> repaired d2 d3 -> repaired d1 d3.
Proof.
  intros (Hu1 & Hn1 & Hm1 & Hl1) (Hu2 & Hn2 & Hm2 & Hl2).
  split_and!; [congruence..|by eapply created_or_same_trans|by eapply created_or_same_trans].
Qed.

#[local] Instance repaired_preorder : PreOrder repaired.
Proof. split; [intros d; apply repaired_refl|intros d1 d2 d3; apply repaired_trans]. Qed.

#[local] Instance same_lock_preorder : PreOrder same_lock.
Proof. split; [done|]. intros d1 d2 d3. unfold same_lock. congruence. Qed.

#[local] Instance same_records_preorder : PreOrder same_records.
Proof. split; [done|]. intros d1 d2 d3. unfold same_records. congruence. Qed.

Lemma moves_resolve R `{!PreOrder R} {A} (a : A) : moves R (resolve a).
Proof. by intros w. Qed.

Lemma moves_reject R `{!PreOrder R} {A} e : moves R (reject (A:=A) e).
Proof. by intros w. Qed.

Lemma moves_then R `{!PreOrder R} {A B} (p : Promise U A) (g : A -> Promise U B) :
  moves R p -> (forall a, moves R (g a)) -> moves R (then_ p g).
Proof.
  intros Hp Hg w. unfold then_. specialize (Hp w).
  destruct (p w) as [[a|e] w1]; simpl in *; [|done].
  etrans; [exact Hp|apply Hg].
Qed.

Lemma moves_issue R `{!PreOrder R} {A} h s (run : Db U -> result A * Db U) :
  (forall d, R d (run d).2) -> moves R (issue h s run).
Proof.
  intros Hrun w. unfold issue.
  destruct (fault_at w (issued w)); simpl; [done|].
  specialize (Hrun (db w)). by destruct (run (db w)) as [r d].
Qed.

Lemma moves_transaction R `{!PreOrder R} {A} (fn : handle -> Promise U A) :
  (forall h, moves R (fn h)) -> moves R (transaction fn).
Proof.
  intros Hfn w. unfold transaction.
  specialize (Hfn (Trx (next_trx w))
                (emit (EvBegin (next_trx w)) (set_next_trx (S (next_trx w)) w))).
  by destruct (fn _ _) as [[a|e] w1].
Qed.

Lemma mends_resolve {A} (a : A) : mends (resolve a).
Proof. apply (moves_resolve repaired). Qed.

Lemma mends_then {A B} (p : Promise U A) (g : A -> Promise U B) :
  mends p -> (forall a, mends (g a)) -> mends (then_ p g).
Proof. apply (moves_then repaired). Qed.

Lemma mends_issue {A} h s (run : Db U -> result A * Db U) :
  (forall d, repaired d (run d).2) -> mends (issue h s run).
Proof. apply (moves_issue repaired). Qed.

Lemma mends_createTable h t : mends (createTable h t).
Proof.
  apply mends_issue. intros [mt lt nid u].
  destruct t; simpl.
  - destruct mt; simpl; [apply repaired_refl|].
    split_and!; [done..| |apply created_or_same_refl].
    right. split; [done|]. exists []. split; [by left|done].
  - destruct lt; simpl; [apply repaired_refl|].
    split_and!; [done..|apply created_or_same_refl|].
    right. split; [done|]. exists []. split; [by left|done].
Qed.

Lemma mends_lock_row h :
  mends (then_ (select_lock h false) (fun data =>
           if bool_decide (data = []) then insert_lock h 0 else resolve tt)).
Proof.
  intros w. unfold then_, select_lock, insert_lock, issue.
  destruct (fault_at w (issued w)); simpl; [apply repaired_refl|].
  destruct (lock_table (db w)) as [[|l ls]|] eqn:Hlt; simpl;
    [|destruct (db w); apply repaired_refl..].
  destruct (fault_at w (S (issued w))); simpl;
    [destruct (db w); apply repaired_refl|].
  rewrite Hlt. simpl.
  split_and!; [done..|apply created_or_same_refl|]. simpl. rewrite Hlt.
  right. split; [done|]. exists [0]. split; [|done]. right. by left.
Qed.

Lemma mends_ensureTable trx : mends (_ensureTable trx).
Proof.
  unfold _ensureTable, hasTable, _createMigrationTable, _createMigrationLockTable.
  apply mends_then; [apply mends_issue; intros d; apply repaired_refl|]. intros b1.
  apply mends_then; [destruct (negb b1); [apply mends_createTable|apply mends_resolve]|].
  intros _.
  apply mends_then; [apply mends_issue; intros d; apply repaired_refl|]. intros b2.
  apply mends_then; [destruct (negb b2); [apply mends_createTable|apply mends_resolve]|].
  intros _. apply mends_lock_row.
Qed.

Lemma mends_listCompleted trx : mends (_listCompleted trx).
Proof.
  unfold _listCompleted. apply mends_then; [apply mends_ensureTable|]. intros _.
  apply mends_issue. intros d. unfold select_names.
  destruct (migrations_table d); apply repaired_refl.
Qed.

Lemma repaired_rows w w' :
  repaired (db w) (db w') -> applied_rows w' = applied_rows w.
Proof.
  intros (_ & _ & [Hm|[Hm (l & Hl & Hm')]] & _); unfold applied_rows.
  - by rewrite Hm.
  - rewrite Hm, Hm'. apply list_elem_of_singleton in Hl as ->. done.
Qed.

(** X2. Whatever its outcome, [_ensureTable] only looks up and repairs:
    the user's schema, the applied records and the rows of a lock table
    that has any are as before; a table is only ever created empty, and the
    only row ever inserted is the row 0 of a lock table that had none. *)
Theorem ensureTable_only_repairs trx w r w' :
  _ensureTable trx w = (r, w') ->
  Forall lazy_read (new_events w w')
  /\ user (db w') = user (db w)
  /\ applied_rows w' = applied_rows w
  /\ (forall rows, migrations_table (db w) = Some rows ->
        migrations_table (db w') = Some rows)
  /\ (forall l ls, lock_table (db w) = Some (l :: ls) ->
        lock_table (db w') = Some (l :: ls))
  /\ (lock_table (db w') = lock_table (db w)
      \/ lock_table (db w') = Some [] \/ lock_table (db w') = Some [0]).
Proof.
  intros Hrun.
  destruct (wp_elim _ _ _ _ _ (ensureTable_spec trx w) Hrun) as (He & _).
  pose proof (mends_ensureTable trx w) as Hm. rewrite Hrun in Hm. simpl in Hm.
  split_and!.
  - by apply extends_new_events.
  - by destruct Hm.
  - by apply repaired_rows.
  - intros rows Hmt. destruct Hm as (_ & _ & [->|[Hd (l & Hl & ->)]] & _); [done|].
    rewrite Hmt in Hd. simpl in Hd. subst rows.
    by apply list_elem_of_singleton in Hl as ->.
  - intros l ls Hlt. destruct Hm as (_ & _ & _ & [->|[Hd _]]); [done|].
    by rewrite Hlt in Hd.
  - destruct Hm as (_ & _ & _ & [->|[_ (l & Hl & ->)]]); [by left|right].
    apply elem_of_cons in Hl as [->|Hl]; [by left|right].
    by apply list_elem_of_singleton in Hl as ->.
Qed.

(** X3. [_ensureTable] is idempotent: once it has succeeded both tables
    exist and the lock table has a row, and running it again (on any
    handle, the driver not failing) is three look-ups that write nothing. *)
Theorem ensureTable_idempotent trx trx' w w1 :
  _ensureTable trx w = (Ok tt, w1) ->
  no_faults w ->
  (exists l ls,
     migrations_table (db w1) = Some (applied_rows w)
     /\ lock_table (db w1) = Some (l :: ls))
  /\ exists w2,
       _ensureTable trx' w1 = (Ok tt, w2)
       /\ db w2 = db w1
       /\ new_events w1 w2 = ensure_reads (default Knex trx').
Proof.
  intros Hrun Hnf.
  destruct (wp_elim _ _ _ _ _ (ensureTable_spec trx w) Hrun) as (He & Hdb & _).
  simpl in Hdb.
  assert (exists l ls, ensured_lock (lock_table (db w)) = l :: ls) as (l & ls & Hl).
  { destruct (lock_table (db w)) as [[|l ls]|]; simpl; eauto. }
  rewrite Hl in Hdb.
  assert (no_faults w1) as Hnf1.
  { intros k. destruct He as (_ & -> & _). apply Hnf. }
  split; [exists l, ls; by rewrite Hdb|].
  set (h := default Knex trx').
  set (wa := set_db (db w1) (set_issued (S (issued w1))
               (emit (EvQuery h (HasTable MigrationsTable)) w1))).
  set (wb := set_db (db w1) (set_issued (S (issued wa))
               (emit (EvQuery h (HasTable LockTable)) wa))).
  set (wc := set_db (db w1) (set_issued (S (issued wb))
               (emit (EvQuery h (SelectLock false)) wb))).
  assert (migrations_table (db w1) = Some (applied_rows w)) as Hmt1 by (by rewrite Hdb).
  assert (lock_table (db w1) = Some (l :: ls)) as Hlt1 by (by rewrite Hdb).
  exists wc. split_and!; [|done|].
  - unfold _ensureTable. fold h. unfold hasTable.
    erewrite then_Ok; [|apply issue_run; [apply Hnf1|reflexivity]]. fold wa.
    rewrite Hmt1. simpl.
    erewrite then_Ok; [|reflexivity].
    erewrite then_Ok; [|apply issue_run; [apply Hnf1|reflexivity]].
    change (db wa) with (db w1). fold wb. rewrite Hlt1. simpl.
    erewrite then_Ok; [|reflexivity].
    unfold select_lock.
    erewrite then_Ok; [|apply issue_run; [apply Hnf1|]].
    2:{ change (db wb) with (db w1). rewrite Hlt1. reflexivity. }
    reflexivity.
  - apply new_events_app. simpl. by rewrite <- !app_assoc.
Qed.

(** *** [forceFreeMigrationsLock] *)

(** X4. [forceFreeMigrationsLock], the driver not failing: when there is no
    lock table it looks that up and writes nothing (it does not create the
    table either); otherwise it sets every row of the lock table to 0,
    whoever holds the lock, and touches nothing else. After it, a lock
    table with a row can be locked again. *)
Theorem forceFree_releases arg w :
  no_faults w ->
  exists w',
    forceFreeMigrationsLock arg w = (Ok tt, w')
    /\ migrations_table (db w') = migrations_table (db w)
    /\ user (db w') = user (db w)
    /\ lock_table (db w') = released <$> lock_table (db w)
    /\ new_events w w'
       = EvQuery Knex (HasTable LockTable)
         :: match lock_table (db w) with
            | Some _ => [EvQuery Knex (UpdateLock 0)]
            | None => []
            end
    /\ forall l ls trx, lock_table (db w) = Some (l :: ls) ->
         (_getLock trx w').1 = Ok tt.
Proof.
  intros Hnf. unfold forceFreeMigrationsLock.
  rewrite (then_Ok _ _ w tt (configured arg w)) by done.
  unfold hasTable.
  erewrite then_Ok; [|apply issue_run; [apply Hnf|reflexivity]].
  set (w1 := set_db _ _).
  destruct (lock_table (db w)) as [rows|] eqn:Hlt.
  - rewrite bool_decide_eq_true_2 by (simpl; rewrite Hlt; by eexists).
    unfold _freeLock, update_lock.
    erewrite issue_run; [|apply Hnf|].
    2:{ change (db w1) with (db w). rewrite Hlt. reflexivity. }
    eexists. split; [reflexivity|]. simpl.
    split_and!; [done..| |].
    + apply new_events_app. simpl. by rewrite <- app_assoc.
    + intros l ls trx [= ->].
      set (w2 := set_db _ _).
      destruct (wp_elim _ _ _ _ _ (getLock_spec trx w2) (surjective_pairing _))
        as (_ & _ & _ & Hfree).
      rewrite Hfree; [done| |apply Hnf].
      unfold locking_read.
      change (fault_at w2 (issued w2)) with (fault_at w (S (S (issued w)))).
      by rewrite Hnf.
  - rewrite bool_decide_eq_false_2.
    2:{ simpl. rewrite Hlt. by intros [? ?]. }
    eexists. split; [reflexivity|]. simpl.
    split_and!; [done..| |done].
    by apply new_events_app.
Qed.

(** *** The stored configuration *)

Lemma keeps_get_config {X} (f : World U -> X) : keeps f get_config.
Proof. by intros w. Qed.

Lemma keeps_config_waterfallBatch b ms d trx :
  keeps config (_waterfallBatch b ms d trx).
Proof.
  unfold _waterfallBatch. apply keeps_then; [apply keeps_get_config|]. intros c.
  apply keeps_then.
  { intros w. unfold mark_active. simpl. by destruct (last ms). }
  intros _. apply keeps_then; [apply keeps_waterfall_chain, inert_config|].
  intros log. apply keeps_resolve.
Qed.

Lemma keeps_config_cleanup trx e : keeps config (runBatch_cleanup trx e).
Proof.
  unfold runBatch_cleanup. apply keeps_then; [apply keeps_get_config|]. intros c.
  apply keeps_then; [|intros _; apply keeps_reject].
  apply keeps_finally; [|apply keeps_reject].
  destruct (instanceof_LockError e).
  - apply keeps_then; [apply keeps_warn, inert_config|]. intros _.
    apply keeps_warn, inert_config.
  - apply keeps_then.
    { intros w. destruct (activeFileName w) as [f|]; [destruct (bool_decide _)|]; done. }
    intros _. apply keeps_then; [apply keeps_warn, inert_config|]. intros _.
    apply keeps_freeLock, inert_config.
Qed.

Lemma keeps_config_runBatch ms d trx : keeps config (_runBatch ms d trx).
Proof.
  unfold _runBatch. apply keeps_catch; [|intros e; apply keeps_config_cleanup].
  unfold runBatch_chain. apply keeps_then; [apply keeps_getLock, inert_config|].
  intros _. apply keeps_then.
  { destruct trx; [apply keeps_listCompleted, inert_config|apply keeps_resolve]. }
  intros completed. apply keeps_then; [apply keeps_validate_all|]. intros _.
  apply keeps_then; [apply keeps_latestBatchNumber, inert_config|]. intros b.
  apply keeps_tap; [apply keeps_config_waterfallBatch|]. intros _.
  apply keeps_freeLock, inert_config.
Qed.

Lemma keeps_config_listAll : keeps config (_listAll extname None).
Proof. intros w. by rewrite listAll_run. Qed.

Lemma keeps_config_data :
  keeps config (tap (_migrationData extname) validateMigrationList).
Proof.
  apply keeps_tap.
  - unfold _migrationData. apply keeps_then; [apply keeps_config_listAll|].
    intros all. apply keeps_then; [apply keeps_listCompleted, inert_config|].
    intros completed. apply keeps_resolve.
  - intros data. unfold validateMigrationList.
    destruct (bool_decide _); [apply keeps_resolve|apply keeps_reject].
Qed.

Lemma stores_config {A} (p : Promise U A) arg w :
  keeps config p ->
  config (then_ (use_config arg) (fun _ => p) w).2 = setConfig (Some (config w)) arg.
Proof. intros Hp. apply (Hp (configured arg w)). Qed.

(** X5. Every entry point of the migrator stores
    [assign({}, CONFIG_DEFAULT, this.config, config)] before anything else,
    and nothing it goes on to do changes [this.config]: whatever the
    outcome, the configuration left behind is the old one overridden by the
    keys of the argument. A later call without an argument keeps it. *)
Theorem entry_points_store_config arg w :
  let c := setConfig (Some (config w)) arg in
  config (latest extname arg w).2 = c
  /\ config (rollback extname arg w).2 = c
  /\ config (status extname arg w).2 = c
  /\ config (currentVersion arg w).2 = c
  /\ config (forceFreeMigrationsLock arg w).2 = c
  /\ config (_listAll extname arg w).2 = c
  /\ (forall name, config (make name arg w).2 = c)
  /\ setConfig (Some c) None = c.
Proof.
  intros c. split_and!; [| | | | |done| |done].
  - unfold latest. apply stores_config.
    apply keeps_then; [apply keeps_config_data|]. intros [all completed].
    apply keeps_then; [apply keeps_get_config|]. intros c0.
    destruct (negb _ && _); [|apply keeps_config_runBatch].
    apply keeps_transaction; [apply inert_config|]. intros h.
    apply keeps_config_runBatch.
  - unfold rollback. apply stores_config.
    apply keeps_then; [apply keeps_config_data|]. intros _.
    apply keeps_then; [apply keeps_issue, inert_config|]. intros migrations.
    apply keeps_config_runBatch.
  - unfold status. apply stores_config.
    apply keeps_then; [apply keeps_config_listAll|]. intros code.
    apply keeps_then; [apply keeps_issue, inert_config|]. intros rows.
    apply keeps_resolve.
  - unfold currentVersion. apply stores_config.
    apply keeps_then; [apply keeps_listCompleted, inert_config|]. intros completed.
    apply keeps_resolve.
  - unfold forceFreeMigrationsLock. apply stores_config.
    apply keeps_then; [apply keeps_issue, inert_config|]. intros [|];
      [apply keeps_freeLock, inert_config|apply keeps_resolve].
  - intros name. unfold make. apply stores_config.
    destruct (bool_decide _); apply keeps_reject.
Qed.

(** *** The structure of the migrations is checked first *)

Lemma wp_then_eq {A B} (p : Promise U A) (f : A -> Promise U B) w Q :
  (forall r w1, p w = (r, w1) ->
     match r with
     | Ok a => wp (f a) w1 Q
     | Err e => Q (Err e) w1
     end) ->
  wp (then_ p f) w Q.
Proof.
  intros H. unfold wp, then_ in *. destruct (p w) as [r w1] eqn:Hp.
  specialize (H r w1 eq_refl). by destruct r.
Qed.

Lemma lock_event_no_operation e : lock_event e -> no_operation e.
Proof. by destruct e. Qed.

Lemma lazy_read_no_operation e : lazy_read e -> no_operation e.
Proof. by destruct e. Qed.

Lemma cleanup_event_no_operation trx e : cleanup_event trx e -> no_operation e.
Proof. by destruct e. Qed.

Lemma validate_all_ok ms w :
  (forall n, n ∈ ms ->
     exists m, migrationModules (config w) !! n = Some m /\ well_formed m) ->
  validate_all ms w = (Ok ms, w).
Proof.
  induction ms as [|n rest IH]; intros Hall; simpl; [done|].
  destruct (Hall n ltac:(by left)) as (m & Hm & Hu & Hd).
  unfold then_ at 1, _validateMigrationStructure, then_ at 1, get_config.
  rewrite Hm.
  rewrite bool_decide_eq_false_2 by (intros Hn; rewrite Hn in Hu; by destruct Hu).
  rewrite bool_decide_eq_false_2 by (intros Hn; rewrite Hn in Hd; by destruct Hd).
  simpl. unfold then_. rewrite IH; [done|]. intros x Hx. apply Hall. by right.
Qed.

Lemma not_well_formed (m : Migration U) :
  ~ well_formed m ->
  bool_decide (up m = None) || bool_decide (down m = None) = true.
Proof.
  intros Hn. destruct (up m) as [u|] eqn:Hu; [|done].
  destruct (down m) as [d|] eqn:Hd; [|done].
  destruct Hn. unfold well_formed. rewrite Hu, Hd. by split.
Qed.

Lemma validate_all_fails ms w :
  (exists n, n ∈ ms
     /\ forall m, migrationModules (config w) !! n = Some m -> ~ well_formed m) ->
  exists e,
    validate_all ms w = (Err e, w)
    /\ instanceof_LockError e = false
    /\ ((forall n, n ∈ ms -> is_Some (migrationModules (config w) !! n)) ->
        exists n m, n ∈ ms /\ migrationModules (config w) !! n = Some m
          /\ ~ well_formed m /\ e = Error (invalid_message n)).
Proof.
  induction ms as [|n rest IH]; intros (n0 & Hin & Hbad);
    [by apply elem_of_nil in Hin|].
  simpl. unfold then_ at 1, _validateMigrationStructure, then_ at 1, get_config.
  destruct (migrationModules (config w) !! n) as [m|] eqn:Hm.
  2:{ eexists. split; [reflexivity|]. split; [done|]. intros Hall.
      destruct (Hall n ltac:(by left)) as [m Hm']. congruence. }
  destruct (bool_decide (up m = None) || bool_decide (down m = None)) eqn:Hwf.
  { eexists. split; [reflexivity|]. split; [done|]. intros _.
    exists n, m. split_and!; [by left|done| |done].
    intros [[u Hu] [d Hd]]. by rewrite Hu, Hd in Hwf. }
  simpl. apply elem_of_cons in Hin as [->|Hin].
  { specialize (Hbad m Hm). apply not_well_formed in Hbad. congruence. }
  destruct (IH (ex_intro _ n0 (conj Hin Hbad))) as (e & Hrun & He & Hmsg).
  exists e. unfold then_. rewrite Hrun. split; [done|]. split; [done|].
  intros Hall. destruct Hmsg as (n' & m' & Hn' & Hm' & Hbad' & ->).
  { intros x Hx. apply Hall. by right. }
  exists n', m'. split_and!; [by right|done..].
Qed.

Lemma freeLock_run trx w :
  let w1 := set_issued (S (issued w))
              (emit (EvQuery (default Knex trx) (UpdateLock 0)) w) in
  _freeLock trx w
  = match fault_at w (issued w), lock_table (db w) with
    | Some msg, _ => (Err (Error msg), w1)
    | None, Some rows =>
        (Ok tt, set_db (set_lock_table (Some (released rows)) (db w)) w1)
    | None, None => (Err (Error "no such table"), set_db (db w) w1)
    end.
Proof.
  unfold _freeLock, update_lock, issue. simpl.
  destruct (fault_at w (issued w)); [done|].
  by destruct (lock_table (db w)).
Qed.

(** What the [.catch] handler of [_runBatch] does to the tables. *)
Lemma cleanup_db trx e w :
  wp (runBatch_cleanup trx e) w (fun _ w' =>
    user (db w') = user (db w)
    /\ migrations_table (db w') = migrations_table (db w)
    /\ (instanceof_LockError e = false ->
        fault_at w (issued w) = None ->
        forall rows, lock_table (db w) = Some rows ->
          lock_table (db w') = Some (released rows))).
Proof.
  unfold runBatch_cleanup. apply wp_then, wp_get_config.
  apply wp_finally_reject. destruct (instanceof_LockError e).
  - apply wp_then, wp_warn, wp_warn. by split_and!.
  - apply wp_then.
    assert (wp (fun w0 : World U =>
                  match activeFileName w0 with
                  | Some fileName =>
                      if bool_decide (fileName = "") then resolve tt w0
                      else warn ("migration file " +:+ dquote +:+ fileName
                                 +:+ dquote +:+ " failed") w0
                  | None => resolve tt w0
                  end) w
              (fun r w1 => r = Ok tt /\ db w1 = db w /\ issued w1 = issued w
                           /\ fault_at w1 = fault_at w)) as Hw.
    { unfold wp. destruct (activeFileName w) as [f|];
        [destruct (bool_decide (f = ""))|]; simpl; done. }
    eapply wp_mono; [exact Hw|]. intros r w1 (-> & Hdb1 & Hi1 & Hf1).
    apply wp_then, wp_warn. set (w2 := emit _ w1).
    unfold wp. rewrite freeLock_run.
    change (fault_at w2 (issued w2)) with (fault_at w1 (issued w1)).
    change (db w2) with (db w1). rewrite Hf1, Hi1, Hdb1.
    subst w2.
    destruct (fault_at w (issued w)) as [msg|]; simpl;
      [rewrite Hdb1; by split_and!|].
    destruct (lock_table (db w)) as [rows|]; simpl; [|by split_and!].
    split_and!; [done..|]. by intros _ _ rows' [= ->].
Qed.

Lemma runBatch_chain_invalid ms d trx w :
  (exists n, n ∈ target_of trx ms w
     /\ forall m, migrationModules (config w) !! n = Some m -> ~ well_formed m) ->
  wp (runBatch_chain ms d trx) w (fun r w1 =>
    extends no_operation w w1
    /\ user (db w1) = user (db w)
    /\ applied_rows w1 = applied_rows w
    /\ exists e, r = Err e
       /\ (no_faults w -> locking_read w = Some 0 ->
           instanceof_LockError e = false
           /\ (exists rows, lock_table (db w1) = Some rows)
           /\ ((forall n, n ∈ target_of trx ms w ->
                  is_Some (migrationModules (config w) !! n)) ->
               exists n m, n ∈ target_of trx ms w
                 /\ migrationModules (config w) !! n = Some m
                 /\ ~ well_formed m /\ e = Error (invalid_message n)))).
Proof.
  intros Hbad. unfold runBatch_chain. apply wp_then.
  eapply wp_mono; [apply getLock_spec|]. intros r w1 (He1 & Hout & _ & Hfree).
  assert (extends no_operation w w1) as He1'
    by (eapply extends_mono; [apply lock_event_no_operation|done]).
  destruct r as [[]|e].
  2:{ destruct Hout as [[e0 ->] Hdb].
      split_and!; [done|by rewrite Hdb|unfold applied_rows; by rewrite Hdb|].
      eexists. split; [done|]. intros Hnf Hlr.
      specialize (Hfree Hlr (Hnf _)). discriminate. }
  destruct Hout as (rest & Hlt & Hdb1).
  assert (applied_rows w1 = applied_rows w) as Hrows1
    by (unfold applied_rows; by rewrite Hdb1).
  apply wp_then_eq. intros r w2 Hread.
  assert (extends no_operation w w2
          /\ repaired (db w1) (db w2)
          /\ match r with
             | Ok completed => difference ms completed = target_of trx ms w
             | Err e => True
             end
          /\ (no_faults w -> is_Ok r = true)) as (He2 & Hm & Hr & Hok).
  { destruct trx as [t|].
    - destruct (wp_elim _ _ _ _ _ (listCompleted_spec (Some t) w1) Hread)
        as (He2 & Hr & Hok).
      pose proof (mends_listCompleted (Some t) w1) as Hm.
      rewrite Hread in Hm. simpl in Hm.
      split_and!; [|done| |].
      + eapply extends_trans; [exact He1'|].
        eapply extends_mono; [apply lazy_read_no_operation|exact He2].
      + destruct r as [cs|e]; [|done]. destruct Hr as [-> _].
        unfold target_of, applied_names. by rewrite Hrows1.
      + intros Hnf. apply Hok. intros k. destruct He1 as (_ & -> & _). apply Hnf.
    - injection Hread as <- <-.
      split_and!; [done|apply repaired_refl|apply difference_nil|done]. }
  assert (user (db w2) = user (db w)) as Hu2.
  { destruct Hm as (-> & _). by rewrite Hdb1. }
  assert (applied_rows w2 = applied_rows w) as Hrows2.
  { rewrite <- Hrows1. by apply repaired_rows. }
  assert (exists rows, lock_table (db w2) = Some rows) as Hlt2.
  { destruct Hm as (_ & _ & _ & [->|[_ (l & _ & ->)]]); [|by eexists].
    rewrite Hdb1. by eexists. }
  destruct r as [completed|e].
  2:{ split_and!; [done..|]. eexists. split; [done|]. intros Hnf _.
      by specialize (Hok Hnf). }
  rewrite Hr. clear Hr.
  assert (config w2 = config w) as Hc2 by (by destruct He2 as (-> & _)).
  destruct (validate_all_fails (target_of trx ms w) w2) as (e & Hval & He & Hmsg).
  { by rewrite Hc2. }
  rewrite Hc2 in Hmsg.
  unfold wp. rewrite (then_Err _ _ _ _ _ Hval). simpl.
  split_and!; [done..|]. exists e. split; [done|]. intros _ _. by split_and!.
Qed.

(** X6. The structure of every migration of a batch is checked before any
    of them runs. When one of the target migrations lacks its [up] or its
    [down] (or is no module at all), [_runBatch] fails whatever else
    happens, and no operation of any migration has run: the user's schema
    and the applied records are as before. When the driver does not fail,
    the lock was free and the modules are there, the error names such a
    migration, and the run ends by releasing the lock. *)
Theorem runBatch_validates_first ms d trx w r w' :
  _runBatch ms d trx w = (r, w') ->
  (exists n, n ∈ target_of trx ms w
     /\ forall m, migrationModules (config w) !! n = Some m -> ~ well_formed m) ->
  (exists e, r = Err e)
  /\ Forall no_operation (new_events w w')
  /\ user (db w') = user (db w)
  /\ applied_rows w' = applied_rows w
  /\ (no_faults w -> locking_read w = Some 0 ->
      (forall n, n ∈ target_of trx ms w ->
         is_Some (migrationModules (config w) !! n)) ->
      (exists n m, n ∈ target_of trx ms w
         /\ migrationModules (config w) !! n = Some m
         /\ ~ well_formed m /\ r = Err (Error (invalid_message n)))
      /\ last (trace w') = Some (EvQuery (default Knex trx) (UpdateLock 0))
      /\ exists rows, lock_table (db w') = Some (released rows)).
Proof.
  intros Hrun Hbad. unfold _runBatch, catch_ in Hrun.
  destruct (runBatch_chain ms d trx w) as [r1 w1] eqn:Hchain.
  destruct (wp_elim _ _ _ _ _ (runBatch_chain_invalid ms d trx w Hbad) Hchain)
    as (He1 & Hu1 & Hrows1 & e & -> & Hnf1).
  destruct (wp_elim _ _ _ _ _ (cleanup_spec trx e w1) Hrun) as (-> & He2 & Hlast).
  destruct (wp_elim _ _ _ _ _ (cleanup_db trx e w1) Hrun) as (Hu2 & Hmt2 & Hrel).
  split_and!.
  - by eexists.
  - apply extends_new_events. eapply extends_trans; [exact He1|].
    eapply extends_mono; [apply cleanup_event_no_operation|exact He2].
  - congruence.
  - rewrite <- Hrows1. unfold applied_rows. by rewrite Hmt2.
  - intros Hnf Hfree Hmods.
    destruct (Hnf1 Hnf Hfree) as (He & (rows & Hlt) & Hmsg).
    rewrite He in Hlast. split_and!; [|done|].
    + destruct (Hmsg Hmods) as (n & m & ? & ? & ? & ->). by exists n, m.
    + exists rows. apply Hrel; [done| |done].
      destruct He1 as (_ & -> & _). apply Hnf.
Qed.

(** *** Runs in which nothing fails *)

Lemma run_operation_ok (m : Migration U) d name h fn w :
  settles m d -> default (resolve tt) fn = resolve tt ->
  (run_operation (Some m) d name h fn w).1 = Ok tt.
Proof.
  intros (op & Hop & Hs) Hfn. unfold run_operation, then_, invoke. simpl.
  rewrite Hop. specialize (Hs h (user (db w))).
  destruct (op h (user (db w))) as [value u]. simpl in Hs.
  destruct Hs as [-> | ->]; simpl; [done|].
  unfold then_, warn. by rewrite Hfn.
Qed.

Lemma transaction_ok {A} (fn : handle -> Promise U A) (a : A) w :
  (forall h w0, (fn h w0).1 = Ok a) -> (transaction fn w).1 = Ok a.
Proof.
  intros Hfn. unfold transaction.
  specialize (Hfn (Trx (next_trx w))
                (emit (EvBegin (next_trx w)) (set_next_trx (S (next_trx w)) w))).
  destruct (fn _ _) as [[a'|e] w1]; simpl in *; congruence.
Qed.

Lemma extends_no_faults P w w' : extends P w w' -> no_faults w -> no_faults w'.
Proof. intros (_ & Hf & _) Hnf k. rewrite Hf. apply Hnf. Qed.

Lemma waterfall_step_ok c b d trx name (m : Migration U) w :
  no_faults w -> is_Some (migrations_table (db w)) ->
  migrationModules c !! name = Some m -> settles m d ->
  (waterfall_step c b d trx name w).1 = Ok tt.
Proof.
  intros Hnf [rows Hmt] Hm Hs. unfold waterfall_step. rewrite Hm.
  set (op := if bool_decide (trx = None) && _ then _ else _).
  assert (exists w1, op w = (Ok tt, w1) /\ no_faults w1
                     /\ migrations_table (db w1) = Some rows) as (w1 & Hop & Hnf1 & Hmt1).
  { subst op. destruct (bool_decide (trx = None) && _).
    - pose proof (transaction_spec (Some m) d name w) as Hspec.
      assert ((_transaction (Some m) d name w).1 = Ok tt) as Hok.
      { unfold _transaction. apply transaction_ok. intros h w0.
        apply (run_operation_ok m d name h (Some (resolve tt))); done. }
      unfold wp in Hspec. destruct (_transaction _ _ _ w) as [r w1].
      simpl in Hok, Hspec. subst r. destruct Hspec as (He & (u & Hdb) & _).
      exists w1. split_and!; [done|by eapply extends_no_faults|].
      by rewrite Hdb.
    - pose proof (run_operation_spec (Some m) d name (default Knex trx) None w eq_refl)
        as Hspec.
      pose proof (run_operation_ok m d name (default Knex trx) None w Hs eq_refl) as Hok.
      unfold wp in Hspec.
      change (then_ (invoke (Some m) d name (default Knex trx)) _)
        with (run_operation (Some m) d name (default Knex trx) None).
      destruct (run_operation _ _ _ _ _ w) as [r w1].
      simpl in Hok, Hspec. subst r. destruct Hspec as (He & (u & Hdb) & _).
      exists w1. split_and!; [done|by eapply extends_no_faults|].
      by rewrite Hdb. }
  rewrite (then_Ok _ _ _ _ _ Hop).
  destruct d.
  - unfold then_ at 1, Date_now. unfold insert_record.
    erewrite issue_run; [done|apply Hnf1|]. simpl. by rewrite Hmt1.
  - unfold delete_record.
    erewrite issue_run; [done|apply Hnf1|]. by rewrite Hmt1.
Qed.

Lemma waterfall_chain_ok c b d trx ms log w :
  no_faults w -> is_Some (migrations_table (db w)) ->
  (forall n, n ∈ ms ->
     exists m, migrationModules c !! n = Some m /\ settles m d) ->
  is_Ok (waterfall_chain c b d trx ms log w).1 = true.
Proof.
  revert log w. induction ms as [|n rest IH]; intros log w Hnf Hmt Hall; [done|].
  simpl. destruct (Hall n ltac:(by left)) as (m & Hm & Hs).
  pose proof (waterfall_step_ok c b d trx n m w Hnf Hmt Hm Hs) as Hok.
  pose proof (waterfall_step_spec c b d trx n w) as Hspec. unfold wp in Hspec.
  unfold then_. destruct (waterfall_step c b d trx n w) as [r w1].
  simpl in Hok, Hspec. subst r. destruct Hspec as (He & _ & _ & rows & rows' & _ & Hmt' & _).
  apply IH; [by eapply extends_no_faults|by rewrite Hmt'|].
  intros x Hx. apply Hall. by right.
Qed.

Lemma moves_warn R `{!PreOrder R} msg : moves R (warn msg).
Proof. by intros w. Qed.

Lemma moves_run_operation R `{!PreOrder R} m d name h fn :
  (forall u dd, R dd (set_user u dd)) ->
  moves R (default (resolve tt) fn) ->
  moves R (run_operation m d name h fn).
Proof.
  intros HR Hfn. unfold run_operation. apply (moves_then R).
  - intros w. unfold invoke. destruct (m ≫= _) as [op|]; [|done].
    destruct (op h (user (db w))) as [value u].
    destruct value; simpl; apply HR.
  - intros value. apply (moves_then R).
    + unfold warnPromise. destruct value; try apply (moves_resolve R).
      apply (moves_then R); [apply (moves_warn R)|]. intros _.
      apply (moves_then R); [done|]. intros _. apply (moves_resolve R).
    + intros v. destruct v; simpl;
        first [apply (moves_resolve R)|apply (moves_reject R)].
Qed.

Lemma moves_step_operation R `{!PreOrder R} c d trx name :
  (forall u dd, R dd (set_user u dd)) ->
  moves R (if bool_decide (trx = None)
              && _useTransaction (migrationModules c !! name)
                   (Some (disableTransactions c))
           then _transaction (migrationModules c !! name) d name
           else run_operation (migrationModules c !! name) d name
                  (default Knex trx) None).
Proof.
  intros HR. destruct (bool_decide (trx = None) && _).
  - unfold _transaction. apply (moves_transaction R). intros h.
    apply (moves_run_operation R _ d name h (Some (resolve tt))); [done|].
    apply (moves_resolve R).
  - apply (moves_run_operation R _ d name _ None); [done|].
    apply (moves_resolve R).
Qed.

Lemma same_lock_user u (dd : Db U) : same_lock dd (set_user u dd).
Proof. by destruct dd. Qed.

Lemma same_records_user u (dd : Db U) : same_records dd (set_user u dd).
Proof. by destruct dd. Qed.

Lemma same_lock_step c b d trx name :
  moves same_lock (waterfall_step c b d trx name).
Proof.
  unfold waterfall_step. apply (moves_then same_lock).
  - apply (moves_step_operation same_lock c d trx name), same_lock_user.
  - intros _. destruct d.
    + apply (moves_then same_lock); [by intros w|]. intros t.
      apply (moves_issue same_lock). intros dd.
      by destruct (migrations_table dd).
    + apply (moves_issue same_lock). intros dd.
      by destruct (migrations_table dd).
Qed.

Lemma same_lock_chain c b d trx ms log :
  moves same_lock (waterfall_chain c b d trx ms log).
Proof.
  revert log. induction ms as [|n rest IH]; intros log; simpl.
  - apply (moves_resolve same_lock).
  - apply (moves_then same_lock); [apply same_lock_step|]. intros _. apply IH.
Qed.

Lemma latestBatchNumber_run trx w rows :
  fault_at w (issued w) = None -> migrations_table (db w) = Some rows ->
  exists w', _latestBatchNumber trx w = (Ok (batch_or_zero rows), w')
    /\ db w' = db w /\ fault_at w' = fault_at w /\ config w' = config w.
Proof.
  intros Hf Hmt. unfold _latestBatchNumber, select_max_batch.
  erewrite then_Ok; [|apply issue_run; [done|by rewrite Hmt]].
  eexists. split; [reflexivity|]. by split_and!.
Qed.

Lemma waterfallBatch_ok b ms d trx w :
  no_faults w -> is_Some (migrations_table (db w)) ->
  (forall n, n ∈ ms ->
     exists m, migrationModules (config w) !! n = Some m /\ settles m d) ->
  exists w',
    _waterfallBatch b ms d trx w = (Ok (b, ms), w')
    /\ lock_table (db w') = lock_table (db w) /\ no_faults w'.
Proof.
  intros Hnf Hmt Hall. unfold _waterfallBatch.
  unfold then_ at 1, get_config. unfold then_ at 1, mark_active.
  set (w1 := match last ms with Some name => _ | None => w end).
  assert (no_faults w1) as Hnf1 by (subst w1; by destruct (last ms)).
  assert (db w1 = db w) as Hdb1 by (subst w1; by destruct (last ms)).
  pose proof (waterfall_chain_ok (config w) b d trx ms [] w1 Hnf1) as Hok.
  rewrite Hdb1 in Hok. specialize (Hok Hmt Hall).
  pose proof (waterfall_chain_spec (config w) b d trx ms ms [] w1 ltac:(done))
    as Hspec.
  pose proof (same_lock_chain (config w) b d trx ms [] w1) as Hlock.
  unfold wp in Hspec. unfold then_.
  destruct (waterfall_chain (config w) b d trx ms [] w1) as [[log|e] w2];
    [|done].
  simpl in *. destruct Hspec as (He & -> & _).
  exists w2. split_and!; [done|by rewrite Hlock, Hdb1|by eapply extends_no_faults].
Qed.

Lemma runBatch_chain_ok ms d trx w :
  no_faults w -> locking_read w = Some 0 ->
  is_Some (migrations_table (db w)) ->
  (forall n, n ∈ target_of trx ms w ->
     exists m, migrationModules (config w) !! n = Some m
       /\ well_formed m /\ settles m d) ->
  exists res w', runBatch_chain ms d trx w = (Ok res, w').
Proof.
  intros Hnf Hfree [rows Hmt] Hall. unfold runBatch_chain.
  pose proof (getLock_spec trx w) as Hlock. unfold wp in Hlock.
  destruct (_getLock trx w) as [r w1] eqn:Hgl. simpl in Hlock.
  destruct Hlock as (He1 & Hout & _ & Hok). rewrite (Hok Hfree (Hnf _)) in *.
  destruct Hout as (rest & Hlt & Hdb1).
  rewrite (then_Ok _ _ _ _ _ Hgl).
  assert (no_faults w1) as Hnf1 by (by eapply extends_no_faults).
  assert (migrations_table (db w1) = Some rows) as Hmt1 by (by rewrite Hdb1).
  assert (applied_names w1 = applied_names w) as Hnames1
    by (unfold applied_names, applied_rows; by rewrite Hmt1, Hmt).
  assert (exists completed w2,
            match trx with
            | Some _ => _listCompleted trx
            | None => resolve []
            end w1 = (Ok completed, w2)
            /\ difference ms completed = target_of trx ms w
            /\ no_faults w2 /\ config w2 = config w
            /\ migrations_table (db w2) = Some rows
            /\ is_Some (lock_table (db w2))) as
    (completed & w2 & Hread & Hdiff & Hnf2 & Hc2 & Hmt2 & Hlt2).
  { destruct trx as [t|].
    - pose proof (listCompleted_spec (Some t) w1) as Hspec. unfold wp in Hspec.
      destruct (_listCompleted (Some t) w1) as [r2 w2].
      destruct Hspec as (He2 & Hr & Hok2). simpl in *.
      destruct r2 as [cs|e]; [|by specialize (Hok2 Hnf1)].
      destruct Hr as [-> Hdb2]. exists (applied_names w1), w2.
      split_and!; [done|by rewrite Hnames1|by eapply extends_no_faults| | |].
      + destruct He2 as (-> & _). by destruct He1 as (-> & _).
      + rewrite Hdb2. simpl. unfold applied_rows. by rewrite Hmt1.
      + rewrite Hdb2. by eexists.
    - exists [], w1. split_and!; [done|apply difference_nil|done| |done|].
      + by destruct He1 as (-> & _).
      + rewrite Hdb1. by eexists. }
  rewrite (then_Ok _ _ _ _ _ Hread). rewrite Hdiff.
  erewrite then_Ok.
  2:{ apply validate_all_ok. rewrite Hc2. intros n Hn.
      destruct (Hall n Hn) as (m & ? & ? & _). eauto. }
  destruct (latestBatchNumber_run trx w2 rows (Hnf2 _) Hmt2)
    as (w3 & Hbn & Hdb3 & Hf3 & Hc3).
  rewrite (then_Ok _ _ _ _ _ Hbn).
  assert (no_faults w3) as Hnf3 by (intros k; rewrite Hf3; apply Hnf2).
  set (b := match d with Up => _ | Down => _ end).
  destruct (waterfallBatch_ok b (target_of trx ms w) d trx w3 Hnf3)
    as (w4 & Hwb & Hlt4 & Hnf4).
  { rewrite Hdb3, Hmt2. by eexists. }
  { rewrite Hc3, Hc2. intros n Hn. destruct (Hall n Hn) as (m & ? & _ & ?). eauto. }
  unfold tap. rewrite (then_Ok _ _ _ _ _ Hwb).
  rewrite Hdb3 in Hlt4. destruct Hlt2 as [lrows Hlt2]. rewrite Hlt2 in Hlt4.
  unfold then_. rewrite freeLock_run, Hnf4, Hlt4. by eexists _, _.
Qed.

Lemma runBatch_ok ms d trx w :
  no_faults w -> locking_read w = Some 0 ->
  is_Some (migrations_table (db w)) ->
  (forall n, n ∈ target_of trx ms w ->
     exists m, migrationModules (config w) !! n = Some m
       /\ well_formed m /\ settles m d) ->
  exists res w',
    _runBatch ms d trx w = (Ok res, w') /\ batch_done ms d trx w res w'.
Proof.
  intros Hnf Hfree Hmt Hall.
  destruct (runBatch_chain_ok ms d trx w Hnf Hfree Hmt Hall) as (res & w' & Hrun).
  exists res, w'. split.
  - unfold _runBatch, catch_. by rewrite Hrun.
  - by destruct (wp_elim _ _ _ _ _ (runBatch_chain_spec ms d trx w) Hrun).
Qed.

Lemma difference_nil_subseteq (l k : list string) : difference l k = [] -> l ⊆ k.
Proof.
  intros Hd x Hx. destruct (decide (x ∈ k)) as [|Hn]; [done|].
  assert (x ∈ difference l k) as Hin by (by apply list_elem_of_difference).
  rewrite Hd in Hin. by apply elem_of_nil in Hin.
Qed.

Lemma elem_of_new_events w w1 w2 w' (e : event) :
  (exists a, trace w1 = trace w ++ a) ->
  (exists b, trace w2 = trace w1 ++ b) ->
  (exists c, trace w' = trace w2 ++ c) ->
  e ∈ new_events w1 w2 -> e ∈ new_events w w'.
Proof.
  intros [a Ha] [b Hb] [c Hc]. rewrite (new_events_app _ _ _ Hb).
  rewrite (new_events_app w w' (a ++ b ++ c)).
  - intros ?. rewrite !elem_of_app. auto.
  - rewrite Hc, Hb, Ha. by rewrite <- !app_assoc.
Qed.

Lemma extends_trace P w w' : extends P w w' -> exists evs, trace w' = trace w ++ evs.
Proof. intros (_ & _ & evs & Ht & _). by exists evs. Qed.

(** The reads with which [latest] and [rollback] start, when the driver
    does not fail and every applied name is defined. *)
Lemma validated_data_run arg w :
  no_faults w ->
  difference (applied_names w)
             (listAll_of extname (setConfig (Some (config w)) arg)) = [] ->
  exists w1,
    tap (_migrationData extname) validateMigrationList (configured arg w)
    = (Ok (listAll_of extname (setConfig (Some (config w)) arg), applied_names w), w1)
    /\ config w1 = setConfig (Some (config w)) arg
    /\ db w1 = mkDb (Some (applied_rows w)) (Some (ensured_lock (lock_table (db w))))
                    (next_id (db w)) (user (db w))
    /\ no_faults w1
    /\ exists evs, trace w1 = trace w ++ evs.
Proof.
  intros Hnf Hvalid.
  destruct (listCompleted_configured arg w Hnf) as (w1 & Hlc & Hc1 & Hdb1 & _).
  destruct (wp_elim _ _ _ _ _ (listCompleted_spec None (configured arg w)) Hlc)
    as (He & _).
  exists w1. split_and!; [|done|done| |].
  - unfold tap. erewrite then_Ok; [|by apply migrationData_run].
    unfold validateMigrationList. simpl.
    rewrite bool_decide_eq_true_2 by done. reflexivity.
  - eapply extends_no_faults; [exact He|done].
  - by apply extends_trace in He.
Qed.

(** X7. [latest] applies what is pending when nothing fails. If the driver
    does not fail, the lock is free, every applied name is defined and
    every pending migration has both operations and an [up] that neither
    throws nor rejects, then [latest] succeeds: it reports the next batch
    number and the pending names (the defined names that are not applied,
    in ascending order), has run the [up] of each, has appended their
    records in that order under that batch number, and has released the
    lock. *)
Theorem latest_applies_pending arg w :
  let c := setConfig (Some (config w)) arg in
  let pending := difference (listAll_of extname c) (applied_names w) in
  let b := batch_no Up (applied_rows w) in
  no_faults w ->
  head (ensured_lock (lock_table (db w))) = Some 0 ->
  difference (applied_names w) (listAll_of extname c) = [] ->
  (forall n m, n ∈ pending -> migrationModules c !! n = Some m ->
     well_formed m /\ settles m Up) ->
  exists w' recs,
    latest extname arg w = (Ok (b, pending), w')
    /\ applied_rows w' = applied_rows w ++ recs
    /\ rec_name <$> recs = pending
    /\ Forall (fun r => rec_batch r = b) recs
    /\ (forall n, n ∈ pending -> exists h, EvOp n Up h ∈ new_events w w')
    /\ exists rows, lock_table (db w') = Some (released rows).
Proof.
  intros c pending b Hnf Hfree Hvalid Hrunnable.
  destruct (validated_data_run arg w Hnf Hvalid)
    as (w1 & Hdata & Hc1 & Hdb1 & Hnf1 & Ht1).
  fold c in Hdata, Hc1.
  assert (applied_rows w1 = applied_rows w) as Hrows1
    by (unfold applied_rows at 1; by rewrite Hdb1).
  assert (applied_names w1 = applied_names w) as Hnames1
    by (unfold applied_names; by rewrite Hrows1).
  assert (forall n, n ∈ pending ->
            exists m, migrationModules c !! n = Some m
              /\ well_formed m /\ settles m Up) as Hmods.
  { intros n Hn. pose proof Hn as Hn'.
    apply list_elem_of_difference in Hn' as [Hall _].
    apply listAll_elem in Hall as [[m Hm] _].
    exists m. split; [done|]. by apply Hrunnable with n. }
  assert (forall trx w2 res w3,
            db w2 = db w1 -> config w2 = c -> trace w2 = trace w1 ++ match trx with Some (Trx id) => [EvBegin id] | _ => [] end ->
            _runBatch pending Up trx w2 = (Ok res, w3) ->
            batch_done pending Up trx w2 res w3 ->
            forall w', db w' = db w3 -> (exists evs, trace w' = trace w3 ++ evs) ->
            exists recs,
              res = (b, pending)
              /\ applied_rows w' = applied_rows w ++ recs
              /\ rec_name <$> recs = pending
              /\ Forall (fun r => rec_batch r = b) recs
              /\ (forall n, n ∈ pending -> exists h, EvOp n Up h ∈ new_events w w')
              /\ exists rows, lock_table (db w') = Some (released rows)) as Hfinish.
  { intros trx w2 res w3 Hdb2 Hc2 Ht2 Hrun Hdone w' Hdb' Ht'.
    destruct (wp_elim _ _ _ _ _ (runBatch_spec pending Up trx w2) Hrun) as [He _].
    assert (applied_rows w2 = applied_rows w) as Hrows2
      by (unfold applied_rows at 1; by rewrite Hdb2, <- Hrows1).
    assert (target_of trx pending w2 = pending) as Htarget.
    { unfold target_of. destruct trx; [|done].
      unfold applied_names. rewrite Hrows2. apply difference_idemp. }
    destruct Hdone as (-> & Hops & Hch & _ & Hrel).
    rewrite Htarget, Hrows2 in *.
    apply applied_chain_up in Hch as (recs & Hmt3 & Hn3 & Hb3).
    exists recs. split_and!; [done| |done|done| |by rewrite Hdb'].
    - unfold applied_rows at 1. by rewrite Hdb', Hmt3.
    - intros n Hn. destruct (Hops n Hn) as [h Hin]. exists h.
      apply (elem_of_new_events w w2 w3 w'); [|by eapply extends_trace|done..].
      destruct Ht1 as [evs1 Ht1]. rewrite Ht2, Ht1, <- app_assoc. by eexists. }
  unfold latest. rewrite (then_Ok _ _ w tt (configured arg w)) by done.
  rewrite (then_Ok _ _ _ _ _ Hdata). simpl.
  unfold then_ at 1, get_config. rewrite Hc1. fold pending.
  destruct (negb (disableTransactions c) && _).
  - unfold transaction.
    set (w2 := emit (EvBegin (next_trx w1)) (set_next_trx (S (next_trx w1)) w1)).
    destruct (runBatch_ok pending Up (Some (Trx (next_trx w1))) w2)
      as (res & w3 & Hrun & Hdone).
    + done.
    + unfold locking_read.
      change (fault_at w2 (issued w2)) with (fault_at w1 (issued w1)).
      rewrite Hnf1. change (db w2) with (db w1). by rewrite Hdb1.
    + change (db w2) with (db w1). rewrite Hdb1. by eexists.
    + unfold target_of. change (applied_names w2) with (applied_names w1).
      rewrite Hnames1. unfold pending at 1. rewrite difference_idemp.
      change (config w2) with (config w1). rewrite Hc1. apply Hmods.
    + rewrite Hrun.
      destruct (Hfinish (Some (Trx (next_trx w1))) w2 res w3 eq_refl Hc1 eq_refl
                  Hrun Hdone (emit (EvCommit (next_trx w1)) w3) eq_refl)
        as (recs & -> & Hrest); [by eexists|].
      by exists (emit (EvCommit (next_trx w1)) w3), recs.
  - destruct (runBatch_ok pending Up None w1) as (res & w3 & Hrun & Hdone).
    + done.
    + unfold locking_read. rewrite Hnf1, Hdb1. done.
    + rewrite Hdb1. by eexists.
    + unfold target_of. rewrite Hc1. apply Hmods.
    + destruct (Hfinish None w1 res w3 eq_refl Hc1 ltac:(by rewrite app_nil_r)
                  Hrun Hdone w3 eq_refl)
        as (recs & -> & Hrest); [exists []; by rewrite app_nil_r|].
      by exists w3, recs.
Qed.

Lemma last_batch_rows_elem r rows : r ∈ last_batch_rows rows -> r ∈ rows.
Proof.
  unfold last_batch_rows, orderBy_id_desc. rewrite merge_sort_Permutation.
  by intros [_ ?]%list_elem_of_filter.
Qed.

(** X8. [rollback] reverts the last batch when nothing fails. If the driver
    does not fail, the lock is free, every applied name is defined and the
    migrations of the last batch have both operations and a [down] that
    neither throws nor rejects, then [rollback] succeeds: it reports the
    greatest batch number and the names of its records by descending id,
    has run the [down] of each, has deleted every record that bears one of
    these names, and has released the lock. With no record at all it
    reports batch 0 and no name. *)
Theorem rollback_reverts_last_batch arg w :
  let c := setConfig (Some (config w)) arg in
  let names := rec_name <$> last_batch_rows (applied_rows w) in
  no_faults w ->
  head (ensured_lock (lock_table (db w))) = Some 0 ->
  difference (applied_names w) (listAll_of extname c) = [] ->
  (forall n m, n ∈ names -> migrationModules c !! n = Some m ->
     well_formed m /\ settles m Down) ->
  exists w',
    rollback extname arg w = (Ok (batch_or_zero (applied_rows w), names), w')
    /\ applied_rows w' = filter (fun r => rec_name r ∉ names) (applied_rows w)
    /\ (forall n, n ∈ names -> exists h, EvOp n Down h ∈ new_events w w')
    /\ (exists rows, lock_table (db w') = Some (released rows))
    /\ (applied_rows w = [] -> names = [] /\ batch_or_zero (applied_rows w) = 0).
Proof.
  intros c names Hnf Hfree Hvalid Hrunnable.
  destruct (validated_data_run arg w Hnf Hvalid)
    as (w1 & Hdata & Hc1 & Hdb1 & Hnf1 & evs1 & Ht1).
  fold c in Hdata, Hc1.
  assert (forall n, n ∈ names ->
            exists m, migrationModules c !! n = Some m
              /\ well_formed m /\ settles m Down) as Hmods.
  { intros n Hn. pose proof Hn as Hn'.
    apply list_elem_of_fmap in Hn' as (r & -> & Hr%last_batch_rows_elem).
    assert (rec_name r ∈ listAll_of extname c) as Hall.
    { apply (difference_nil_subseteq _ _ Hvalid). apply applied_names_elem. eauto. }
    apply listAll_elem in Hall as [[m Hm] _].
    exists m. split; [done|]. by apply Hrunnable with (rec_name r). }
  unfold rollback. rewrite (then_Ok _ _ w tt (configured arg w)) by done.
  rewrite (then_Ok _ _ _ _ _ Hdata).
  unfold _getLastBatch, select_last_batch.
  erewrite then_Ok; [|apply issue_run; [apply Hnf1|by rewrite Hdb1]].
  set (w2 := set_db _ _).
  assert (db w2 = db w1) as Hdb2 by (subst w2; simpl; by rewrite Hdb1).
  assert (applied_rows w2 = applied_rows w) as Hrows2
    by (unfold applied_rows at 1; by rewrite Hdb2, Hdb1).
  fold names.
  destruct (runBatch_ok names Down None w2) as (res & w3 & Hrun & Hdone).
  - intros k. apply Hnf1.
  - unfold locking_read.
    change (fault_at w2 (issued w2)) with (fault_at w1 (S (issued w1))).
    rewrite Hnf1, Hdb2, Hdb1. done.
  - rewrite Hdb2, Hdb1. by eexists.
  - unfold target_of. change (config w2) with (config w1). rewrite Hc1. apply Hmods.
  - destruct (wp_elim _ _ _ _ _ (runBatch_spec names Down None w2) Hrun) as [He _].
    destruct Hdone as (-> & Hops & Hch & _ & Hrel).
    unfold target_of in *. rewrite Hrows2 in *.
    apply applied_chain_down in Hch.
    exists w3. rewrite Hrun. split_and!; [done| | |done|].
    + unfold applied_rows at 1. by rewrite Hch.
    + intros n Hn. destruct (Hops n Hn) as [h Hin]. exists h.
      apply (elem_of_new_events w w2 w3 w3);
        [|by eapply extends_trace|exists []; by rewrite app_nil_r|done].
      subst w2. simpl. rewrite Ht1, <- app_assoc. by eexists.
    + intros Hnil. subst names. by rewrite Hnil.
Qed.

(** *** A batch in one transaction *)

Lemma mends_data : mends (tap (_migrationData extname) validateMigrationList).
Proof.
  unfold tap, _migrationData. apply mends_then.
  - apply mends_then; [intros w; rewrite listAll_run; apply repaired_refl|].
    intros all. apply mends_then; [apply mends_listCompleted|]. intros completed.
    apply mends_resolve.
  - intros data. apply mends_then; [|intros _; apply mends_resolve].
    unfold validateMigrationList.
    destruct (bool_decide _); [apply mends_resolve|apply (moves_reject repaired)].
Qed.

Lemma repaired_lock d d' l ls :
  repaired d d' -> lock_table d = Some (l :: ls) -> lock_table d' = Some (l :: ls).
Proof.
  intros (_ & _ & _ & [->|[Hd _]]) Hlt; [done|]. by rewrite Hlt in Hd.
Qed.

Lemma filter_nil_intro {A} (P : A -> Prop) `{!forall x, Decision (P x)} (l : list A) :
  (forall x, x ∈ l -> ~ P x) -> filter P l = [].
Proof.
  intros Hall. destruct (filter P l) as [|x k] eqn:Hf; [done|].
  assert (x ∈ filter P l) as Hin by (rewrite Hf; by left).
  apply list_elem_of_filter in Hin as [HP Hin]. by destruct (Hall x Hin).
Qed.

Lemma lazy_read_on_transaction id e : lazy_read e -> on_transaction id e.
Proof. by destruct e as [h [| |[]|[]| | | | | | |]| | | | |]. Qed.

Lemma batch_event_on_transaction c d id target e :
  batch_event c d (Some (Trx id)) target e -> on_transaction id e.
Proof.
  destruct e as [h s| | | |n d' h|]; simpl; try done.
  - destruct s as [| | | |[|[]|]| | | | | |]; simpl; try done.
    + intros Hh. by apply Hh.
    + by intros [-> _].
    + by intros [-> _].
  - intros (_ & _ & Hh). by unfold op_handle_ok in Hh.
Qed.

(** X9. When transactions are not disabled and no pending migration opts
    out with [config.transaction = false], [latest] runs the whole batch in
    one transaction: every operation, every record write and the release of
    the lock are issued on it. A successful run ends with its commit. A
    failed run leaves the user's schema, the applied records and the rows
    of the lock table as they were before [latest]: what the batch had done,
    the taking of the lock included, is rolled back. *)
Theorem latest_single_transaction arg w r w' :
  latest extname arg w = (r, w') ->
  let c := setConfig (Some (config w)) arg in
  let pending := difference (listAll_of extname c) (applied_names w) in
  disableTransactions c = false ->
  (forall n m, n ∈ pending -> migrationModules c !! n = Some m ->
     config_transaction m <> Some false) ->
  exists id,
    Forall (on_transaction id) (new_events w w')
    /\ match r with
       | Ok _ =>
           EvBegin id ∈ new_events w w' /\ last (trace w') = Some (EvCommit id)
       | Err _ =>
           user (db w') = user (db w)
           /\ applied_rows w' = applied_rows w
           /\ forall l ls, lock_table (db w) = Some (l :: ls) ->
                lock_table (db w') = Some (l :: ls)
       end.
Proof.
  intros Hrun c pending Hd Hopt.
  unfold latest in Hrun.
  rewrite (then_Ok _ _ w tt (configured arg w)) in Hrun by done.
  set (w0 := configured arg w) in *.
  unfold then_ at 1 in Hrun.
  destruct (tap (_migrationData extname) validateMigrationList w0)
    as [rd w1] eqn:Hdata.
  destruct (wp_elim _ _ _ _ _ (validated_data_spec w0) Hdata) as (He1 & Hr1).
  pose proof (mends_data w0) as Hm. rewrite Hdata in Hm. simpl in Hm.
  change (db w0) with (db w) in Hm.
  assert (user (db w1) = user (db w)
          /\ applied_rows w1 = applied_rows w
          /\ forall l ls, lock_table (db w) = Some (l :: ls) ->
               lock_table (db w1) = Some (l :: ls)) as Hsame.
  { split_and!; [by destruct Hm|by apply repaired_rows|].
    intros l ls. by apply repaired_lock. }
  destruct He1 as (Hc1 & Hf1 & evs1 & Ht1 & Hev1).
  change (trace w0) with (trace w) in Ht1. change (config w0) with c in Hc1.
  assert (forall id, Forall (on_transaction id) evs1) as Hev1'.
  { intros id. eapply Forall_impl; [exact Hev1|]. apply lazy_read_on_transaction. }
  destruct rd as [[all completed]|e].
  2:{ injection Hrun as <- <-. exists 0%nat. split; [|done].
      by rewrite (new_events_app _ _ _ Ht1). }
  destruct Hr1 as [[= -> ->] Hdb1]. simpl in Hrun.
  unfold then_ at 1, get_config in Hrun. rewrite Hc1 in Hrun.
  change (applied_names w0) with (applied_names w) in Hrun. fold pending in Hrun.
  rewrite Hd in Hrun. simpl in Hrun.
  rewrite bool_decide_eq_true_2 in Hrun.
  2:{ apply filter_nil_intro. intros n Hn. unfold _useTransaction.
      destruct (migrationModules c !! n) as [m|] eqn:Hm'; simpl; [|done].
      specialize (Hopt n m Hn Hm').
      destruct (config_transaction m) as [[|]|]; done. }
  unfold transaction in Hrun.
  set (id := next_trx w1) in *.
  set (w2 := emit (EvBegin id) (set_next_trx (S id) w1)) in *.
  change (difference (listAll_of extname (setConfig (Some (config w)) arg))
            (applied_names w)) with pending in Hrun.
  destruct (_runBatch pending Up (Some (Trx id)) w2) as [r3 w3] eqn:Hrb.
  destruct (wp_elim _ _ _ _ _ (runBatch_spec pending Up (Some (Trx id)) w2) Hrb)
    as [(_ & _ & evs3 & Ht3 & Hev3) _].
  assert (Forall (on_transaction id) evs3) as Hev3'.
  { eapply Forall_impl; [exact Hev3|]. intros e. apply batch_event_on_transaction. }
  exists id. destruct r3 as [res|e]; injection Hrun as <- <-.
  - assert (trace (emit (EvCommit id) w3)
            = trace w ++ evs1 ++ [EvBegin id] ++ evs3 ++ [EvCommit id]) as Ht.
    { simpl. rewrite Ht3. simpl. rewrite Ht1. by rewrite <- !app_assoc. }
    rewrite (new_events_app _ _ _ Ht). split_and!.
    + rewrite !Forall_app. split_and!; [done| |done|]; by repeat constructor.
    + rewrite !elem_of_app. right. left. by left.
    + rewrite Ht, !app_assoc. apply last_snoc.
  - assert (trace (emit (EvRollback id) (set_db (db w1) w3))
            = trace w ++ evs1 ++ [EvBegin id] ++ evs3 ++ [EvRollback id]) as Ht.
    { simpl. rewrite Ht3. simpl. rewrite Ht1. by rewrite <- !app_assoc. }
    rewrite (new_events_app _ _ _ Ht). split.
    + rewrite !Forall_app. split_and!; [done| |done|]; by repeat constructor.
    + done.
Qed.

(** *** A batch that fails part of the way *)

Lemma issue_failed {A} h s (run : Db U -> result A * Db U) w e w' :
  (forall d, match run d with (Err _, d') => d' = d | _ => True end) ->
  issue h s run w = (Err e, w') -> db w' = db w.
Proof.
  intros Hrun. unfold issue. destruct (fault_at w (issued w)).
  - by intros [= _ <-].
  - specialize (Hrun (db w)).
    change (db (set_issued (S (issued w)) (emit (EvQuery h s) w))) with (db w).
    destruct (run (db w)) as [[a|e'] dd]; [done|]. intros [= _ <-]. by subst.
Qed.

Lemma waterfall_step_failed c b d trx name w e w' :
  waterfall_step c b d trx name w = (Err e, w') ->
  migrations_table (db w') = migrations_table (db w).
Proof.
  unfold waterfall_step, then_ at 1.
  pose proof (moves_step_operation same_records c d trx name same_records_user w)
    as Hop.
  destruct (_ w) as [[[]|e1] w1]; simpl in Hop.
  2:{ by intros [= _ <-]. }
  destruct d.
  - unfold then_, Date_now. intros Hrun.
    apply issue_failed in Hrun; [by rewrite Hrun|].
    intros dd. by destruct (migrations_table dd).
  - intros Hrun. apply issue_failed in Hrun; [by rewrite Hrun|].
    intros dd. by destruct (migrations_table dd).
Qed.

Lemma loop_event_mono c d trx (ms ms' : list string) b e :
  ms ⊆ ms' -> loop_event c d trx ms b e -> loop_event c d trx ms' b e.
Proof. intros Hsub (n & Hn & He). exists n. split; [by apply Hsub|done]. Qed.

Lemma waterfall_chain_failed c b d trx ms log w e w' :
  waterfall_chain c b d trx ms log w = (Err e, w') ->
  exists done n rest,
    ms = done ++ n :: rest
    /\ applied_chain d b done (migrations_table (db w)) (migrations_table (db w'))
    /\ extends (loop_event c d trx (done ++ [n]) b) w w'
    /\ forall m, m ∈ done -> exists h, EvOp m d h ∈ new_events w w'.
Proof.
  revert log w. induction ms as [|n rest IH]; intros log w; simpl; [done|].
  unfold then_ at 1. destruct (waterfall_step c b d trx n w) as [r1 w1] eqn:Hstep.
  destruct (wp_elim _ _ _ _ _ (waterfall_step_spec c b d trx n w) Hstep)
    as (He1 & Hr1).
  destruct r1 as [[]|e1].
  - intros Hrun. destruct (IH _ _ Hrun) as (done & n' & rest' & -> & Hch & He & Hops).
    destruct Hr1 as ((h & Hin) & _ & rows & rows' & Hmt & Hmt' & Haft).
    assert (extends (loop_event c d trx ((n :: done) ++ [n']) b) w w1) as He1'.
    { eapply extends_mono; [|exact He1]. intros ev Hev. exists n. split; [by left|done]. }
    assert (extends (loop_event c d trx ((n :: done) ++ [n']) b) w1 w') as He'.
    { eapply extends_mono; [|exact He]. intros ev. apply loop_event_mono.
      intros x Hx. by right. }
    exists (n :: done), n', rest'. split_and!; [done| |by eapply extends_trans|].
    + simpl. exists rows, rows'. split_and!; [done..|]. by rewrite <- Hmt'.
    + intros m [->|Hm]%elem_of_cons.
      * exists h. by eapply new_events_l.
      * destruct (Hops m Hm) as [h' Hin']. exists h'. by eapply new_events_r.
  - intros [= <- <-]. exists [], n, rest. split_and!; [done| | |].
    + simpl. by apply waterfall_step_failed in Hstep.
    + eapply extends_mono; [|exact He1]. intros ev Hev. exists n. split; [by left|done].
    + by intros m ?%elem_of_nil.
Qed.

(** X10. A batch that fails stops at the migration that failed and keeps
    what it had done (unless it runs in one transaction that is then rolled
    back): if [_waterfallBatch] fails, its names split into those that ran
    and were recorded, in order, the one at which it failed, and the rest,
    of which nothing ran and nothing was recorded. *)
Theorem waterfallBatch_stops_at_failure b ms d trx w e w' :
  _waterfallBatch b ms d trx w = (Err e, w') ->
  exists done n rest,
    ms = done ++ n :: rest
    /\ applied_chain d b done (migrations_table (db w)) (migrations_table (db w'))
    /\ (forall m, m ∈ done -> exists h, EvOp m d h ∈ new_events w w')
    /\ (forall m d' h, EvOp m d' h ∈ new_events w w' -> m ∈ done ++ [n])
    /\ (forall h s, EvQuery h s ∈ new_events w w' ->
          exists m, m ∈ done ++ [n] /\ record_write d m b s).
Proof.
  unfold _waterfallBatch, then_ at 1, get_config. unfold then_ at 1, mark_active.
  set (w0 := match last ms with Some name => _ | None => w end).
  assert (db w0 = db w) as Hdb0 by (subst w0; by destruct (last ms)).
  assert (trace w0 = trace w) as Ht0 by (subst w0; by destruct (last ms)).
  unfold then_.
  destruct (waterfall_chain (config w) b d trx ms [] w0) as [[log|e1] w1] eqn:Hch;
    [done|].
  intros [= <- <-].
  destruct (waterfall_chain_failed _ _ _ _ _ _ _ _ _ Hch)
    as (done & n & rest & -> & Happlied & He & Hops).
  assert (new_events w w1 = new_events w0 w1) as Hev
    by (unfold new_events; by rewrite Ht0).
  rewrite Hev, <- Hdb0.
  apply extends_new_events in He. rewrite Forall_forall in He.
  exists done, n, rest. split_and!; [done..| |].
  - intros m d' h Hin. destruct (He _ Hin) as (n' & Hn' & Hs).
    by destruct Hs as (-> & _).
  - intros h s Hin. destruct (He _ Hin) as (n' & Hn' & Hs).
    exists n'. split; [done|]. by destruct Hs.
Qed.

(** *** The file named when a batch fails *)





(** *** A migration that returns no promise *)

Lemma run_operation_not_thenable (m : Migration U) op d name h fn w :
  get_operation m d = Some op ->
  (forall h u, (op h u).1 = NotThenable) ->
  default (resolve tt) fn = resolve tt ->
  exists w1,
    run_operation (Some m) d name h fn w = (Ok tt, w1)
    /\ trace w1 = trace w ++ [EvOp name d h; not_a_promise_warning name].
Proof.
  intros Hop Hnt Hfn. unfold run_operation, then_, invoke. simpl. rewrite Hop.
  specialize (Hnt h (user (db w))).
  destruct (op h (user (db w))) as [v u]. simpl in Hnt. subst v. simpl.
  unfold then_, warn. rewrite Hfn. simpl.
  eexists. split; [reflexivity|]. simpl. by rewrite <- app_assoc.
Qed.

(** X12. A migration whose operation returns something that is no promise
    is taken as done at once: [_waterfallBatch] warns
    [migration <name> did not return a promise], once the operation has
    run, and goes on to record the migration like any other; the step
    succeeds when the driver does not fail and the records table is there. *)
Theorem step_without_promise c b d trx name (m : Migration U) op w r w' :
  migrationModules c !! name = Some m ->
  get_operation m d = Some op ->
  (forall h u, (op h u).1 = NotThenable) ->
  waterfall_step c b d trx name w = (r, w') ->
  (exists h pre post,
     new_events w w'
     = pre ++ [EvOp name d h; not_a_promise_warning name] ++ post)
  /\ (no_faults w -> is_Some (migrations_table (db w)) ->
      r = Ok tt
      /\ exists rows rows',
           migrations_table (db w) = Some rows
           /\ migrations_table (db w') = Some rows'
           /\ applied_after d b name rows rows').
Proof.
  intros Hm Hop Hnt Hrun. split.
  - unfold waterfall_step in Hrun. rewrite Hm in Hrun.
    assert (exists h w1 pre post,
              (if bool_decide (trx = None)
                  && _useTransaction (Some m) (Some (disableTransactions c))
               then _transaction (Some m) d name
               else run_operation (Some m) d name (default Knex trx) None) w
              = (Ok tt, w1)
              /\ trace w1
                 = trace w ++ pre ++ [EvOp name d h; not_a_promise_warning name] ++ post)
      as (h & w1 & pre & post & Hop1 & Ht1).
    { destruct (bool_decide (trx = None) && _).
      - unfold _transaction, transaction.
        set (w0 := emit (EvBegin (next_trx w)) (set_next_trx (S (next_trx w)) w)).
        destruct (run_operation_not_thenable m op d name (Trx (next_trx w))
                    (Some (resolve tt)) w0 Hop Hnt eq_refl) as (w1 & Hr & Ht).
        change (then_ (invoke (Some m) d name (Trx (next_trx w))) _)
          with (run_operation (Some m) d name (Trx (next_trx w)) (Some (resolve tt))).
        rewrite Hr.
        exists (Trx (next_trx w)), (emit (EvCommit (next_trx w)) w1),
               [EvBegin (next_trx w)], [EvCommit (next_trx w)].
        split; [done|]. simpl. rewrite Ht. simpl. by rewrite <- !app_assoc.
      - destruct (run_operation_not_thenable m op d name (default Knex trx)
                    None w Hop Hnt eq_refl) as (w1 & Hr & Ht).
        exists (default Knex trx), w1, [], []. split; [done|]. by rewrite Ht. }
    change (then_ (invoke (Some m) d name (default Knex trx)) _)
      with (run_operation (Some m) d name (default Knex trx) None) in Hrun.
    rewrite (then_Ok _ _ _ _ _ Hop1) in Hrun.
    assert (exists evs, trace w' = trace w1 ++ evs) as [evs Ht'].
    { destruct d.
      - unfold then_, Date_now in Hrun. simpl in Hrun.
        destruct (wp_elim _ _ _ _ _
                    (issue_spec _ _ _ _ (fun _ => True) I) Hrun) as (He & _).
        by apply extends_trace in He.
      - destruct (wp_elim _ _ _ _ _
                    (issue_spec _ _ _ _ (fun _ => True) I) Hrun) as (He & _).
        by apply extends_trace in He. }
    exists h, pre, (post ++ evs). apply new_events_app.
    rewrite Ht', Ht1. by rewrite <- !app_assoc.
  - intros Hnf Hmt.
    assert (settles m d) as Hs.
    { exists op. split; [done|]. intros h u. right. apply Hnt. }
    pose proof (waterfall_step_ok c b d trx name m w Hnf Hmt Hm Hs) as Hok.
    rewrite Hrun in Hok. simpl in Hok. subst r. split; [done|].
    by destruct (wp_elim _ _ _ _ _ (waterfall_step_spec c b d trx name w) Hrun)
      as (_ & _ & _ & ?).
Qed.

(** *** Batch numbers *)

(** X13. Whenever [latest] succeeds, it reports the defined names that were
    not applied and the batch number [max(batch) + 1] (1 on an empty table),
    which is greater than the batch number of every record there was; the
    records are those of before followed by one record for each reported
    name, in order, all with that batch number, which is the greatest batch
    number from then on if anything was applied. *)
Theorem latest_batch_fresh arg w b log w' :
  latest extname arg w = (Ok (b, log), w') ->
  log = difference (listAll_of extname (setConfig (Some (config w)) arg))
                   (applied_names w)
  /\ b = batch_or_zero (applied_rows w) + 1
  /\ (forall r, r ∈ applied_rows w -> rec_batch r < b)
  /\ exists recs,
       applied_rows w' = applied_rows w ++ recs
       /\ rec_name <$> recs = log
       /\ Forall (fun r => rec_batch r = b) recs
       /\ (log <> [] -> max_batch (applied_rows w') = Some b).
Proof.
  intros Hrun.
  destruct (wp_elim _ _ _ _ _ (latest_spec arg w) Hrun) as [_ [[= -> ->] Hch]].
  apply applied_chain_up in Hch as (recs & Hmt & Hnames & Hbatch).
  assert (forall r, r ∈ applied_rows w -> rec_batch r < batch_no Up (applied_rows w))
    as Hold.
  { intros r Hr. pose proof (batch_or_zero_le _ _ Hr). unfold batch_no. lia. }
  split_and!; [done..|].
  exists recs. split_and!; [unfold applied_rows at 1; by rewrite Hmt|done..|].
  intros Hne. unfold applied_rows at 1. rewrite Hmt. simpl.
  apply max_batch_new; [done| |done]. intros ->. by rewrite <- Hnames in Hne.
Qed.


(** ** The order of what a run issues *)

Lemma then_Ok_inv {A B} (p : Promise U A) (f : A -> Promise U B) w b w' :
  then_ p f w = (Ok b, w') -> exists a w1, p w = (Ok a, w1) /\ f a w1 = (Ok b, w').
Proof. unfold then_. destruct (p w) as [[a|e] w1]; [by eauto|done]. Qed.

Lemma issue_trace {A} h s (run : Db U -> result A * Db U) w r w' :
  issue h s run w = (r, w') -> trace w' = trace w ++ [EvQuery h s].
Proof.
  unfold issue. destruct (fault_at w (issued w)); [by intros [= _ <-]|].
  destruct (run _) as [r0 d0]. by intros [= _ <-].
Qed.

Lemma run_operation_trace m d name h fn w w' :
  default (resolve tt) fn = resolve tt ->
  run_operation m d name h fn w = (Ok tt, w') ->
  exists mid, trace w' = trace w ++ EvOp name d h :: mid /\ Forall warn_only mid.
Proof.
  intros Hfn. unfold run_operation, then_, invoke.
  destruct (m ≫= _) as [op|]; simpl; [|done].
  destruct (op h (user (db w))) as [value u].
  destruct value; simpl; try done.
  - intros [= <-]. by exists [].
  - unfold warnPromise, then_, warn. rewrite Hfn. simpl. intros [= <-].
    eexists [_]. simpl. rewrite <- app_assoc. split; [done|].
    by repeat constructor.
Qed.

(** C5, as amended. When the step of [_waterfallBatch] for a migration
    succeeds, its record is written last, on [trx || knex]: the outer
    transaction if there is one, else the plain [knex] handle; every
    statement of the step is such a write. The operation ran on that same
    handle unless the migration got a transaction of its own (no outer
    transaction, policy says so): then the step is, in this order, the
    begin of that transaction, the operation on it, its commit, and only
    then the write of the record on the plain [knex] handle. Warnings apart,
    nothing else is issued. *)
Theorem waterfall_step_handles c b d trx name w w' :
  waterfall_step c b d trx name w = (Ok tt, w') ->
  (exists h, EvOp name d h ∈ new_events w w' /\ op_handle_ok c trx name h)
  /\ (exists s, last (trace w') = Some (EvQuery (default Knex trx) s)
        /\ record_write d name b s)
  /\ (forall h s, EvQuery h s ∈ new_events w w' ->
        h = default Knex trx /\ record_write d name b s)
  /\ exists mid s,
       Forall warn_only mid
       /\ record_write d name b s
       /\ new_events w w'
          = if bool_decide (trx = None)
               && _useTransaction (migrationModules c !! name)
                    (Some (disableTransactions c))
            then [EvBegin (next_trx w); EvOp name d (Trx (next_trx w))]
                 ++ mid ++ [EvCommit (next_trx w); EvQuery Knex s]
            else [EvOp name d (default Knex trx)]
                 ++ mid ++ [EvQuery (default Knex trx) s].
Proof.
  intros Hrun.
  destruct (wp_elim _ _ _ _ _ (waterfall_step_spec c b d trx name w) Hrun)
    as [He ((h & Hin) & (s & Hlast) & _)].
  destruct He as (_ & _ & evs & Ht & HP).
  rewrite (new_events_app _ _ _ Ht) in *. rewrite Forall_forall in HP.
  split_and!.
  - exists h. split; [done|]. by destruct (HP _ Hin) as (_ & _ & ?).
  - exists s. split; [done|]. rewrite Ht in Hlast.
    apply (last_new_event _ _ _ _ Hin) in Hlast. by destruct (HP _ Hlast).
  - intros h' s' Hin'. apply (HP _ Hin').
  - clear h Hin s Hlast HP. unfold waterfall_step in Hrun.
    apply then_Ok_inv in Hrun as ([] & w1 & Hop & Hrec).
    assert (exists s, record_write d name b s
              /\ trace w' = trace w1 ++ [EvQuery (default Knex trx) s])
      as (s & Hs & Ht2).
    { destruct d.
      - apply then_Ok_inv in Hrec as (time & w2 & Hnow & Hins).
        unfold Date_now in Hnow. injection Hnow as <- <-.
        apply issue_trace in Hins. eexists. split; [|exact Hins]. done.
      - apply issue_trace in Hrec. eexists. split; [|exact Hrec]. done. }
    destruct (bool_decide (trx = None) && _) eqn:Hpol.
    + apply andb_true_iff in Hpol as [Hnone _].
      apply bool_decide_eq_true in Hnone. subst trx. simpl in Ht2.
      change (_transaction ?m d name)
        with (transaction (fun t : handle =>
                run_operation m d name t (Some (resolve tt)))) in Hop.
      unfold transaction in Hop.
      destruct (run_operation _ _ _ _ _ _) as [[[]|e] w0] eqn:Hfn; [|done].
      injection Hop as <-.
      apply run_operation_trace in Hfn as (mid & Ht0 & Hmid); [|done].
      exists mid, s. split_and!; [done..|].
      apply app_inv_head with (trace w). rewrite <- Ht, Ht2. simpl.
      rewrite Ht0. simpl. by rewrite <- !app_assoc.
    + change (then_ (invoke ?m d name ?h) _)
        with (run_operation m d name h None) in Hop.
      apply run_operation_trace in Hop as (mid & Ht0 & Hmid); [|done].
      exists mid, s. split_and!; [done..|].
      apply app_inv_head with (trace w). rewrite <- Ht, Ht2, Ht0.
      simpl. by rewrite <- !app_assoc.
Qed.

Lemma getLock_outer_trace (t : handle) w wl :
  _getLock (Some t) w = (Ok tt, wl) ->
  trace wl = trace w ++ [EvQuery t (SelectLock true); EvQuery t (UpdateLock 1)].
Proof.
  unfold _getLock, catch_.
  destruct (then_ (_isLocked t) _ w) as [[[]|e] w1] eqn:Hbody; [|done].
  intros [= <-].
  apply then_Ok_inv in Hbody as (v & w0 & Hread & Hrest).
  unfold _isLocked in Hread.
  apply then_Ok_inv in Hread as (data & w00 & Hsel & Hhead).
  apply issue_trace in Hsel.
  assert (w0 = w00) as -> by (destruct data; by injection Hhead).
  apply then_Ok_inv in Hrest as ([] & w0' & Hcheck & Hupd).
  assert (w0' = w00) as -> by (destruct (truthy v); by injection Hcheck).
  apply issue_trace in Hupd. rewrite Hupd, Hsel. by rewrite <- app_assoc.
Qed.

Lemma listCompleted_trace trx w names w' :
  _listCompleted trx w = (Ok names, w') ->
  names = applied_names w
  /\ exists mid,
       trace w' = trace w ++ mid ++ [EvQuery (default Knex trx) SelectNames]
       /\ Forall lazy_read mid.
Proof.
  intros Hrun.
  destruct (wp_elim _ _ _ _ _ (listCompleted_spec trx w) Hrun) as (_ & [-> _] & _).
  split; [done|]. unfold _listCompleted in Hrun.
  apply then_Ok_inv in Hrun as ([] & we & Hens & Hsel).
  destruct (wp_elim _ _ _ _ _ (ensureTable_spec trx w) Hens)
    as ((_ & _ & mid & Ht & Hmid) & _).
  apply issue_trace in Hsel. exists mid. split; [|done].
  by rewrite Hsel, Ht, <- app_assoc.
Qed.

Lemma waterfall_chain_events (P : event -> Prop) c b d trx ms log w :
  (forall n e, step_event c d trx n b e -> P e) ->
  wp (waterfall_chain c b d trx ms log) w (fun _ w' => extends P w w').
Proof.
  intros HP. revert log w. induction ms as [|n rest IH]; intros log w; simpl.
  - apply wp_resolve, extends_refl.
  - apply wp_then. eapply wp_mono; [apply waterfall_step_spec|].
    intros r w1 (He1 & _).
    assert (extends P w w1) as He1' by (eapply extends_mono; [apply HP|exact He1]).
    destruct r as [[]|e]; [|done].
    eapply wp_mono; [apply IH|]. intros r w2 He2. by eapply extends_trans.
Qed.

Lemma runBatch_rest_events (P : event -> Prop) ms d trx w :
  (forall e, cleanup_event trx e -> P e) ->
  P (EvQuery (default Knex trx) SelectMaxBatch) ->
  (forall n b e, step_event (config w) d trx n b e -> P e) ->
  wp (catch_ (runBatch_rest ms d trx) (runBatch_cleanup trx)) w
     (fun _ w' => extends P w w').
Proof.
  intros Hclean Hmax Hstep.
  assert (forall e w1, extends P w w1 ->
            wp (runBatch_cleanup trx e) w1 (fun _ w' => extends P w w')) as Hfail.
  { intros e w1 He1. eapply wp_mono; [apply cleanup_spec|].
    intros r w2 (_ & He2 & _). eapply extends_trans; [exact He1|].
    eapply extends_mono; [apply Hclean|exact He2]. }
  apply wp_catch. unfold runBatch_rest. apply wp_then.
  eapply wp_mono; [apply validate_all_spec|].
  intros r w1 [-> _]. destruct r as [ns|e]; [|apply Hfail, extends_refl].
  apply wp_then.
  eapply wp_mono; [apply (latestBatchNumber_spec trx w P); done|].
  intros r w2 (He2 & _ & _). destruct r as [b0|e]; [|by apply Hfail].
  cbv zeta. apply wp_tap. unfold _waterfallBatch.
  apply wp_then, wp_get_config, wp_then. unfold wp at 1, mark_active; simpl.
  set (w3 := match last ms with Some name => _ | None => w2 end).
  assert (extends P w w3) as He3.
  { eapply extends_trans; [exact He2|]. subst w3.
    destruct (last ms); [by apply extends_frame|apply extends_refl]. }
  assert (config w2 = config w) as Hc2 by (by destruct He2 as (-> & _)).
  apply wp_then.
  eapply wp_mono; [apply (waterfall_chain_events P)|].
  { rewrite Hc2. intros n e. apply Hstep. }
  intros r w4 He4.
  assert (extends P w w4) as He4' by (by eapply extends_trans).
  destruct r as [log|e]; [|by apply Hfail].
  apply wp_resolve.
  eapply wp_mono; [apply (freeLock_spec trx w4 P)|].
  { apply Hclean. done. }
  intros r w5 (He5 & _).
  assert (extends P w w5) as He5' by (by eapply extends_trans).
  destruct r as [[]|e]; [done|by apply Hfail].
Qed.

Lemma lock_event_names e : lock_event e -> no_names_read e.
Proof. by destruct e as [h []| | | | |]. Qed.

Lemma cleanup_event_names trx e : cleanup_event trx e -> no_names_read e.
Proof. by destruct e as [h []| | | | |]. Qed.

Lemma step_event_names c d trx n b e : step_event c d trx n b e -> no_names_read e.
Proof.
  destruct e as [h []| | | | |]; simpl; try done.
  intros [_ Hs]. by destruct d.
Qed.

(** C3, as amended. Every migration a [_runBatch] executes is one of its
    target: with an outer transaction the input names less the applied names
    read again under the lock, hence none that is recorded as applied;
    without one the input names themselves. On success the batch reports
    exactly the target, and each of them was executed.

    With an outer transaction [t], if the run succeeds or executes anything
    at all, it went in this order: the lock was taken (the locking read,
    then the update of the lock to 1, both on [t], leaving every row of the
    lock table at 1); then [_listCompleted] ran from there and read the
    applied names on [t], which are those of the start since taking the
    lock leaves the records alone; and every operation was executed after
    that read, on a name that is not among the names read. Nothing else
    than look-ups and lazy repairs lies between the lock and the read.

    Without an outer transaction the names are never read. *)
Theorem runBatch_target ms d trx w r w' :
  _runBatch ms d trx w = (r, w') ->
  (forall n d' h, EvOp n d' h ∈ new_events w w' -> n ∈ target_of trx ms w)
  /\ (forall t, trx = Some t ->
        target_of trx ms w = difference ms (applied_names w)
        /\ forall n d' h, EvOp n d' h ∈ new_events w w' ->
             n ∈ ms /\ n ∉ applied_names w)
  /\ (trx = None -> target_of trx ms w = ms)
  /\ (forall b log, r = Ok (b, log) ->
        log = target_of trx ms w
        /\ forall n, n ∈ log -> exists h, EvOp n d h ∈ new_events w w')
  /\ (forall t, trx = Some t ->
        is_Ok r = true \/ (exists n d' h, EvOp n d' h ∈ new_events w w') ->
        exists wl wc rest mid post,
          _getLock trx w = (Ok tt, wl)
          /\ lock_table (db wl) = Some (locked_rows rest)
          /\ applied_names wl = applied_names w
          /\ _listCompleted trx wl = (Ok (applied_names wl), wc)
          /\ new_events w w'
             = [EvQuery t (SelectLock true); EvQuery t (UpdateLock 1)]
               ++ mid ++ [EvQuery t SelectNames] ++ post
          /\ Forall lazy_read mid
          /\ forall n d' h, EvOp n d' h ∈ post ->
               n ∈ ms /\ n ∉ applied_names wl)
  /\ (trx = None -> forall h, EvQuery h SelectNames ∉ new_events w w').
Proof.
  intros Hrun.
  destruct (wp_elim _ _ _ _ _ (runBatch_spec ms d trx w) Hrun) as [He Hr].
  apply extends_new_events in He. rewrite Forall_forall in He.
  assert (forall n d' h, EvOp n d' h ∈ new_events w w' -> n ∈ target_of trx ms w)
    as Hexec.
  { intros n d' h Hin. by destruct (He _ Hin). }
  split_and!; [done| |by intros ->| | |].
  - intros t ->. split; [done|]. intros n d' h Hin.
    specialize (Hexec _ _ _ Hin). by apply list_elem_of_difference in Hexec.
  - intros b log ->. destruct Hr as ([= -> ->] & Hops & _). by split.
  - intros t -> Hsome. clear He Hr.
    destruct (_getLock (Some t) w) as [[[]|e] wl] eqn:Hlock.
    2:{ exfalso.
        destruct (wp_elim _ _ _ _ _ (getLock_spec (Some t) w) Hlock) as [Hel _].
        assert (_runBatch ms d (Some t) w = runBatch_cleanup (Some t) e wl) as Heq.
        { unfold _runBatch, catch_, runBatch_chain.
          by rewrite (then_Err _ _ _ _ _ Hlock). }
        rewrite Heq in Hrun.
        destruct (wp_elim _ _ _ _ _ (cleanup_spec (Some t) e wl) Hrun)
          as (-> & Hec & _).
        destruct Hsome as [?|(n & d' & h & Hin)]; [done|].
        assert (extends no_operation w w') as Hq.
        { eapply extends_trans.
          - eapply extends_mono; [apply lock_event_no_operation|exact Hel].
          - eapply extends_mono; [apply cleanup_event_no_operation|exact Hec]. }
        apply extends_new_events in Hq. rewrite Forall_forall in Hq.
        apply (Hq _ Hin). }
    destruct (wp_elim _ _ _ _ _ (getLock_spec (Some t) w) Hlock)
      as [Hel ((rest & Hlt & Hdbl) & _)].
    destruct (_listCompleted (Some t) wl) as [[names|e] wc] eqn:Hlist.
    2:{ exfalso.
        destruct (wp_elim _ _ _ _ _ (listCompleted_spec (Some t) wl) Hlist)
          as (Her & _).
        assert (_runBatch ms d (Some t) w = runBatch_cleanup (Some t) e wc) as Heq.
        { unfold _runBatch, catch_, runBatch_chain.
          rewrite (then_Ok _ _ _ _ _ Hlock). by rewrite (then_Err _ _ _ _ _ Hlist). }
        rewrite Heq in Hrun.
        destruct (wp_elim _ _ _ _ _ (cleanup_spec (Some t) e wc) Hrun)
          as (-> & Hec & _).
        destruct Hsome as [?|(n & d' & h & Hin)]; [done|].
        assert (extends no_operation w w') as Hq.
        { eapply extends_trans.
          - eapply extends_mono; [apply lock_event_no_operation|exact Hel].
          - eapply extends_trans.
            + eapply extends_mono; [apply lazy_read_no_operation|exact Her].
            + eapply extends_mono; [apply cleanup_event_no_operation|exact Hec]. }
        apply extends_new_events in Hq. rewrite Forall_forall in Hq.
        apply (Hq _ Hin). }
    apply listCompleted_trace in Hlist as Hnames.
    destruct Hnames as (-> & mid & Htc & Hmid). simpl in Htc.
    apply getLock_outer_trace in Hlock as Htl.
    assert (_runBatch ms d (Some t) w
            = catch_ (runBatch_rest (difference ms (applied_names wl)) d (Some t))
                (runBatch_cleanup (Some t)) wc) as Heq.
    { unfold _runBatch, catch_.
      change (runBatch_chain ms d (Some t))
        with (then_ (_getLock (Some t)) (fun _ =>
                then_ (_listCompleted (Some t)) (fun completed =>
                  runBatch_rest (difference ms completed) d (Some t)))).
      rewrite (then_Ok _ _ _ _ _ Hlock). by rewrite (then_Ok _ _ _ _ _ Hlist). }
    rewrite Heq in Hrun.
    destruct (wp_elim _ _ _ _ _
                (runBatch_rest_events (fun _ => True) _ d (Some t) wc
                   (fun _ _ => I) I (fun _ _ _ _ => I)) Hrun)
      as (_ & _ & post & Htp & _).
    assert (applied_names wl = applied_names w) as Hsame
      by (unfold applied_names, applied_rows; by rewrite Hdbl).
    assert (new_events w w'
            = [EvQuery t (SelectLock true); EvQuery t (UpdateLock 1)]
              ++ mid ++ [EvQuery t SelectNames] ++ post) as Hev.
    { apply new_events_app. rewrite Htp, Htc, Htl. by rewrite <- !app_assoc. }
    exists wl, wc, rest, mid, post. split_and!; [done| |done..|].
    + by rewrite Hdbl.
    + intros n d' h Hin. rewrite Hsame.
      assert (EvOp n d' h ∈ new_events w w') as Hin'.
      { rewrite Hev. rewrite !elem_of_app. auto. }
      specialize (Hexec _ _ _ Hin'). by apply list_elem_of_difference in Hexec.
  - intros -> h Hin. clear He Hr Hexec.
    assert (extends no_names_read w w') as Hq.
    { destruct (_getLock None w) as [[[]|e] wl] eqn:Hlock.
      - destruct (wp_elim _ _ _ _ _ (getLock_spec None w) Hlock) as [Hel _].
        assert (_runBatch ms d None w
                = catch_ (runBatch_rest (difference ms []) d None)
                    (runBatch_cleanup None) wl) as Heq.
        { unfold _runBatch, catch_.
          change (runBatch_chain ms d None)
            with (then_ (_getLock None) (fun _ =>
                    then_ (resolve []) (fun completed =>
                      runBatch_rest (difference ms completed) d None))).
          by rewrite (then_Ok _ _ _ _ _ Hlock). }
        rewrite Heq in Hrun.
        pose proof (wp_elim _ _ _ _ _
                      (runBatch_rest_events no_names_read _ d None wl
                         (cleanup_event_names None) I
                         (fun n b e => step_event_names _ d None n b e)) Hrun)
          as Her.
        eapply extends_trans; [|exact Her].
        eapply extends_mono; [apply lock_event_names|exact Hel].
      - destruct (wp_elim _ _ _ _ _ (getLock_spec None w) Hlock) as [Hel _].
        assert (_runBatch ms d None w = runBatch_cleanup None e wl) as Heq.
        { unfold _runBatch, catch_, runBatch_chain.
          by rewrite (then_Err _ _ _ _ _ Hlock). }
        rewrite Heq in Hrun.
        destruct (wp_elim _ _ _ _ _ (cleanup_spec None e wl) Hrun)
          as (_ & Hec & _).
        eapply extends_trans.
        + eapply extends_mono; [apply lock_event_names|exact Hel].
        + eapply extends_mono; [apply cleanup_event_names|exact Hec]. }
    apply extends_new_events in Hq. rewrite Forall_forall in Hq.
    apply (Hq _ Hin).
Qed.
End MigratorFacts.

(** ** The claims at sample worlds *)

Lemma run_pair {A} (p : Promise nat A) (w : World nat) : p w = ((p w).1, (p w).2).
Proof. by destruct (p w). Qed.

Lemma sample_no_faults c records lock : no_faults (Sample.world c records lock Sample.no_fault).
Proof. by intros k. Qed.

(** C1 as stated fails: the row reads 0, the update fails in the driver, and
    the acquisition still fails with a [LockError]. *)
Lemma getLock_fails_on_free_row :
  ~ ((exists msg, (_getLock None Sample.free_then_fault).1 = Err (LockError msg))
     <-> locking_read Sample.free_then_fault = Some 1).
Proof.
  intros [Hiff _].
  assert (locking_read Sample.free_then_fault = Some 1) as Hread
    by (apply Hiff; exists "connection lost"; vm_compute; reflexivity).
  vm_compute in Hread. discriminate Hread.
Qed.

Lemma getLock_acquire_witness :
  (_getLock None Sample.locked).1
  = Err (LockError "Migration table is already locked").
Proof.
  refine (proj1 (proj1 (proj2 (getLock_acquire None Sample.locked _ _ _)) 1 _ _)).
  - apply run_pair.
  - vm_compute; reflexivity.
  - lia.
Defined.


(** C3 as stated fails: without an outer transaction nothing is read again,
    and a migration among the names that is recorded as applied (as when
    another process applied it while this one waited for the lock) is
    executed again. *)
Lemma runBatch_runs_applied :
  "a.js" ∈ applied_names Sample.a_done
  /\ ("a.js" ∉ difference ["a.js"] (applied_names Sample.a_done))
  /\ EvOp "a.js" Up Knex
     ∈ new_events Sample.a_done (_runBatch ["a.js"] Up None Sample.a_done).2.
Proof.
  split_and!.
  - vm_compute. by left.
  - vm_compute. intros Hin. inversion Hin.
  - apply (bool_decide_unpack _). vm_compute. exact I.
Qed.

Lemma runBatch_target_witness :
  let w' := (_runBatch ["a.js"; "b.js"] Up (Some (Trx 7)) Sample.a_done_two).2 in
  _runBatch ["a.js"; "b.js"] Up (Some (Trx 7)) Sample.a_done_two
  = (Ok (2, ["b.js"]), w')
  /\ ["b.js"] = difference ["a.js"; "b.js"] (applied_names Sample.a_done_two)
  /\ exists mid post,
       new_events Sample.a_done_two w'
       = [EvQuery (Trx 7) (SelectLock true); EvQuery (Trx 7) (UpdateLock 1)]
         ++ mid ++ [EvQuery (Trx 7) SelectNames] ++ post.
Proof.
  intros w'.
  assert (_runBatch ["a.js"; "b.js"] Up (Some (Trx 7)) Sample.a_done_two
          = (Ok (2, ["b.js"]), w')) as Hrun by (vm_compute; reflexivity).
  pose proof (runBatch_target _ _ _ _ _ _ Hrun) as (_ & _ & _ & Hlog & Horder & _).
  split; [exact Hrun|]. split; [exact (proj1 (Hlog 2 ["b.js"] eq_refl))|].
  destruct (Horder (Trx 7) eq_refl (or_introl eq_refl))
    as (wl & wc & rest & mid & post & _ & _ & _ & _ & Hev & _).
  exact (ex_intro _ mid (ex_intro _ post Hev)).
Defined.

(** C4 as stated fails: every applied name is defined and nothing is
    pending, [latest] succeeds without running anything, and [rollback]
    then reverts the batch applied before it. *)
Lemma latest_rollback_reverts_older_batch :
  let w1 := (latest posix_extname None Sample.a_done).2 in
  let w2 := (rollback posix_extname None w1).2 in
  difference (applied_names Sample.a_done)
             (listAll_of posix_extname (config Sample.a_done)) = []
  /\ (latest posix_extname None Sample.a_done).1 = Ok (2, [])
  /\ (rollback posix_extname None w1).1 = Ok (1, ["a.js"])
  /\ applied_rows Sample.a_done = Sample.a_applied
  /\ applied_rows w2 = [].
Proof. vm_compute. by split_and!. Qed.

Lemma latest_rollback_roundtrip_witness :
  let w1 := (latest posix_extname None Sample.fresh).2 in
  let w2 := (rollback posix_extname None w1).2 in
  latest posix_extname None Sample.fresh = (Ok (1, ["a.js"; "b.js"]), w1)
  /\ rollback posix_extname None w1 = (Ok (1, ["b.js"; "a.js"]), w2)
  /\ applied_rows w2 = applied_rows Sample.fresh.
Proof.
  intros w1 w2.
  assert (latest posix_extname None Sample.fresh = (Ok (1, ["a.js"; "b.js"]), w1))
    as Hlatest by (vm_compute; reflexivity).
  assert (rollback posix_extname None w1 = (Ok (1, ["b.js"; "a.js"]), w2))
    as Hrollback by (vm_compute; reflexivity).
  split_and!; [exact Hlatest|exact Hrollback|].
  refine (proj1 (latest_rollback_roundtrip posix_extname None None _ _ _ _ _ _
                   eq_refl eq_refl eq_refl Hlatest _ Hrollback)).
  discriminate.
Defined.

(** C5 as stated fails: ["b.js"] asks for a transaction of its own; its
    operation runs on transaction 1, and once that is committed its record
    is inserted on the plain [knex] handle. *)
Lemma record_not_on_dedicated_transaction :
  new_events Sample.pending_two (_runBatch ["b.js"] Up None Sample.pending_two).2
  = [EvBegin 0; EvQuery (Trx 0) (SelectLock true); EvQuery (Trx 0) (UpdateLock 1);
     EvCommit 0; EvQuery Knex SelectMaxBatch;
     EvBegin 1; EvOp "b.js" Up (Trx 1); EvCommit 1;
     EvQuery Knex (InsertRecord "b.js" 1 1000);
     EvQuery Knex (UpdateLock 0)].
Proof. vm_compute. reflexivity. Qed.

Lemma waterfall_step_handles_witness :
  let w' := (waterfall_step Sample.two_migrations 1 Up None "b.js"
               Sample.pending_two).2 in
  waterfall_step Sample.two_migrations 1 Up None "b.js" Sample.pending_two
  = (Ok tt, w')
  /\ (exists s, last (trace w') = Some (EvQuery Knex s)
        /\ record_write Up "b.js" 1 s)
  /\ exists mid s,
       Forall warn_only mid
       /\ record_write Up "b.js" 1 s
       /\ new_events Sample.pending_two w'
          = [EvBegin 0; EvOp "b.js" Up (Trx 0)] ++ mid
            ++ [EvCommit 0; EvQuery Knex s].
Proof.
  intros w'.
  assert (waterfall_step Sample.two_migrations 1 Up None "b.js" Sample.pending_two
          = (Ok tt, w')) as Hrun by (vm_compute; reflexivity).
  split; [exact Hrun|].
  split; [exact (proj1 (proj2 (waterfall_step_handles _ _ _ _ _ _ _ Hrun)))|].
  exact (proj2 (proj2 (proj2 (waterfall_step_handles _ _ _ _ _ _ _ Hrun)))).
Defined.

(** C6 as stated fails: the rows of the lock table were deleted, ["b.js"]
    is recorded but not defined; [latest] fails with the corrupt-directory
    error, yet the lock table has been written: it has a row again. *)
Lemma corrupt_directory_repairs_lock :
  let w' := (latest posix_extname None Sample.orphan_no_lock_row).2 in
  (latest posix_extname None Sample.orphan_no_lock_row).1
  = Err (Error (corrupt_message ["b.js"]))
  /\ lock_table (db Sample.orphan_no_lock_row) = Some []
  /\ lock_table (db w') = Some [0]
  /\ EvQuery Knex (InsertLock 0) ∈ new_events Sample.orphan_no_lock_row w'.
Proof.
  split_and!; [vm_compute; reflexivity..|].
  apply (bool_decide_unpack _). vm_compute. exact I.
Qed.

Lemma corrupt_directory_aborts_witness :
  exists w',
    latest posix_extname None Sample.orphan
    = (Err (Error (corrupt_message ["b.js"])), w')
    /\ db w' = db Sample.orphan.
Proof.
  destruct (corrupt_directory_aborts posix_extname None Sample.orphan)
    as (w' & Hlatest & _ & _ & _ & _ & _ & _ & Hdb).
  - apply sample_no_faults.
  - exists (mkRecord 1 "b.js" 1 900). split; [by left|].
    apply (bool_decide_unpack _). vm_compute. exact I.
  - exists w'. split; [exact Hlatest|]. by apply (Hdb 0 []).
Defined.

(** C7 as stated fails: one migration is defined and none is applied, so
    the number of defined less the number of applied is 1; [status]
    returns -1. *)
Lemma status_is_negative_when_pending :
  (status posix_extname None Sample.pending_one).1 = Ok (-1)
  /\ Z.of_nat (length (listAll_of posix_extname (config Sample.pending_one)))
     - Z.of_nat (length (applied_rows Sample.pending_one)) = 1.
Proof. split; vm_compute; reflexivity. Qed.

Lemma status_counts_witness :
  exists n w',
    status posix_extname None Sample.a_done_two = (Ok n, w')
    /\ n = 1 - 2.
Proof.
  destruct (status_counts posix_extname None Sample.a_done_two Sample.a_applied)
    as (n & w' & Hrun & Hn & _); [reflexivity..|].
  exists n, w'. split; [exact Hrun|]. rewrite Hn. vm_compute. reflexivity.
Defined.

Lemma currentVersion_max_witness :
  exists w', currentVersion None Sample.version_applied = (Ok "20240101", w').
Proof.
  destruct (currentVersion_max None Sample.version_applied)
    as (v & w' & Hrun & _ & Hmax); [apply sample_no_faults|].
  destruct (Hmax ltac:(discriminate)) as [(r & Hr & ->) _].
  apply list_elem_of_singleton in Hr as ->. by exists w'.
Defined.

Lemma latest_default_no_transaction_witness :
  disableTransactions (config (latest posix_extname None Sample.fresh).2) = true
  /\ (EvOp "a.js" Up Knex
      ∈ new_events Sample.fresh (latest posix_extname None Sample.fresh).2).
Proof.
  split.
  - refine (proj1 (proj2
      (latest_default_no_transaction posix_extname
         (Sample.modules_only Sample.two_modules) None Sample.fresh _ _ _ _ _ _))).
    + reflexivity.
    + reflexivity.
    + reflexivity.
    + apply run_pair.
  - apply (bool_decide_unpack _). vm_compute. exact I.
Defined.

(** *** Runs of the entry points *)

Example currentVersion_none :
  (currentVersion None Sample.fresh).1 = Ok "none".
Proof. vm_compute. reflexivity. Qed.

Example currentVersion_20240101 :
  (currentVersion None Sample.version_applied).1 = Ok "20240101".
Proof. vm_compute. reflexivity. Qed.

Example latest_fresh_trace :
  trace (latest posix_extname None Sample.fresh).2
  = [EvQuery Knex (HasTable MigrationsTable); EvQuery Knex (CreateTable MigrationsTable);
     EvQuery Knex (HasTable LockTable); EvQuery Knex (CreateTable LockTable);
     EvQuery Knex (SelectLock false); EvQuery Knex (InsertLock 0);
     EvQuery Knex SelectNames;
     EvBegin 0; EvQuery (Trx 0) (SelectLock true); EvQuery (Trx 0) (UpdateLock 1);
     EvCommit 0; EvQuery Knex SelectMaxBatch;
     EvOp "a.js" Up Knex; EvQuery Knex (InsertRecord "a.js" 1 1000);
     EvBegin 1; EvOp "b.js" Up (Trx 1); EvCommit 1;
     EvQuery Knex (InsertRecord "b.js" 1 1001);
     EvQuery Knex (UpdateLock 0)].
Proof. vm_compute. reflexivity. Qed.

Example latest_locked :
  (latest posix_extname None Sample.locked).1
  = Err (LockError "Migration table is already locked")
  /\ db (latest posix_extname None Sample.locked).2 = db Sample.locked.
Proof. split; vm_compute; reflexivity. Qed.

Example forceFree_then_latest :
  (then_ (forceFreeMigrationsLock None) (fun _ => latest posix_extname None)
     Sample.locked).1 = Ok (1, ["a.js"]).
Proof. vm_compute. reflexivity. Qed.

(** ** The further properties at sample worlds *)

Lemma ensureTable_only_repairs_witness :
  applied_rows (_ensureTable None Sample.orphan_no_lock_row).2 = Sample.b_applied
  /\ lock_table (db (_ensureTable None Sample.orphan_no_lock_row).2) = Some [0].
Proof.
  split.
  - exact (proj1 (proj2 (proj2
      (ensureTable_only_repairs None Sample.orphan_no_lock_row _ _ (run_pair _ _))))).
  - vm_compute. reflexivity.
Defined.

Lemma ensureTable_idempotent_witness :
  let w1 := (_ensureTable None Sample.fresh).2 in
  exists w2,
    _ensureTable (Some (Trx 3)) w1 = (Ok tt, w2)
    /\ db w2 = db w1
    /\ new_events w1 w2 = ensure_reads (Trx 3).
Proof.
  intros w1.
  assert (_ensureTable None Sample.fresh = (Ok tt, w1)) as Hrun
    by (vm_compute; reflexivity).
  exact (proj2 (ensureTable_idempotent None (Some (Trx 3)) Sample.fresh w1 Hrun
                  (sample_no_faults _ _ _))).
Defined.

Lemma forceFree_releases_witness :
  exists w',
    forceFreeMigrationsLock None Sample.locked = (Ok tt, w')
    /\ lock_table (db w') = Some [0].
Proof.
  destruct (forceFree_releases None Sample.locked (sample_no_faults _ _ _))
    as (w' & Hrun & _ & _ & Hlt & _).
  exists w'. split; [exact Hrun|exact Hlt].
Defined.

Lemma runBatch_validates_first_witness :
  (_runBatch ["h.js"] Up None Sample.pending_half).1
  = Err (Error (invalid_message "h.js"))
  /\ Forall no_operation
       (new_events Sample.pending_half
          (_runBatch ["h.js"] Up None Sample.pending_half).2).
Proof.
  assert (_runBatch ["h.js"] Up None Sample.pending_half
          = (Err (Error (invalid_message "h.js")),
             (_runBatch ["h.js"] Up None Sample.pending_half).2)) as Hrun
    by (vm_compute; reflexivity).
  split; [by rewrite Hrun|].
  refine (proj1 (proj2 (runBatch_validates_first _ _ _ _ _ _ Hrun _))).
  exists "h.js". split; [by left|].
  intros m Hm. vm_compute in Hm. injection Hm as <-.
  intros [_ [x Hx]]. discriminate Hx.
Defined.

Lemma latest_applies_pending_witness :
  exists w',
    latest posix_extname None Sample.fresh = (Ok (1, ["a.js"; "b.js"]), w')
    /\ exists rows, lock_table (db w') = Some (released rows).
Proof.
  destruct (latest_applies_pending posix_extname None Sample.fresh)
    as (w' & recs & Hrun & _ & _ & _ & _ & Hlock).
  - apply sample_no_faults.
  - reflexivity.
  - vm_compute. reflexivity.
  - intros n m Hn Hm.
    assert (m = Sample.migration None \/ m = Sample.migration (Some true)) as Hcases.
    { vm_compute in Hn.
      apply elem_of_cons in Hn as [->|Hn]; [left|right].
      - vm_compute in Hm. by injection Hm as <-.
      - apply list_elem_of_singleton in Hn as ->.
        vm_compute in Hm. by injection Hm as <-. }
    destruct Hcases as [-> | ->].
    + split; [split; by eexists|].
      exists Sample.op_ok. split; [reflexivity|]. intros h u. by left.
    + split; [split; by eexists|].
      exists Sample.op_ok. split; [reflexivity|]. intros h u. by left.
  - exists w'. split; [exact Hrun|exact Hlock].
Defined.

Lemma rollback_reverts_last_batch_witness :
  exists w',
    rollback posix_extname None Sample.a_done = (Ok (1, ["a.js"]), w')
    /\ applied_rows w' = [].
Proof.
  destruct (rollback_reverts_last_batch posix_extname None Sample.a_done)
    as (w' & Hrun & Hrows & _).
  - apply sample_no_faults.
  - reflexivity.
  - vm_compute. reflexivity.
  - intros n m Hn Hm. vm_compute in Hn.
    apply list_elem_of_singleton in Hn as ->.
    vm_compute in Hm. injection Hm as <-.
    split; [split; by eexists|].
    exists Sample.op_ok. split; [reflexivity|]. intros h u. by left.
  - exists w'. split; [exact Hrun|]. rewrite Hrows. vm_compute. reflexivity.
Defined.

Lemma latest_single_transaction_witness :
  let w' := (latest posix_extname Sample.transactions_on Sample.pending_two).2 in
  exists id,
    Forall (on_transaction id) (new_events Sample.pending_two w')
    /\ EvBegin id ∈ new_events Sample.pending_two w'
    /\ last (trace w') = Some (EvCommit id).
Proof.
  intros w'.
  assert (latest posix_extname Sample.transactions_on Sample.pending_two
          = (Ok (1, ["a.js"; "b.js"]), w')) as Hrun by (vm_compute; reflexivity).
  destruct (latest_single_transaction posix_extname Sample.transactions_on
              Sample.pending_two _ _ Hrun) as (id & Hall & Hbegin & Hlast).
  - reflexivity.
  - intros n m Hn Hm.
    assert (m = Sample.migration None \/ m = Sample.migration (Some true)) as Hcases.
    { vm_compute in Hn.
      apply elem_of_cons in Hn as [->|Hn]; [left|right].
      - vm_compute in Hm. by injection Hm as <-.
      - apply list_elem_of_singleton in Hn as ->.
        vm_compute in Hm. by injection Hm as <-. }
    destruct Hcases as [-> | ->]; discriminate.
  - exact (ex_intro _ id (conj Hall (conj Hbegin Hlast))).
Defined.

Lemma waterfallBatch_stops_at_failure_witness :
  let w' := (_waterfallBatch 1 ["a.js"; "f.js"; "a.js"] Up None
               Sample.pending_ok_failing).2 in
  exists done n rest,
    ["a.js"; "f.js"; "a.js"] = done ++ n :: rest
    /\ forall m d' h, EvOp m d' h ∈ new_events Sample.pending_ok_failing w' ->
         m ∈ done ++ [n].
Proof.
  intros w'.
  assert (_waterfallBatch 1 ["a.js"; "f.js"; "a.js"] Up None Sample.pending_ok_failing
          = (Err (Error "boom"), w')) as Hrun by (vm_compute; reflexivity).
  destruct (waterfallBatch_stops_at_failure _ _ _ _ _ _ _ Hrun)
    as (done & n & rest & Hsplit & _ & _ & Hops & _).
  by exists done, n, rest.
Defined.


Lemma step_without_promise_witness :
  (waterfall_step Sample.one_sync 1 Up None "s.js" Sample.pending_sync).1 = Ok tt
  /\ exists h pre post,
       new_events Sample.pending_sync
         (waterfall_step Sample.one_sync 1 Up None "s.js" Sample.pending_sync).2
       = pre ++ [EvOp "s.js" Up h; not_a_promise_warning "s.js"] ++ post.
Proof.
  destruct (step_without_promise Sample.one_sync 1 Up None "s.js"
              Sample.sync_migration Sample.op_sync Sample.pending_sync _ _
              eq_refl eq_refl (fun _ _ => eq_refl) (run_pair _ _))
    as [Hev Hok].
  split; [|exact Hev].
  apply Hok; [apply sample_no_faults|by eexists].
Defined.

Lemma latest_batch_fresh_witness :
  let w' := (latest posix_extname None Sample.a_done_two).2 in
  max_batch (applied_rows w') = Some 2.
Proof.
  intros w'.
  assert (latest posix_extname None Sample.a_done_two = (Ok (2, ["b.js"]), w'))
    as Hrun by (vm_compute; reflexivity).
  destruct (latest_batch_fresh posix_extname None Sample.a_done_two _ _ _ Hrun)
    as (_ & _ & _ & recs & _ & _ & _ & Hmax).
  by apply Hmax.
Defined.

(** * The client *)

Section ClientFacts.

Context {V R : Type}.

(** C8, as amended. When the driver rejects a statement with an error
    object, [query] rejects with the same reference; the message of that
    object is then the rendered statement (bindings put in place), [" - "],
    and the message it had: the rendering comes first. No other object is
    touched, and the last thing emitted is the [query-error] carrying that
    reference, after the [query] notification. *)
Theorem query_rethrows (d : Client.Dialect (V:=V) (R:=R)) connection obj st err h' :
  Client._query d connection (Client.prepare d obj) (Client.heap st) = (inr err, h') ->
  let q := Client.prepare d obj in
  let rendered := Client.js_string (Client._formatQuery d (Client.sql q) (Client.bindings q)) in
  let uid := Client.__knexUid connection in
  let txid := Client.__knexTxId connection in
  exists st',
    Client.query d connection obj st = (inr err, st')
    /\ Client.heap st' !! err
       = Some (rendered +:+ " - " +:+ Client.js_string (h' !! err))
    /\ (forall r, r <> err -> Client.heap st' !! r = h' !! r)
    /\ Client.events st'
       = Client.events st ++ [Client.Query uid txid q; Client.QueryError err uid txid q].
Proof.
  intros Hq q rendered uid txid. unfold Client.query. cbv zeta.
  cbn [Client.heap]. rewrite Hq. eexists. split; [reflexivity|].
  cbn [Client.heap Client.events]. split_and!.
  - apply lookup_insert_eq.
  - intros r Hr. by apply lookup_insert_ne.
  - by rewrite <- app_assoc.
Qed.

End ClientFacts.

(** C8 as stated fails: the driver rejects with an object whose message is
    ["boom"]; after [query] the message starts with the rendered statement,
    so it is not the old message with something appended. *)
Lemma query_prepends_statement :
  let out := Client.query Sample.failing_dialect Sample.connection
               (inr Sample.select_by_id) Sample.empty_state in
  out.1 = inr 0%nat
  /\ Client.heap out.2 !! 0%nat = Some "select * from t where id = '7' - boom"
  /\ forall suffix,
       "select * from t where id = '7' - boom" <> String.append "boom" suffix.
Proof.
  split_and!; [vm_compute; reflexivity..|].
  intros suffix H. change (String.append "boom" suffix)
    with (String "b" (String.append "oom" suffix)) in H.
  discriminate H.
Qed.

Lemma query_rethrows_witness :
  exists st',
    Client.query Sample.failing_dialect Sample.connection
      (inr Sample.select_by_id) Sample.empty_state = (inr 0%nat, st')
    /\ Client.heap st' !! 0%nat = Some "select * from t where id = '7' - boom".
Proof.
  destruct (query_rethrows Sample.failing_dialect Sample.connection
              (inr Sample.select_by_id) Sample.empty_state 0%nat
              (<[0%nat := "boom"]> ∅) eq_refl)
    as (st' & Hrun & Hmsg & _).
  exists st'. split; [exact Hrun|]. etrans; [exact Hmsg|]. vm_compute. reflexivity.
Defined.

(** *** The helpers on strings and paths *)

Example posix_extname_js : posix_extname "20240101_init.js" = ".js".
Proof. reflexivity. Qed.
Example posix_extname_none : posix_extname "README" = "".
Proof. reflexivity. Qed.
Example posix_extname_dotfile : posix_extname ".bashrc" = "".
Proof. reflexivity. Qed.
Example posix_extname_dir : posix_extname "a.d/b.coffee" = ".coffee".
Proof. reflexivity. Qed.
Example js_sort_names : js_sort ["b.js"; "a.js"; "B.js"] = ["B.js"; "a.js"; "b.js"].
Proof. reflexivity. Qed.
Example lodash_max_first : lodash_max ["9"; "10"; "9"] = Some "9".
Proof. reflexivity. Qed.
Example formatQuery_escaped_mark :
  Client._formatQuery (R:=unit) Sample.failing_dialect
    (Some "a = ? and b = \? and c = ?") (Some ["x"])
  = Some "a = 'x' and b = ? and c = ?".
Proof. reflexivity. Qed.

(** * Quoting *)

Lemma app_String x (a b : string) : String x a +:+ b = String x (a +:+ b).
Proof. reflexivity. Qed.

Lemma string_app_assoc (a b c : string) : (a +:+ b) +:+ c = a +:+ (b +:+ c).
Proof.
  induction a as [|x a IH]; [done|].
  rewrite !app_String. by f_equal.
Qed.

Lemma string_app_nil_r (a : string) : a +:+ "" = a.
Proof.
  induction a as [|x a IH]; [done|].
  rewrite app_String. by f_equal.
Qed.

Lemma read_quoted_end q (rest : string) :
  (forall t, rest <> String q t) ->
  Client.read_quoted q (String q rest) = Some ("", rest).
Proof.
  intros Hrest. simpl. rewrite Ascii.eqb_refl.
  destruct rest as [|c2 rest2]; [done|].
  destruct (Ascii.eqb c2 q) eqn:Hc; [|done].
  apply Ascii.eqb_eq in Hc as ->. by destruct (Hrest rest2).
Qed.

Lemma read_quoted_replace q (s rest : string) :
  (forall t, rest <> String q t) ->
  Client.read_quoted q
    (Client.replace_char q (String q (String q "")) s +:+ String q rest)
  = Some (s, rest).
Proof.
  intros Hrest. induction s as [|c s IH].
  - change (Client.replace_char _ _ "" +:+ ?x) with x. by apply read_quoted_end.
  - cbn [Client.replace_char]. destruct (Ascii.eqb c q) eqn:Hc.
    + apply Ascii.eqb_eq in Hc as ->.
      change (String q (String q "") +:+ ?x) with (String q (String q x)).
      rewrite !app_String. cbn [Client.read_quoted]. rewrite !Ascii.eqb_refl.
      by rewrite IH.
    + rewrite app_String. cbn [Client.read_quoted]. by rewrite Hc, IH.
Qed.

Lemma replace_char_same c (s : string) : Client.replace_char c (String c "") s = s.
Proof.
  induction s as [|x s IH]; simpl; [done|].
  destruct (Ascii.eqb x c) eqn:Hx.
  - apply Ascii.eqb_eq in Hx as ->. rewrite app_String.
    change ("" +:+ ?y) with y. by rewrite IH.
  - by rewrite IH.
Qed.

Lemma read_quoted_plain q (s rest : string) :
  q ∉ list_ascii_of_string s ->
  (forall t, rest <> String q t) ->
  Client.read_quoted q (s +:+ String q rest) = Some (s, rest).
Proof.
  intros Hs Hrest. induction s as [|c s IH].
  - change ("" +:+ ?x) with x. by apply read_quoted_end.
  - apply not_elem_of_cons in Hs as [Hc Hs].
    rewrite app_String. cbn [Client.read_quoted].
    rewrite (proj2 (Ascii.eqb_neq c q)) by done. by rewrite IH.
Qed.

Lemma read_quoted_length q (t a b : string) :
  Client.read_quoted q t = Some (a, b) ->
  (String.length a + String.length b + 1 <= String.length t)%nat.
Proof.
  remember (String.length t) as n eqn:Hn. revert t a b Hn.
  induction (lt_wf n) as [n _ IH]. intros t a b -> Hread.
  destruct t as [|c rest]; [done|]. simpl in Hread.
  destruct (Ascii.eqb c q).
  - destruct rest as [|c2 rest2]; [injection Hread as <- <-; simpl; lia|].
    destruct (Ascii.eqb c2 q).
    + destruct (Client.read_quoted q rest2) as [[a' b']|] eqn:Hr; [|done].
      injection Hread as <- <-. simpl.
      specialize (IH (String.length rest2) ltac:(simpl; lia) rest2 a' b' eq_refl Hr).
      lia.
    + injection Hread as <- <-. simpl. lia.
  - destruct (Client.read_quoted q rest) as [[a' b']|] eqn:Hr; [|done].
    injection Hread as <- <-. simpl.
    specialize (IH (String.length rest) ltac:(simpl; lia) rest a' b' eq_refl Hr).
    lia.
Qed.

(** X14. A string literal made by [escapeString] reads back as the string
    it was made from: whatever the string holds, single quotes included,
    the token ends where the literal ends, and what follows it in the
    statement is left over untouched. *)
Theorem escapeString_reads_back (s rest : string) :
  (forall t, rest <> String "'" t) ->
  Client.read_token "'" "'" (Client.escapeString (Some s) +:+ rest) = Some (s, rest).
Proof.
  intros Hrest.
  change (Client.escapeString (Some s))
    with (String "'" (Client.replace_char "'" "''" s +:+ "'")).
  rewrite app_String, string_app_assoc.
  cbn [Client.read_token]. rewrite Ascii.eqb_refl.
  by apply (read_quoted_replace "'").
Qed.

(** X15. An identifier wrapped by the base client or by the SQLite3 client
    reads back as the identifier: the quote character of the dialect is
    doubled inside, so the token ends where the wrapped identifier ends.
    The star is the one value that is not quoted at all. *)
Theorem wrapIdentifierImpl_reads_back (value rest : string) :
  value <> "*" ->
  (forall t, rest <> String Client.dquote_char t) ->
  (forall t, rest <> String SQLite3.backquote t) ->
  Client.read_token Client.dquote_char Client.dquote_char
    (Client.wrapIdentifierImpl (Some value) +:+ rest) = Some (value, rest)
  /\ Client.read_token SQLite3.backquote SQLite3.backquote
       (SQLite3.wrapIdentifierImpl (Some value) +:+ rest) = Some (value, rest)
  /\ Client.wrapIdentifierImpl (Some "*") = "*"
  /\ SQLite3.wrapIdentifierImpl (Some "*") = "*".
Proof.
  intros Hstar Hd Hb. split_and!; [| |done..].
  - unfold Client.wrapIdentifierImpl.
    rewrite bool_decide_eq_false_2 by congruence.
    change (dquote +:+ Client.js_string (?f <$> Some value) +:+ dquote)
      with (String Client.dquote_char (f value +:+ String Client.dquote_char "")).
    rewrite app_String, string_app_assoc.
    cbn [Client.read_token]. rewrite Ascii.eqb_refl.
    by apply (read_quoted_replace Client.dquote_char).
  - unfold SQLite3.wrapIdentifierImpl.
    rewrite bool_decide_eq_false_2 by congruence.
    change (Client.js_string (?f <$> Some value)) with (f value).
    rewrite app_String, string_app_assoc.
    cbn [Client.read_token]. rewrite Ascii.eqb_refl.
    by apply (read_quoted_replace SQLite3.backquote).
Qed.

(** X16. The MSSQL client puts an identifier between brackets and escapes
    nothing in it: the replacement it makes puts an opening bracket where
    one was. So the wrapped identifier reads back as the identifier exactly
    when there is no closing bracket in it. *)
Theorem mssql_wrapIdentifierImpl_no_escape (value : string) :
  value <> "*" ->
  MSSQL.wrapIdentifierImpl (Some value) = "[" +:+ value +:+ "]"
  /\ (Client.read_token "[" "]" (MSSQL.wrapIdentifierImpl (Some value))
      = Some (value, "")
      <-> "]"%char ∉ list_ascii_of_string value).
Proof.
  intros Hstar.
  assert (MSSQL.wrapIdentifierImpl (Some value) = "[" +:+ value +:+ "]") as ->.
  { unfold MSSQL.wrapIdentifierImpl.
    rewrite bool_decide_eq_false_2 by congruence.
    change (Client.js_string (?f <$> Some value)) with (f value).
    by rewrite (replace_char_same "["). }
  split; [done|].
  rewrite app_String. change ("" +:+ ?x) with x.
  cbn [Client.read_token]. rewrite Ascii.eqb_refl. clear Hstar. split.
  - induction value as [|c v IH]; [intros _; apply not_elem_of_nil|].
    rewrite app_String. cbn [Client.read_quoted list_ascii_of_string].
    destruct (Ascii.eqb c "]") eqn:Hc.
    + apply Ascii.eqb_eq in Hc as ->. intros Hread. exfalso.
      destruct (v +:+ "]") as [|c2 rest2] eqn:Hv; [done|].
      destruct (Ascii.eqb c2 "]"); [|done].
      destruct (Client.read_quoted "]" rest2) as [[a b]|] eqn:Hr; [|done].
      injection Hread as -> ->.
      apply read_quoted_length in Hr.
      assert (String.length (v +:+ "]") = S (String.length v)) as Hlen.
      { clear. induction v as [|x v IH]; simpl; [done|]. by rewrite IH. }
      rewrite Hv in Hlen. simpl in Hlen, Hr. lia.
    + apply Ascii.eqb_neq in Hc.
      destruct (Client.read_quoted "]" (v +:+ "]")) as [[a b]|] eqn:Hr; [|done].
      intros Hread. injection Hread as -> ->.
      apply not_elem_of_cons. split; [done|]. by apply IH.
  - intros Hno. by apply (read_quoted_plain "]").
Qed.

(** * Statements with marks *)

Lemma chars_app (a b : string) :
  list_ascii_of_string (a +:+ b) = list_ascii_of_string a ++ list_ascii_of_string b.
Proof.
  induction a as [|x a IH]; [done|].
  rewrite app_String. cbn [list_ascii_of_string]. by rewrite IH.
Qed.

Lemma string_of_chars_app (l : list ascii) (k : list ascii) :
  string_of_list_ascii (l ++ k) = string_of_list_ascii l +:+ string_of_list_ascii k.
Proof.
  induction l as [|x l IH]; [done|].
  cbn [app string_of_list_ascii]. by rewrite IH.
Qed.

Section FormatFacts.

Context {V R : Type}.

Lemma replace_marks_plain (escape : V -> string) cs rest bs :
  Forall (fun c => c <> "?"%char /\ c <> "\"%char) cs ->
  Client.replace_marks escape (cs ++ rest) bs
  = cs ++ Client.replace_marks escape rest bs.
Proof.
  induction 1 as [|c cs [Hq Hb] _ IH]; [done|].
  cbn [app Client.replace_marks].
  rewrite (proj2 (Ascii.eqb_neq c "?")) by done.
  rewrite (proj2 (Ascii.eqb_neq c "\")) by done. cbn [andb].
  destruct (cs ++ rest) as [|c2 tl2] eqn:Happ.
  - apply app_eq_nil in Happ as [-> ->]. done.
  - by rewrite IH.
Qed.

Lemma replace_marks_pieces (escape : V -> string) ps bs :
  Client.plain_pieces ps ->
  string_of_list_ascii
    (Client.replace_marks escape (list_ascii_of_string (Client.sql_of ps)) bs)
  = Client.rendered escape ps bs.
Proof.
  intros Hps. revert bs. induction Hps as [|p ps Hp _ IH]; intros bs; [done|].
  change (Client.sql_of (p :: ps)) with (Client.piece_sql p +:+ Client.sql_of ps).
  rewrite chars_app. destruct p as [s| |].
  - cbn [Client.piece_sql Client.rendered].
    rewrite replace_marks_plain by exact Hp.
    by rewrite string_of_chars_app, string_of_list_ascii_of_string, IH.
  - cbn [Client.rendered]. destruct bs as [|b bs].
    + change (Client.replace_marks escape
                (list_ascii_of_string (Client.piece_sql Client.Mark) ++ ?l) [])
        with ("?"%char :: Client.replace_marks escape l []).
      cbn [string_of_list_ascii]. by rewrite IH.
    + change (Client.replace_marks escape
                (list_ascii_of_string (Client.piece_sql Client.Mark) ++ ?l) (b :: bs))
        with (list_ascii_of_string (escape b) ++ Client.replace_marks escape l bs).
      by rewrite string_of_chars_app, string_of_list_ascii_of_string, IH.
  - change (Client.replace_marks escape
              (list_ascii_of_string (Client.piece_sql Client.EscapedMark) ++ ?l) bs)
      with ("?"%char :: Client.replace_marks escape l bs).
    cbn [string_of_list_ascii Client.rendered]. by rewrite IH.
Qed.

(** X17. How [_formatQuery] puts the bindings in place: in a statement
    made of text, marks and escaped marks, the marks take the bindings in
    order, one each; when the bindings run out the remaining marks stay as
    they are, bindings left over are dropped, an escaped mark gives a plain
    question mark and takes no binding, and the text is not changed. With no
    list of bindings nothing is put in place. *)
Theorem formatQuery_marks_in_order (d : Client.Dialect (V:=V) (R:=R)) ps bindings :
  Client.plain_pieces ps ->
  Client._formatQuery d (Some (Client.sql_of ps)) bindings
  = Some (Client.rendered (Client._escapeBinding d) ps (default [] bindings)).
Proof.
  intros Hps. unfold Client._formatQuery.
  cbn [fmap option_fmap option_map]. by rewrite replace_marks_pieces.
Qed.

End FormatFacts.

(** * The MSSQL client *)

Lemma pretty_N_go_chars (P : ascii -> Prop) :
  (forall x, P (pretty_N_char x)) ->
  forall (x : N) (s : string),
    Forall P (list_ascii_of_string s) ->
    Forall P (list_ascii_of_string (pretty_N_go x s)).
Proof.
  intros HP x. induction (N.lt_wf_0 x) as [x _ IH]. intros s Hs.
  destruct (decide (0 < x)%N) as [Hx|Hx].
  - rewrite pretty_N_go_step by done. apply IH.
    + by apply N.div_lt.
    + constructor; [apply HP|done].
  - assert (x = 0%N) as -> by lia. by rewrite pretty_N_go_0.
Qed.

Lemma pretty_Z_chars (P : ascii -> Prop) (z : Z) :
  (forall x, P (pretty_N_char x)) ->
  0 <= z ->
  Forall P (list_ascii_of_string (pretty z)).
Proof.
  intros HP Hz. destruct z as [|p|p]; [| |lia].
  - constructor; [apply (HP 0%N)|constructor].
  - change (pretty (Z.pos p)) with (pretty (N.pos p)).
    unfold pretty, pretty_N. rewrite decide_False by done.
    apply pretty_N_go_chars; [done|constructor].
Qed.

Lemma pretty_N_char_no_mark x : pretty_N_char x <> "?"%char.
Proof. unfold pretty_N_char. repeat case_match; discriminate. Qed.

Lemma replace_marks_no_mark {V : Type} (escape : V -> string) cs bs :
  "?"%char ∉ cs -> Client.replace_marks escape cs bs = cs.
Proof.
  induction cs as [|c tl IH]; [done|].
  intros [Hc Htl]%not_elem_of_cons. cbn [Client.replace_marks].
  rewrite (proj2 (Ascii.eqb_neq c "?")) by done.
  destruct tl as [|c2 tl2]; [done|].
  apply not_elem_of_cons in Htl as Hc2. destruct Hc2 as [Hc2 _].
  rewrite (proj2 (Ascii.eqb_neq c2 "?")) by done.
  rewrite andb_false_r. by rewrite IH.
Qed.

Lemma position_plain cs rest k :
  "?"%char ∉ cs -> MSSQL.position (cs ++ rest) k = cs ++ MSSQL.position rest k.
Proof.
  induction cs as [|c tl IH]; [done|].
  intros [Hc Htl]%not_elem_of_cons. cbn [app MSSQL.position].
  rewrite (proj2 (Ascii.eqb_neq c "?")) by done. by rewrite IH.
Qed.

Lemma position_no_mark cs k :
  -1 <= k -> "?"%char ∉ MSSQL.position cs k.
Proof.
  revert k. induction cs as [|c tl IH]; intros k Hk; [apply not_elem_of_nil|].
  cbn [MSSQL.position]. destruct (Ascii.eqb c "?") eqn:Hc.
  - cbv zeta. rewrite chars_app. rewrite !not_elem_of_app. split_and!.
    + intros H. repeat (apply elem_of_cons in H as [H|H]; [discriminate H|]).
      by apply elem_of_nil in H.
    + intros H.
      pose proof (pretty_Z_chars (fun c => c <> "?"%char) (k + 1)
                    pretty_N_char_no_mark ltac:(lia)) as Hall.
      rewrite Forall_forall in Hall. by apply (Hall _ H).
    + apply IH. lia.
  - apply Ascii.eqb_neq in Hc. apply not_elem_of_cons. split; [done|].
    by apply IH.
Qed.

Lemma position_nonempty cs k : cs <> [] -> MSSQL.position cs k <> [].
Proof.
  destruct cs as [|c tl]; [done|]. intros _. cbn [MSSQL.position].
  by destruct (Ascii.eqb c "?").
Qed.

(** The name of the parameter that takes the place of the mark number [i]. *)
Lemma position_concat segs k :
  Forall (fun s => "?"%char ∉ list_ascii_of_string s) segs ->
  MSSQL.position (list_ascii_of_string (String.concat "?" segs)) k
  = list_ascii_of_string
      (MSSQL.weave segs
         ((fun i => "@p" +:+ pretty i) <$> seqZ (k + 1) (Z.of_nat (length segs) - 1))).
Proof.
  intros Hsegs. revert k. induction Hsegs as [|s rest Hs Hrest IH]; intros k; [done|].
  destruct rest as [|s2 rest].
  - cbn [String.concat MSSQL.weave].
    rewrite <- (app_nil_r (list_ascii_of_string s)) at 1.
    by rewrite position_plain, app_nil_r.
  - change (String.concat "?" (s :: s2 :: rest))
      with (s +:+ "?" +:+ String.concat "?" (s2 :: rest)).
    rewrite chars_app, position_plain by done.
    rewrite app_String. change ("" +:+ ?x) with x.
    cbn [list_ascii_of_string MSSQL.position]. rewrite Ascii.eqb_refl. cbv zeta.
    rewrite IH.
    replace (Z.of_nat (length (s :: s2 :: rest)) - 1)
      with (Z.succ (Z.of_nat (length (s2 :: rest)) - 1))
      by (cbn [length]; lia).
    rewrite (seqZ_cons (k + 1) (Z.succ _)) by (cbn [length]; lia).
    rewrite Z.pred_succ. cbn [fmap list_fmap MSSQL.weave].
    replace (Z.succ (k + 1)) with (k + 1 + 1) by lia.
    by rewrite !chars_app.
Qed.

Section MSSQLFacts.

Context {V Resp : Type}.
Variable Number_toString : Z -> string.
Variable request_query :
  string -> list (MSSQL.input (V:=V)) -> gmap Client.ref string
  -> (Resp + Client.ref) * gmap Client.ref string.

Lemma setReqInput_ok req i (b : MSSQL.binding (V:=V)) :
  (forall n, b = MSSQL.Number (MSSQL.Integer n) -> MSSQL.safe_integer n) ->
  exists t, MSSQL._setReqInput Number_toString req i b = Ok (req ++ [MSSQL.mkInput ("p" +:+ pretty i) t b]).
Proof.
  intros Hsafe. destruct b as [[n|]|v]; cbn [MSSQL._setReqInput]; [|by eexists..].
  destruct (Hsafe n eq_refl) as [Hlo Hhi].
  unfold MSSQL.SQL_BIGINT_SAFE_MIN, MSSQL.SQL_BIGINT_SAFE_MAX.
  replace (n <? -9007199254740991) with false by (symmetry; apply Z.ltb_ge; lia).
  replace (n >? 9007199254740991) with false
    by (symmetry; rewrite Z.gtb_ltb; apply Z.ltb_ge; lia).
  cbn [orb]. destruct (_ || _); by eexists.
Qed.

Lemma setReqInput_unsafe req i n :
  ~ MSSQL.safe_integer n ->
  MSSQL._setReqInput (V:=V) Number_toString req i (MSSQL.Number (MSSQL.Integer n))
  = Err (Error ("Bigint must be safe integer or must be passed as string, saw "
                +:+ Number_toString n)).
Proof.
  intros Hn. cbn [MSSQL._setReqInput].
  unfold MSSQL.SQL_BIGINT_SAFE_MIN, MSSQL.SQL_BIGINT_SAFE_MAX,
    MSSQL.SQL_INT4_MIN, MSSQL.SQL_INT4_MAX.
  unfold MSSQL.safe_integer in Hn.
  destruct (Z.ltb_spec n (-9007199254740991)), (Z.ltb_spec n (-2147483648));
    rewrite !Z.gtb_ltb;
    destruct (Z.ltb_spec 9007199254740991 n), (Z.ltb_spec 2147483647 n);
    cbn [orb]; first [done | lia].
Qed.

Lemma setReqInput_inv req i (b : MSSQL.binding (V:=V)) req' :
  MSSQL._setReqInput Number_toString req i b = Ok req' ->
  (forall n, b = MSSQL.Number (MSSQL.Integer n) -> MSSQL.safe_integer n)
  /\ exists t, req' = req ++ [MSSQL.mkInput ("p" +:+ pretty i) t b].
Proof.
  intros Hset. split.
  - intros n ->. destruct (decide (MSSQL.safe_integer n)) as [|Hn]; [done|].
    by rewrite (setReqInput_unsafe _ _ _ Hn) in Hset.
  - destruct b as [[n|]|v]; cbn [MSSQL._setReqInput] in Hset.
    + repeat case_match; try done; injection Hset as <-; by eexists.
    + injection Hset as <-. by eexists.
    + injection Hset as <-. by eexists.
Qed.

Lemma bind_from_inv (bs : list (MSSQL.binding (V:=V))) : forall req i req',
  MSSQL.bind_from Number_toString req i bs = Ok req' ->
  (forall n, MSSQL.Number (MSSQL.Integer n) ∈ bs -> MSSQL.safe_integer n)
  /\ exists inputs,
       req' = req ++ inputs
       /\ MSSQL.input_name <$> inputs
          = (fun k => "p" +:+ pretty k) <$> seqZ i (Z.of_nat (length bs))
       /\ MSSQL.input_value <$> inputs = bs.
Proof.
  induction bs as [|b bs IH]; intros req i req' Hbind.
  - injection Hbind as <-. split; [by intros n ?%elem_of_nil|].
    exists []. by rewrite app_nil_r.
  - cbn [MSSQL.bind_from] in Hbind.
    destruct (MSSQL._setReqInput Number_toString req i b) as [req1|e] eqn:Hset; [|done].
    apply setReqInput_inv in Hset as [Hb [t ->]].
    apply IH in Hbind as [Hbs (inputs & -> & Hnames & Hvalues)]. split.
    + intros n [<-|Hn]%elem_of_cons; [by apply Hb|by apply Hbs].
    + exists (MSSQL.mkInput ("p" +:+ pretty i) t b :: inputs). split_and!.
      * by rewrite <- app_assoc.
      * replace (Z.of_nat (length (b :: bs))) with (Z.succ (Z.of_nat (length bs)))
          by (cbn [length]; lia).
        rewrite seqZ_cons by lia. rewrite Z.pred_succ.
        cbn [fmap list_fmap MSSQL.input_name].
        replace (Z.succ i) with (i + 1) by lia. by f_equal.
      * cbn [fmap list_fmap MSSQL.input_value]. by f_equal.
Qed.

Lemma bind_from_ok (bs : list (MSSQL.binding (V:=V))) : forall req i,
  (forall n, MSSQL.Number (MSSQL.Integer n) ∈ bs -> MSSQL.safe_integer n) ->
  exists req', MSSQL.bind_from Number_toString req i bs = Ok req'.
Proof.
  induction bs as [|b bs IH]; intros req i Hsafe; [by eexists|].
  cbn [MSSQL.bind_from].
  destruct (setReqInput_ok req i b) as [t ->].
  { intros n ->. apply Hsafe. by left. }
  apply IH. intros n Hn. apply Hsafe. by right.
Qed.

Lemma bind_from_unsafe (pre : list (MSSQL.binding (V:=V))) n post : forall req i,
  (forall k, MSSQL.Number (MSSQL.Integer k) ∈ pre -> MSSQL.safe_integer k) ->
  ~ MSSQL.safe_integer n ->
  MSSQL.bind_from Number_toString req i (pre ++ MSSQL.Number (MSSQL.Integer n) :: post)
  = Err (Error ("Bigint must be safe integer or must be passed as string, saw "
                +:+ Number_toString n)).
Proof.
  induction pre as [|b pre IH]; intros req i Hpre Hn.
  - cbn [app MSSQL.bind_from]. by rewrite setReqInput_unsafe.
  - cbn [app MSSQL.bind_from].
    destruct (setReqInput_ok req i b) as [t ->].
    { intros k ->. apply Hpre. by left. }
    apply IH; [|done]. intros k Hk. apply Hpre. by right.
Qed.

Lemma positioned_no_mark sql s :
  MSSQL.positionBindings sql = Some s -> "?"%char ∉ list_ascii_of_string s.
Proof.
  destruct sql as [s0|]; [|done]. intros [= <-].
  rewrite list_ascii_of_string_of_list_ascii. by apply position_no_mark.
Qed.

Lemma formatQuery_positioned {B R : Type} (d : Client.Dialect (V:=B) (R:=R))
    sql bindings :
  Client._formatQuery d (MSSQL.positionBindings sql) bindings
  = MSSQL.positionBindings sql.
Proof.
  destruct (MSSQL.positionBindings sql) as [s|] eqn:Hpos; [|done].
  apply positioned_no_mark in Hpos. unfold Client._formatQuery.
  cbn [fmap option_fmap option_map].
  by rewrite replace_marks_no_mark, string_of_list_ascii_of_string.
Qed.

(** X18. Once the MSSQL client has positioned the bindings there is no
    mark left in the statement, whatever the statement was. So rendering
    the positioned statement with the bindings changes nothing: what
    [_formatQuery] gives for it, and so what [query] puts in front of the
    message of a failed statement, names the parameters and shows none of
    the values. *)
Theorem mssql_positioned_has_no_mark {B R : Type} (d : Client.Dialect (V:=B) (R:=R))
    (sql : string) bindings :
  exists positioned,
    MSSQL.positionBindings (Some sql) = Some positioned
    /\ ("?"%char ∉ list_ascii_of_string positioned)
    /\ Client._formatQuery d (Some positioned) bindings = Some positioned.
Proof.
  destruct (MSSQL.positionBindings (Some sql)) as [positioned|] eqn:Hpos; [|done].
  exists positioned. split_and!; [done|by apply (positioned_no_mark (Some sql))|].
  rewrite <- Hpos. apply formatQuery_positioned.
Qed.

(** X19. The parameters of an MSSQL request line up with the statement:
    when the bindings are accepted, the parameters registered are named
    [p0], [p1], ... in the order of the bindings and carry them unchanged,
    and the marks of the statement, from left to right, are replaced by
    [@] and these names, the text between the marks being kept. A mark
    after a backslash is numbered like any other. *)
Theorem mssql_parameters_line_up segs (bs : list (MSSQL.binding (V:=V))) req :
  Forall (fun s => "?"%char ∉ list_ascii_of_string s) segs ->
  length segs = S (length bs) ->
  MSSQL.bind_from Number_toString [] 0 bs = Ok req ->
  MSSQL.positionBindings (Some (String.concat "?" segs))
  = Some (MSSQL.weave segs ((fun i => "@" +:+ MSSQL.input_name i) <$> req))
  /\ MSSQL.input_value <$> req = bs
  /\ MSSQL.input_name <$> req
     = (fun k => "p" +:+ pretty k) <$> seqZ 0 (Z.of_nat (length bs)).
Proof.
  intros Hsegs Hlen Hbind.
  apply bind_from_inv in Hbind as [_ (inputs & -> & Hnames & Hvalues)].
  cbn [app]. split_and!; [|done..].
  unfold MSSQL.positionBindings. cbn [fmap option_fmap option_map]. f_equal.
  rewrite position_concat by done.
  rewrite string_of_list_ascii_of_string. f_equal.
  change (-1 + 1) with 0. rewrite Hlen.
  replace (Z.of_nat (S (length bs)) - 1) with (Z.of_nat (length bs)) by lia.
  change (fun i => "@" +:+ MSSQL.input_name i)
    with ((fun n => "@" +:+ n) ∘ MSSQL.input_name (V:=V)).
  rewrite (list_fmap_compose (MSSQL.input_name (V:=V))), Hnames.
  rewrite <- list_fmap_compose. done.
Qed.

(** X20. The bindings of an MSSQL statement are all accepted exactly when
    every integer among them is a safe integer, between [-(2^53 - 1)] and
    [2^53 - 1]; numbers that are no integers and values that are no numbers
    are always accepted. *)
Theorem mssql_bindings_accepted_iff_safe (bs : list (MSSQL.binding (V:=V))) :
  (exists req, MSSQL.bind_from Number_toString [] 0 bs = Ok req)
  <-> (forall n, MSSQL.Number (MSSQL.Integer n) ∈ bs ->
         - (2 ^ 53 - 1) <= n <= 2 ^ 53 - 1).
Proof.
  split.
  - intros [req Hbind]. by apply bind_from_inv in Hbind as [Hsafe _].
  - apply bind_from_ok.
Qed.

(** X21. A statement of the MSSQL client with an integer binding that is
    not safe never reaches the driver: [query] rejects with a new error
    object, and nothing else of the heap changes whatever the driver would
    have done. The message of the object is the positioned statement,
    [" - "], and the complaint about the first such integer; the [query]
    and [query-error] notifications are both emitted. *)
Theorem mssql_query_unsafe_integer escape connection q st s pre n post :
  Client.sql q = Some s ->
  s <> "" ->
  Client.bindings q = Some (pre ++ MSSQL.Number (MSSQL.Integer n) :: post) ->
  (forall k, MSSQL.Number (MSSQL.Integer k) ∈ pre -> MSSQL.safe_integer k) ->
  ~ MSSQL.safe_integer n ->
  let d := MSSQL.dialect Number_toString request_query escape in
  let err := fresh (dom (Client.heap st)) in
  let sent := Client.prepare d (inr q) in
  exists st',
    Client.query d connection (inr q) st = (inr err, st')
    /\ Client.heap st !! err = None
    /\ Client.heap st'
       = <[err := Client.js_string (MSSQL.positionBindings (Some s))
                  +:+ " - Bigint must be safe integer or must be passed as string, saw "
                  +:+ Number_toString n]> (Client.heap st)
    /\ Client.events st'
       = Client.events st
         ++ [Client.Query (Client.__knexUid connection) (Client.__knexTxId connection) sent;
             Client.QueryError err (Client.__knexUid connection)
               (Client.__knexTxId connection) sent].
Proof.
  intros Hsql Hs Hbs Hpre Hn d err sent.
  assert (Client.sql sent = MSSQL.positionBindings (Some s)) as Hsent_sql
    by (unfold sent, Client.prepare; cbn; by rewrite Hsql).
  assert (Client.bindings sent = Client.bindings q) as Hsent_bs by done.
  assert (exists s', MSSQL.positionBindings (Some s) = Some s' /\ s' <> "")
    as (s' & Hpos & Hs').
  { eexists. split; [reflexivity|].
    intros Hempty. apply (f_equal list_ascii_of_string) in Hempty.
    rewrite list_ascii_of_string_of_list_ascii in Hempty.
    apply position_nonempty in Hempty; [done|].
    by destruct s. }
  assert (Client._query d connection sent (Client.heap st)
          = (inr err,
             <[err := "Bigint must be safe integer or must be passed as string, saw "
                      +:+ Number_toString n]> (Client.heap st))) as Hq.
  { change (Client._query d) with (MSSQL._query Number_toString request_query).
    unfold MSSQL._query. rewrite Hsent_sql, Hpos.
    rewrite bool_decide_eq_false_2 by done.
    rewrite Hsent_bs, Hbs. cbn [default]. unfold id.
    by rewrite bind_from_unsafe. }
  unfold Client.query. cbv zeta. fold sent. cbn [Client.heap Client.events].
  rewrite Hq. eexists. split; [reflexivity|].
  cbn [Client.heap Client.events]. split_and!.
  - apply (not_elem_of_dom (D:=gset Client.ref)). apply is_fresh.
  - rewrite insert_insert_eq, lookup_insert_eq. f_equal.
    rewrite Hsent_sql, formatQuery_positioned.
    cbn [Client.js_string default]. by rewrite Hpos.
  - by rewrite <- app_assoc.
Qed.

(** X22. [columnizeWithPrefix] gives the columns in order, each wrapped
    and with the prefix in front, separated by a comma and a space: nothing
    before the first, nothing after the last, the empty string for no
    column, and a target that is one string is one column. *)
Theorem columnizeWithPrefix_joins (wrap : string -> string) prefix target :
  MSSQL.columnizeWithPrefix wrap prefix target
  = String.concat ", "
      ((fun column => prefix +:+ wrap column)
         <$> match target with inl column => [column] | inr columns => columns end).
Proof.
  unfold MSSQL.columnizeWithPrefix.
  set (columns := match target with inl s => [s] | inr l => l end).
  destruct columns as [|c0 columns]; [done|].
  cbn [MSSQL.columnize_loop fmap list_fmap]. change (0 <? 0) with false.
  change ("" +:+ ?x) with x. change (0 + 1) with 1.
  assert (forall cols i str, 0 < i ->
            MSSQL.columnize_loop wrap prefix cols i str
            = str +:+ foldr (fun c acc => ", " +:+ prefix +:+ wrap c +:+ acc) "" cols)
    as Hloop.
  { induction cols as [|c cols IH]; intros i str Hi.
    - cbn [MSSQL.columnize_loop foldr]. by rewrite string_app_nil_r.
    - cbn [MSSQL.columnize_loop foldr].
      rewrite (proj2 (Z.ltb_lt 0 i)) by done.
      rewrite IH by lia. by rewrite !string_app_assoc. }
  rewrite Hloop by lia. generalize (prefix +:+ wrap c0). clear.
  induction columns as [|c columns IH]; intros str.
  - cbn [foldr fmap list_fmap String.concat]. by rewrite string_app_nil_r.
  - cbn [foldr fmap list_fmap].
    change (String.concat ", " (str :: ?x :: ?l))
      with (str +:+ ", " +:+ String.concat ", " (x :: l)).
    rewrite <- IH. by rewrite !string_app_assoc.
Qed.

End MSSQLFacts.

(** * The SQLite3 client *)

(** X23. What [processResponse] of the SQLite3 client returns comes from
    one source. When the statement object has an [output] function, the
    result is what that function returns for the response, called on the
    runner, whatever the method: the context of the callback is ignored.
    When it has none, the result comes from where the method that [_query]
    called leaves it: for a statement sent with [run] (insert, update,
    counter, del) it depends on the context of the callback only, the
    response being ignored; for any other statement, sent with [all], it
    depends on the response only. *)
Theorem sqlite3_result_from_called_method {Row Cell Resp Runner Out : Type}
    (skim : Resp -> list Row) (runner : Runner)
    (obj obj' : SQLite3.ResponseObj (Row:=Row) (Cell:=Cell) (Resp:=Resp)
                  (Runner:=Runner) (Out:=Out)) :
  SQLite3.method obj' = SQLite3.method obj ->
  SQLite3.pluck obj' = SQLite3.pluck obj ->
  SQLite3.output obj' = SQLite3.output obj ->
  match SQLite3.output obj with
  | Some _ => SQLite3.response obj' = SQLite3.response obj
  | None =>
      if bool_decide (SQLite3.callMethod (SQLite3.method obj) = "run")
      then SQLite3.context obj' = SQLite3.context obj
      else SQLite3.response obj' = SQLite3.response obj
  end ->
  SQLite3.processResponse skim obj' runner = SQLite3.processResponse skim obj runner
  /\ forall f, SQLite3.output obj = Some f ->
       SQLite3.processResponse skim obj runner
       = SQLite3.Output (f runner (SQLite3.response obj)).
Proof.
  intros Hm Hp Ho Hsrc. split.
  2:{ intros f Hf. unfold SQLite3.processResponse. by rewrite Hf. }
  unfold SQLite3.processResponse. rewrite Hm, Hp, Ho.
  destruct (SQLite3.output obj) as [f|]; [by rewrite Hsrc|].
  destruct (SQLite3.method obj) as [m|]; cbn [default SQLite3.callMethod] in *.
  - destruct (bool_decide (m ∈ ["insert"; "update"; "counter"; "del"])) eqn:Hrun.
    + rewrite bool_decide_eq_true_2 in Hsrc by done. rewrite Hsrc.
      apply bool_decide_eq_true in Hrun.
      repeat (apply elem_of_cons in Hrun as [->|Hrun]; [reflexivity|]).
      by apply elem_of_nil in Hrun.
    + rewrite bool_decide_eq_false_2 in Hsrc by done. rewrite Hsrc.
      apply bool_decide_eq_false in Hrun. unfold id.
      destruct (bool_decide (m ∈ ["select"; "pluck"; "first"])); [done|].
      rewrite !elem_of_cons in Hrun.
      rewrite (bool_decide_eq_false_2 (m = "insert")) by tauto.
      rewrite (bool_decide_eq_false_2 (m ∈ ["del"; "update"; "counter"]))
        by (rewrite !elem_of_cons; tauto).
      done.
  - rewrite bool_decide_eq_false_2 in Hsrc by done. by rewrite Hsrc.
Qed.

(** * The stamp in the name of a new migration *)

Lemma compare_app (a1 a2 b1 b2 : string) :
  String.length a1 = String.length a2 ->
  String.compare (a1 +:+ b1) (a2 +:+ b2)
  = lex (String.compare a1 a2) (String.compare b1 b2).
Proof.
  revert a2. induction a1 as [|c1 a1 IH]; intros [|c2 a2] Hlen; try done.
  rewrite !app_String. cbn [String.compare].
  destruct (Ascii.compare c1 c2); [|done..].
  apply IH. by injection Hlen.
Qed.

Lemma length_app (a b : string) :
  String.length (a +:+ b) = (String.length a + String.length b)%nat.
Proof.
  induction a as [|x a IH]; [done|].
  rewrite app_String. cbn [String.length]. by rewrite IH.
Qed.

Lemma padDate_two n :
  0 <= n <= 99 -> String.length (padDate n) = 2%nat.
Proof.
  intros Hn.
  assert (Forall (fun n => String.length (padDate n) = 2%nat) (seqZ 0 100)) as Hall
    by (apply (bool_decide_unpack _); vm_compute; exact I).
  rewrite Forall_forall in Hall. apply Hall. apply elem_of_seqZ. lia.
Qed.

Lemma padDate_compare a b :
  0 <= a <= 99 -> 0 <= b <= 99 ->
  String.compare (padDate a) (padDate b) = (a ?= b).
Proof.
  intros Ha Hb.
  assert (Forall (fun a => Forall (fun b =>
            String.compare (padDate a) (padDate b) = (a ?= b)) (seqZ 0 100))
            (seqZ 0 100)) as Hall
    by (apply (bool_decide_unpack _); vm_compute; exact I).
  rewrite Forall_forall in Hall.
  specialize (Hall a ltac:(apply elem_of_seqZ; lia)).
  rewrite Forall_forall in Hall. apply Hall. apply elem_of_seqZ. lia.
Qed.

Lemma year_digits y :
  1000 <= y <= 9999 ->
  toString y = padDate (y / 100) +:+ padDate (y mod 100).
Proof.
  intros Hy.
  assert (Forall (fun y => toString y = padDate (y / 100) +:+ padDate (y mod 100))
            (seqZ 1000 9000)) as Hall
    by (apply (bool_decide_unpack _); vm_compute; exact I).
  rewrite Forall_forall in Hall. apply Hall. apply elem_of_seqZ. lia.
Qed.

Lemma year_compare y1 y2 :
  1000 <= y1 <= 9999 -> 1000 <= y2 <= 9999 ->
  String.length (toString y1) = 4%nat
  /\ String.compare (toString y1) (toString y2) = (y1 ?= y2).
Proof.
  intros H1 H2. rewrite !year_digits by done.
  pose proof (Z.div_mod y1 100 ltac:(lia)) as Hd1.
  pose proof (Z.div_mod y2 100 ltac:(lia)) as Hd2.
  pose proof (Z.mod_pos_bound y1 100 ltac:(lia)) as Hm1.
  pose proof (Z.mod_pos_bound y2 100 ltac:(lia)) as Hm2.
  assert (0 <= y1 / 100 <= 99) as Hq1 by lia.
  assert (0 <= y2 / 100 <= 99) as Hq2 by lia.
  split.
  - rewrite length_app, !padDate_two by lia. done.
  - rewrite compare_app by (rewrite !padDate_two by lia; done).
    rewrite !padDate_compare by lia.
    destruct (Z.compare_spec (y1 / 100) (y2 / 100)),
      (Z.compare_spec (y1 mod 100) (y2 mod 100)),
      (Z.compare_spec y1 y2); cbn [lex]; first [done | lia].
Qed.

(** X24. The stamp that [yyyymmddhhmmss] makes of a time of the calendar
    (with a year of four digits) has fourteen characters, and the stamps
    compare as strings the way the times compare: a stamp made later sorts
    after one made earlier, and two stamps are equal only for the same
    second. *)
Theorem stamp_sorts_by_time (d1 d2 : LocalTime) :
  calendar d1 -> calendar d2 ->
  String.length (yyyymmddhhmmss d1) = 14%nat
  /\ String.compare (yyyymmddhhmmss d1) (yyyymmddhhmmss d2) = time_compare d1 d2.
Proof.
  intros (Hy1 & Hmo1 & Hd1 & Hh1 & Hmi1 & Hs1) (Hy2 & Hmo2 & Hd2 & Hh2 & Hmi2 & Hs2).
  destruct (year_compare _ _ Hy1 Hy2) as [Hlen1 Hcmp].
  destruct (year_compare _ _ Hy2 Hy1) as [Hlen2 _].
  unfold yyyymmddhhmmss, time_compare. split.
  - rewrite !length_app, Hlen1, !padDate_two by lia. done.
  - rewrite compare_app by congruence. rewrite Hcmp. f_equal.
    rewrite compare_app by (rewrite !padDate_two by lia; done).
    rewrite padDate_compare by lia.
    rewrite !(Z.add_comm _ 1), Z.add_compare_mono_l. f_equal.
    rewrite compare_app by (rewrite !padDate_two by lia; done).
    rewrite padDate_compare by lia. f_equal.
    rewrite compare_app by (rewrite !padDate_two by lia; done).
    rewrite padDate_compare by lia. f_equal.
    rewrite compare_app by (rewrite !padDate_two by lia; done).
    rewrite !padDate_compare by lia. done.
Qed.

(** * The MSSQL client: a statement with no text *)

(** X25. A statement of the MSSQL client with no text, absent or empty,
    resolves with nothing: the [query] notification is emitted, the driver
    is not asked, the bindings are not looked at (an integer that is not
    safe is no error here), and no error object is made. *)
Theorem mssql_query_without_statement {V Resp : Type}
    (Number_toString : Z -> string)
    (request_query : string -> list (MSSQL.input (V:=V)) -> gmap Client.ref string
                     -> (Resp + Client.ref) * gmap Client.ref string)
    escape connection (q : Client.QueryObj (V:=MSSQL.binding (V:=V))) st :
  Client.sql q = None \/ Client.sql q = Some "" ->
  let d := MSSQL.dialect Number_toString request_query escape in
  Client.query d connection (inr q) st
  = (inl None,
     Client.mkState (Client.heap st)
       (Client.events st
        ++ [Client.Query (Client.__knexUid connection) (Client.__knexTxId connection)
              (Client.mkQuery (Client.sql q) (Client.bindings q))])).
Proof.
  intros Hsql d. unfold Client.query, Client.prepare. cbv zeta.
  change (Client._query d) with (MSSQL._query Number_toString request_query).
  change (Client.positionBindings d) with MSSQL.positionBindings.
  change (Client.prepBindings d (Client.bindings q)) with (Client.bindings q).
  unfold MSSQL._query. cbn [Client.sql Client.heap Client.events].
  by destruct Hsql as [-> | ->].
Qed.

(** * The query compiler of the Oracledb client *)

Lemma slice_last_comma (s : string) : Oracledb.slice_last (s +:+ ",") = s.
Proof.
  induction s as [|c s IH]; [done|].
  rewrite app_String. cbn [Oracledb.slice_last]. rewrite IH.
  destruct s; reflexivity.
Qed.

Lemma trailing_concat (x : string) (xs : list string) :
  foldr (fun y acc => y +:+ "," +:+ acc) "" (x :: xs)
  = String.concat "," (x :: xs) +:+ ",".
Proof.
  revert x. induction xs as [|y xs IH]; intros x.
  - cbn [foldr String.concat]. by rewrite string_app_nil_r.
  - change (foldr _ "" (x :: y :: xs))
      with (x +:+ "," +:+ foldr (fun y acc => y +:+ "," +:+ acc) "" (y :: xs)).
    rewrite IH.
    change (String.concat "," (x :: y :: xs))
      with (x +:+ "," +:+ String.concat "," (y :: xs)).
    by rewrite !string_app_assoc.
Qed.

Lemma each_ret_fold {V Buf : Type} (to_string : string -> Buf -> string)
    (rets : list (Oracledb.ret (Buf:=Buf))) :
  forall rc ic (bs : list (Oracledb.binding (V:=V) (Buf:=Buf))),
    foldl (Oracledb.each_ret to_string) (rc, ic, bs) rets
    = (rc +:+ foldr (fun y acc => y +:+ "," +:+ acc) ""
                ((fun r => dquote +:+ Oracledb.columnName_of to_string r +:+ dquote)
                   <$> rets),
       ic +:+ foldr (fun y acc => y +:+ "," +:+ acc) "" (replicate (length rets) "?"),
       bs ++ (Oracledb.helper_of <$> rets)).
Proof.
  induction rets as [|r rets IH]; intros rc ic bs.
  - cbn [foldl fmap list_fmap foldr length replicate].
    by rewrite !string_app_nil_r, app_nil_r.
  - cbn [foldl]. unfold Oracledb.each_ret at 2.
    destruct r as [name|name value]; rewrite IH;
      cbn [fmap list_fmap foldr length replicate Oracledb.helper_of
           Oracledb.columnName_of];
      rewrite <- !app_assoc, !string_app_assoc; reflexivity.
Qed.

(** X26. [_addReturningToSqlAndConvert] keeps the marks and the bindings
    of a statement in step: for an array of out-bindings it appends one
    helper to the bindings of the formatter for each entry, in order, and,
    unless the array is empty, extends the statement by a returning clause
    with the quoted column names and an into clause with as many marks,
    both separated by commas. For an empty array the statement is left as
    it is and nothing is appended. *)
Theorem addReturning_marks_match_helpers {V Buf : Type}
    (to_string : string -> Buf -> string) self_tableName statement
    (rets : list (Oracledb.ret (Buf:=Buf))) tableName returning
    (bindings : list (Oracledb.binding (V:=V) (Buf:=Buf))) :
  let out := Oracledb._addReturningToSqlAndConvert to_string self_tableName
               statement (Oracledb.Array rets) tableName returning bindings in
  out.2 = bindings ++ (Oracledb.helper_of <$> rets)
  /\ Oracledb.sql out.1
     = match rets with
       | [] => statement
       | _ =>
           statement +:+ " returning "
           +:+ String.concat ","
                 ((fun r => dquote +:+ Oracledb.columnName_of to_string r +:+ dquote)
                    <$> rets)
           +:+ " into " +:+ String.concat "," (replicate (length rets) "?")
       end.
Proof.
  intros out. unfold out, Oracledb._addReturningToSqlAndConvert.
  cbn [Oracledb.falsy]. rewrite each_ret_fold. cbn [fst snd].
  split; [done|]. cbn [Oracledb.sql].
  destruct rets as [|r rets]; [done|].
  change (?f <$> r :: rets) with (f r :: (f <$> rets)).
  change (replicate (length (r :: rets)) "?")
    with ("?" :: replicate (length rets) "?").
  change ("" +:+ ?x) with x.
  rewrite !trailing_concat, !slice_last_comma.
  assert (forall c x xs, String.concat "," ((String c x) :: xs) <> "") as Hne
    by (intros c x [|y xs]; discriminate).
  rewrite !bool_decide_eq_false_2; [done|apply Hne..].
Qed.

(** * The properties of the clients at sample values *)

Lemma escapeString_reads_back_witness :
  Client.read_token "'" "'" (Client.escapeString (Some "O'Brien") +:+ " and 1 = 1")
  = Some ("O'Brien", " and 1 = 1").
Proof.
  apply (escapeString_reads_back "O'Brien" " and 1 = 1"). intros t. discriminate.
Defined.

Lemma wrapIdentifierImpl_reads_back_witness :
  Client.read_token SQLite3.backquote SQLite3.backquote
    (SQLite3.wrapIdentifierImpl (Some "a`b") +:+ " from t")
  = Some ("a`b", " from t").
Proof.
  refine (proj1 (proj2 (wrapIdentifierImpl_reads_back "a`b" " from t" _ _ _)));
    [discriminate|intros t; discriminate..].
Defined.

Lemma mssql_wrapIdentifierImpl_no_escape_witness :
  MSSQL.wrapIdentifierImpl (Some "a]b") = "[a]b]"
  /\ Client.read_token "[" "]" (MSSQL.wrapIdentifierImpl (Some "a]b"))
     <> Some ("a]b", "").
Proof.
  destruct (mssql_wrapIdentifierImpl_no_escape "a]b") as [Heq Hiff]; [discriminate|].
  split; [exact Heq|]. intros Hread. apply Hiff in Hread. apply Hread.
  apply (bool_decide_unpack _). vm_compute. exact I.
Defined.

Lemma formatQuery_marks_in_order_witness :
  Client._formatQuery Sample.failing_dialect
    (Some "a = ? and b = \? and c = ?") (Some ["x"])
  = Some "a = 'x' and b = ? and c = ?".
Proof.
  apply (formatQuery_marks_in_order Sample.failing_dialect
           [Client.Text "a = "; Client.Mark; Client.Text " and b = ";
            Client.EscapedMark; Client.Text " and c = "; Client.Mark]
           (Some ["x"])).
  unfold Client.plain_pieces, Client.plain.
  repeat (constructor || discriminate).
Defined.

Lemma mssql_parameters_line_up_witness :
  MSSQL.positionBindings (Some "select * from t where a = ? and b = \?")
  = Some "select * from t where a = @p0 and b = \@p1".
Proof.
  refine (proj1 (mssql_parameters_line_up (V:=string) pretty
            ["select * from t where a = "; " and b = \"; ""]
            [MSSQL.Number (MSSQL.Integer 1); MSSQL.Other "x"]
            [MSSQL.mkInput "p0" (Some MSSQL.Int) (MSSQL.Number (MSSQL.Integer 1));
             MSSQL.mkInput "p1" None (MSSQL.Other "x")]
            _ eq_refl eq_refl)).
  apply (bool_decide_unpack _). vm_compute. exact I.
Defined.

Lemma mssql_bindings_accepted_iff_safe_witness :
  exists req,
    MSSQL.bind_from (V:=string) pretty [] 0
      [MSSQL.Number (MSSQL.Integer 5); MSSQL.Number MSSQL.NonInteger; MSSQL.Other "x"]
    = Ok req.
Proof.
  apply (proj2 (mssql_bindings_accepted_iff_safe (V:=string) pretty _)).
  intros n Hn. rewrite !elem_of_cons in Hn.
  destruct Hn as [Hn|[Hn|[Hn|Hn]]]; [|done..|by apply elem_of_nil in Hn].
  injection Hn as ->. change (2 ^ 53) with 9007199254740992. lia.
Defined.

Lemma mssql_query_unsafe_integer_witness :
  exists st',
    Client.query Sample.mssql_dialect Sample.connection
      (inr Sample.unsafe_insert) Sample.mssql_state = (inr 0%nat, st')
    /\ Client.heap st' !! 0%nat
       = Some ("insert into t values (@p0, @p1) - Bigint must be safe integer "
               +:+ "or must be passed as string, saw 9007199254740992").
Proof.
  destruct (mssql_query_unsafe_integer (V:=string) (Resp:=unit) pretty
              (fun _ _ h => (inl tt, h)) (fun _ => "value")
              Sample.connection Sample.unsafe_insert Sample.mssql_state
              "insert into t values (?, ?)" [MSSQL.Number (MSSQL.Integer 1)]
              9007199254740992 [])
    as (st' & Hrun & _ & Hheap & _).
  - reflexivity.
  - discriminate.
  - reflexivity.
  - intros k Hk. apply list_elem_of_singleton in Hk. injection Hk as ->.
    unfold MSSQL.safe_integer. change (2 ^ 53) with 9007199254740992. lia.
  - unfold MSSQL.safe_integer. change (2 ^ 53) with 9007199254740992. lia.
  - exists st'. split; [exact Hrun|].
    rewrite Hheap. apply lookup_insert_eq.
Defined.

Lemma sqlite3_result_from_called_method_witness :
  SQLite3.processResponse (fun rows : nat => [rows]) (Sample.sqlite3_insert 2) tt
  = SQLite3.processResponse (fun rows : nat => [rows]) (Sample.sqlite3_insert 1) tt.
Proof.
  refine (proj1 (sqlite3_result_from_called_method _ tt (Sample.sqlite3_insert 1)
                   (Sample.sqlite3_insert 2) _ _ _ _)); reflexivity.
Defined.

Lemma stamp_sorts_by_time_witness :
  String.compare (yyyymmddhhmmss Sample.old_year) (yyyymmddhhmmss Sample.new_year)
  = Lt.
Proof.
  refine (eq_trans (proj2 (stamp_sorts_by_time Sample.old_year Sample.new_year _ _))
            eq_refl);
    unfold calendar; cbn; lia.
Defined.

Lemma mssql_query_without_statement_witness :
  Client.query Sample.mssql_dialect Sample.connection
    (inr (Client.mkQuery (Some "") (Client.bindings Sample.unsafe_insert)))
    Sample.mssql_state
  = (inl None,
     Client.mkState ∅
       [Client.Query "__knexUid1" None
          (Client.mkQuery (Some "") (Client.bindings Sample.unsafe_insert))]).
Proof.
  apply (mssql_query_without_statement (V:=string) (Resp:=unit) pretty
           (fun _ _ h => (inl tt, h)) (fun _ => "value") Sample.connection
           (Client.mkQuery (Some "") (Client.bindings Sample.unsafe_insert))
           Sample.mssql_state).
  by right.
Defined.
